(** * AI Artifact Builder: response parser, prompt assembler and context index

    A shallow embedding of the backend services
    [anythingllm.service.js], [vectordb.service.js], [filesystem.service.js]
    and of the routes of [routes/files.js], with the properties the
    specification states about them. *)

From Stdlib Require Import ZArith NArith Ascii String List Lia Floats.
From Stdlib Require Import DecimalString.
From Stdlib Require Import Sorting.Sorted Sorting.Permutation.
From stdpp Require Import gmap list.

Local Open Scope N_scope.
Local Open Scope nat_scope.

(** ** JavaScript strings

    A JavaScript string is a sequence of UTF-16 code units; a code unit is
    kept as an [N].  [u] reads an ASCII literal. *)

Module JS.

Definition u (s : string) : list N :=
  map N_of_ascii (list_ascii_of_string s).
Arguments u s%_string : simpl never.

(** ECMAScript [WhiteSpace] and [LineTerminator] code units: the class [\s]
    of a regular expression, and what [String.prototype.trim] strips. *)
Definition isWhiteSpace (c : N) : bool :=
  ((9 <=? c) && (c <=? 13)          (* TAB LF VT FF CR *)
   || (c =? 32) || (c =? 160)       (* SP NBSP *)
   || (c =? 5760)                   (* U+1680 *)
   || ((8192 <=? c) && (c <=? 8202))(* U+2000 .. U+200A *)
   || (c =? 8232) || (c =? 8233)    (* LS PS *)
   || (c =? 8239) || (c =? 8287)    (* U+202F U+205F *)
   || (c =? 12288) || (c =? 65279)  (* U+3000 BOM *))%N.

Definition dq : N := 34.                                      (* the double quote *)
Definition notQuote (c : N) : bool := negb (c =? dq)%N.      (* any unit but the double quote *)
Definition nl : N := 10.                                      (* \n *)
Definition isNewline (c : N) : bool := (c =? nl)%N.
Definition anyUnit (c : N) : bool := true.                     (* [\s\S] *)

(** [s.startsWith(p)] *)
Fixpoint startsWith (p s : list N) : bool :=
  match p, s with
  | [], _ => true
  | _ :: _, [] => false
  | a :: p', b :: s' => (a =? b)%N && startsWith p' s'
  end.

(** [s.indexOf(p)]: the first position at which [p] occurs. *)
Fixpoint indexOf (p s : list N) : option nat :=
  if startsWith p s then Some 0
  else match s with
       | [] => None
       | _ :: s' => option_map S (indexOf p s')
       end.

Definition includes (p s : list N) : bool :=
  match indexOf p s with Some _ => true | None => false end.

(** [s.replace(p, r)] with a string pattern: only the first occurrence is
    replaced.  (The replacement strings used below hold no [$].) *)
Fixpoint replaceFirst (s p r : list N) : list N :=
  if startsWith p s then r ++ drop (length p) s
  else match s with
       | [] => []
       | c :: s' => c :: replaceFirst s' p r
       end.

Fixpoint trimStart (s : list N) : list N :=
  match s with
  | c :: s' => if isWhiteSpace c then trimStart s' else s
  | [] => []
  end.

Definition trimEnd (s : list N) : list N := rev (trimStart (rev s)).

(** [s.trim()] *)
Definition trim (s : list N) : list N := trimEnd (trimStart s).

(** [s.split('/')] *)
Fixpoint splitOn (sep : N) (s : list N) : list (list N) :=
  match s with
  | [] => [[]]
  | c :: s' =>
      if (c =? sep)%N then [] :: splitOn sep s'
      else match splitOn sep s' with
           | w :: ws => (c :: w) :: ws
           | [] => [[c]]
           end
  end.

(** [s.replace(/\//g, '_')]: every code unit [a] becomes [b]. *)
Definition replaceUnit (a b : N) (s : list N) : list N :=
  map (fun c => if (c =? a)%N then b else c) s.

End JS.
Import JS.

(** ** Regular expressions

    The fragment of ECMAScript regular expressions the services use, with
    the backtracking semantics of the language: a quantifier is greedy or
    lazy, the first alternative that lets the rest of the pattern match
    wins, and a group records what it consumed. *)

Module Regex.

Inductive regex : Type :=
| Lit (s : list N)                      (* a literal run of code units *)
| Greedy (min : nat) (c : N -> bool)    (* [c]{min,}  ([c]+ is min = 1) *)
| Lazy (c : N -> bool)                  (* [c]*? *)
| Group (r : regex)                     (* ( r ) *)
| Seq (r1 r2 : regex).

Section Matcher.
Context {R : Type}.

(** [c]{min,}, greedy: the longest run first, then shorter ones. *)
Fixpoint greedy (min : nat) (c : N -> bool) (s : list N)
         (k : list N -> option R) : option R :=
  match s with
  | x :: s' =>
      if c x then
        match greedy (pred min) c s' k with
        | Some r => Some r
        | None => match min with O => k s | S _ => None end
        end
      else match min with O => k s | S _ => None end
  | [] => match min with O => k s | S _ => None end
  end.

(** [c]*?, lazy: the shortest run first. *)
Fixpoint lazy (c : N -> bool) (s : list N)
         (k : list N -> option R) : option R :=
  match k s with
  | Some r => Some r
  | None =>
      match s with
      | x :: s' => if c x then lazy c s' k else None
      | [] => None
      end
  end.

(** [rmatch r s caps k]: match [r] at the start of [s], then hand the rest
    of the input and the captures so far to the continuation [k]. *)
Fixpoint rmatch (r : regex) (s : list N) (caps : list (list N))
         (k : list N -> list (list N) -> option R) : option R :=
  match r with
  | Lit l => if startsWith l s then k (drop (length l) s) caps else None
  | Greedy min c => greedy min c s (fun rest => k rest caps)
  | Lazy c => lazy c s (fun rest => k rest caps)
  | Group r1 =>
      rmatch r1 s caps
        (fun rest caps' => k rest (caps' ++ [take (length s - length rest) s]))
  | Seq r1 r2 =>
      rmatch r1 s caps (fun rest caps' => rmatch r2 rest caps' k)
  end.
End Matcher.

(** The result of [RegExp.prototype.exec]: [match.index], [match[0]] and
    the captured groups [match[1..]]. *)
Record MatchResult := {
  index : nat;
  fullMatch : list N;
  groups : list (list N)
}.

(** A match of [r] that starts exactly at the head of [s]. *)
Definition matchHere (r : regex) (s : list N)
  : option (list N * list (list N)) :=
  rmatch r s [] (fun rest caps => Some (rest, caps)).

(** The leftmost match in [s]; [pos] is the position of [s] in the whole
    input. *)
Fixpoint search (r : regex) (s : list N) (pos : nat) : option MatchResult :=
  match matchHere r s with
  | Some (rest, caps) =>
      Some {| index := pos;
              fullMatch := take (length s - length rest) s;
              groups := caps |}
  | None =>
      match s with
      | [] => None
      | _ :: s' => search r s' (S pos)
      end
  end.

(** [r.exec(text)] for a regular expression whose [lastIndex] is
    [lastIndex]. *)
Definition exec (r : regex) (text : list N) (lastIndex : nat)
  : option MatchResult :=
  if length text <? lastIndex then None
  else search r (drop lastIndex text) lastIndex.

(** [text.match(r)] for [r] without the [g] flag. *)
Definition matchFirst (r : regex) (text : list N) : option MatchResult :=
  search r text 0.

(** [text.replace(r, rep)] for [r] with the [g] flag and a replacement
    without [$]: the matches are found left to right, each search resuming
    where the previous match ended; [skip] counts the code units of the
    current match still to be dropped.  A match of length zero advances by
    one code unit. *)
Fixpoint replaceAllFrom (r : regex) (rep : list N) (s : list N) (skip : nat)
  : list N :=
  match skip with
  | S n =>
      match s with
      | [] => []
      | _ :: s' => replaceAllFrom r rep s' n
      end
  | O =>
      match matchHere r s with
      | Some (rest, _) =>
          match s with
          | [] => rep
          | c :: s' =>
              match length s - length rest with
              | O => rep ++ c :: replaceAllFrom r rep s' 0
              | S n => rep ++ replaceAllFrom r rep s' n
              end
          end
      | None =>
          match s with
          | [] => []
          | c :: s' => c :: replaceAllFrom r rep s' 0
          end
      end
  end.

Definition replaceAll (r : regex) (rep : list N) (s : list N) : list N :=
  replaceAllFrom r rep s 0.

End Regex.
Import Regex.

(** ** The response parser ([anythingllm.service.js]) *)

Module Parser.

Record GeneratedFile := {
  path : list N;
  language : list N;
  content : list N
}.

Record ParsedResponse := {
  message : list N;
  files : list GeneratedFile;
  thinking : option (list N)      (* [None] is [null] *)
}.

(** [/<file\s+path="([^"]+)"\s+language="([^"]+)">([\s\S]*?)<\/file>/g] *)
Definition fileRegex : regex :=
  Seq (Lit (u "<file"))
 (Seq (Greedy 1 isWhiteSpace)
 (Seq (Lit (u "path=" ++ [dq]))
 (Seq (Group (Greedy 1 notQuote))
 (Seq (Lit [dq])
 (Seq (Greedy 1 isWhiteSpace)
 (Seq (Lit (u "language=" ++ [dq]))
 (Seq (Group (Greedy 1 notQuote))
 (Seq (Lit (dq :: u ">"))
 (Seq (Group (Lazy anyUnit))
      (Lit (u "</file>"))))))))))).

(** [/<thinking>([\s\S]*?)<\/thinking>/] *)
Definition thinkingRegex : regex :=
  Seq (Lit (u "<thinking>"))
 (Seq (Group (Lazy anyUnit))
      (Lit (u "</thinking>"))).

(** [/<thinking>[\s\S]*?<\/thinking>/g] *)
Definition thinkingBlockRegex : regex :=
  Seq (Lit (u "<thinking>"))
 (Seq (Lazy anyUnit)
      (Lit (u "</thinking>"))).

(** [/\n{3,}/g] *)
Definition blankLinesRegex : regex := Greedy 3 isNewline.

(** [extractThinking(text)] *)
Definition extractThinking (text : list N) : option (list N) :=
  match matchFirst thinkingRegex text with
  | Some thinkingMatch => Some (trim (nth 0 (groups thinkingMatch) []))
  | None => None
  end.

(** [cleanMessage(text)] *)
Definition cleanMessage (text : list N) : list N :=
  trim (replaceAll blankLinesRegex [nl; nl]
         (replaceAll thinkingBlockRegex [] text)).

(** One file pushed by the loop body, from the groups of a match. *)
Definition fileOfMatch (m : MatchResult) : GeneratedFile :=
  {| path := trim (nth 0 (groups m) []);
     language := trim (nth 1 (groups m) []);
     content := trim (nth 2 (groups m) []) |}.

(** The [while ((match = fileRegex.exec(responseText)) !== null)] loop.
    [lastIndex] is the state of the regular expression object; every
    iteration spends one unit of [fuel]. *)
Fixpoint parseLoop (fuel : nat) (responseText : list N) (lastIndex : nat)
         (files : list GeneratedFile) (cleanedMessage : list N)
  : option (list GeneratedFile * list N) :=
  match fuel with
  | O => None
  | S fuel' =>
      match exec fileRegex responseText lastIndex with
      | None => Some (files, cleanedMessage)
      | Some m =>
          parseLoop fuel' responseText
            (index m + length (fullMatch m))
            (files ++ [fileOfMatch m])
            (replaceFirst cleanedMessage (fullMatch m) [])
      end
  end.

(** [parseClaudeResponse(responseText)]; [None] only if the loop ran out of
    fuel, which [parseClaudeResponse_returns] excludes. *)
Definition parseClaudeResponse (responseText : list N)
  : option ParsedResponse :=
  match parseLoop (S (length responseText)) responseText 0 [] responseText with
  | Some (files, cleanedMessage) =>
      Some {| message := cleanMessage cleanedMessage;
              files := files;
              thinking := extractThinking responseText |}
  | None => None
  end.

End Parser.
Import Parser.


(** ** The prompt assembler ([anythingllm.service.js]) *)

Module Prompt.

(** A JavaScript value that is a string, [null] or [undefined]. *)
Inductive value : Type :=
| VUndefined
| VNull
| VStr (s : list N).

#[global] Instance value_eq_dec : EqDecision value.
Proof. solve_decision. Defined.

(** [x || d] *)
Definition orDefault (x : value) (d : list N) : list N :=
  match x with
  | VStr (c :: s) => c :: s
  | _ => d
  end.

(** One element of [context.files], as [queryRelevantFiles] builds it. *)
Record ContextFile := {
  cf_path : list N;
  cf_language : value;
  cf_content : list N;
  cf_score : float
}.

Record Context := {
  ctx_files : list ContextFile;
  ctx_structure : list N
}.

Definition backticks : list N := u "```".

Definition instructions : list N :=
  u "# Instructions" ++ [nl; nl]
  ++ u "You are helping develop a software project. When generating code:" ++ [nl]
  ++ u "1. Generate complete, production-ready code" ++ [nl]
  ++ u "2. Follow the existing project structure and conventions" ++ [nl]
  ++ u "3. Include all necessary imports and dependencies" ++ [nl]
  ++ u "4. Wrap each file in XML tags with path and language:" ++ [nl; nl]
  ++ u "<file path=" ++ [dq] ++ u "src/components/Button.jsx" ++ [dq]
  ++ u " language=" ++ [dq] ++ u "javascript" ++ [dq] ++ u ">" ++ [nl]
  ++ u "// file content here" ++ [nl]
  ++ u "</file>" ++ [nl; nl]
  ++ u "5. You can generate multiple files in one response" ++ [nl]
  ++ u "6. Make sure code is ready to run without modifications" ++ [nl; nl].

(** The body of [context.files.forEach(file => ...)]. *)
Definition appendFile (prompt : list N) (file : ContextFile) : list N :=
  let prompt := prompt ++ (u "### " ++ cf_path file ++ [nl]) in
  let prompt := prompt ++ (backticks ++ orDefault (cf_language file) (u "text") ++ [nl]) in
  let prompt := prompt ++ (cf_content file ++ [nl]) in
  prompt ++ (backticks ++ [nl; nl]).

(** [buildEnrichedPrompt(userMessage, context, options)]; [mode] is
    [options.mode]. *)
Definition buildEnrichedPrompt (userMessage : list N) (context : Context)
           (mode : value) : list N :=
  let prompt := u "# Project Context" ++ [nl; nl] in
  let prompt :=
    match ctx_files context with
    | [] => prompt
    | _ :: _ =>
        fold_left appendFile (ctx_files context)
          (prompt ++ (u "## Relevant Files:" ++ [nl; nl]))
    end in
  let prompt :=
    match ctx_structure context with
    | [] => prompt
    | _ :: _ =>
        prompt ++ (u "## Project Structure:" ++ [nl] ++ backticks ++ [nl]
                   ++ ctx_structure context ++ [nl] ++ backticks ++ [nl; nl])
    end in
  let prompt := prompt ++ instructions in
  let prompt :=
    match mode with
    | VStr m =>
        if bool_decide (m = u "refactor") then
          prompt ++ (u "Focus on refactoring existing code while maintaining functionality."
                     ++ [nl; nl])
        else if bool_decide (m = u "test") then
          prompt ++ (u "Generate comprehensive tests for the code." ++ [nl; nl])
        else prompt
    | _ => prompt
    end in
  prompt ++ (u "# User Request" ++ [nl; nl] ++ userMessage).

End Prompt.
Import Prompt.

(** ** The project-structure outline ([vectordb.service.js]) *)

Module Tree.

(** The value [buildFileTree] builds: an object whose properties, in
    insertion order, are [null] (a file, [None]) or another such object (a
    directory). *)
#[local] Unset Elimination Schemes.
Inductive jsobj : Type :=
| Obj (props : list (list N * option jsobj)).
#[local] Set Elimination Schemes.

Definition props (o : jsobj) : list (list N * option jsobj) :=
  match o with Obj ps => ps end.

Section Properties.
Context {V : Type}.

(** The own property [k] of an object, if it has one. *)
Fixpoint getOwn (k : list N) (ps : list (list N * V)) : option V :=
  match ps with
  | [] => None
  | (k', v) :: ps' => if bool_decide (k' = k) then Some v else getOwn k ps'
  end.

(** [o[k] = v]: an existing property keeps its place, a new one is added
    last. *)
Fixpoint setOwn (k : list N) (v : V) (ps : list (list N * V))
  : list (list N * V) :=
  match ps with
  | [] => [(k, v)]
  | (k', v') :: ps' =>
      if bool_decide (k' = k) then (k, v) :: ps'
      else (k', v') :: setOwn k v ps'
  end.
End Properties.

(** The names every object inherits from [Object.prototype]: for these
    [current[part]] is never [undefined], whatever the tree holds. *)
Definition inheritedNames : list (list N) :=
  [ u "constructor"; u "toString"; u "toLocaleString"; u "valueOf";
    u "hasOwnProperty"; u "isPrototypeOf"; u "propertyIsEnumerable";
    u "__proto__"; u "__defineGetter__"; u "__defineSetter__";
    u "__lookupGetter__"; u "__lookupSetter__" ].

Definition inherited (k : list N) : bool :=
  bool_decide (k ∈ inheritedNames).

(** [parts.forEach((part, idx) => ...)] from [current]: the walk of one
    path.  [rest = []] is [idx === parts.length - 1].  A part that names an
    inherited member makes [current] an object outside the tree: what the
    rest of the path writes there is not part of the tree, and is left out
    here ([walkIn] below is the walk that keeps track of it). *)
Fixpoint walk (parts : list (list N)) (current : jsobj) : jsobj :=
  match parts with
  | [] => current
  | part :: rest =>
      match getOwn part (props current) with
      | Some (Some sub) =>
          (* truthy: descend *)
          Obj (setOwn part (Some (walk rest sub)) (props current))
      | None =>
          if inherited part then current
          else
            match rest with
            | [] => Obj (setOwn part None (props current))
            | _ :: _ =>
                Obj (setOwn part (Some (walk rest (Obj []))) (props current))
            end
      | Some None =>
          match rest with
          | [] => Obj (setOwn part None (props current))
          | _ :: _ =>
              Obj (setOwn part (Some (walk rest (Obj []))) (props current))
          end
      end
  end.

(** [path.split('/').filter(p => p)] *)
Definition pathParts (path : list N) : list (list N) :=
  filter (fun p => p ≠ []) (splitOn 47 path).

(** [buildFileTree(paths)] *)
Definition buildFileTree (paths : list (list N)) : jsobj :=
  fold_left (fun tree path => walk (pathParts path) tree) paths (Obj []).

(** *** The tree and [Object.prototype]

    [current[part]] also finds what [current] inherits, and [walk] takes
    [Object.prototype] to hold what the language puts there.  A path such
    as [__proto__/lib/a.js] makes the walk write [lib] into
    [Object.prototype] itself, where it stays for every later call of the
    process.  [walkIn] is the walk in a process in which [Object.prototype]
    holds, besides its own members, a truthy value under the names
    [polluted].  Its value is [None] when the path steps on a name that is
    inherited in either way: the walk then leaves the tree, and what it
    does outside is not modelled. *)
Fixpoint walkIn (polluted : list N -> bool) (parts : list (list N))
         (current : jsobj) : option jsobj :=
  match parts with
  | [] => Some current
  | part :: rest =>
      let fresh :=
        (* [current[part]] is falsy: it becomes [null] or [{}] *)
        match rest with
        | [] => Some (Obj (setOwn part None (props current)))
        | _ :: _ =>
            match walkIn polluted rest (Obj []) with
            | Some sub => Some (Obj (setOwn part (Some sub) (props current)))
            | None => None
            end
        end in
      match getOwn part (props current) with
      | Some (Some sub) =>
          (* truthy: descend *)
          match walkIn polluted rest sub with
          | Some sub' => Some (Obj (setOwn part (Some sub') (props current)))
          | None => None
          end
      | Some None => fresh
      | None => if inherited part || polluted part then None else fresh
      end
  end.

(** [buildFileTree(paths)] in such a process. *)
Definition buildFileTreeIn (polluted : list N -> bool) (paths : list (list N))
  : option jsobj :=
  fold_left (fun tree path =>
               match tree with
               | Some tree => walkIn polluted (pathParts path) tree
               | None => None
               end)
            paths (Some (Obj [])).

(** *** [Object.entries] and [Array.prototype.sort] *)

Definition digit (c : N) : option N :=
  if ((48 <=? c) && (c <=? 57))%N then Some (c - 48)%N else None.

Fixpoint decimal (acc : N) (s : list N) : option N :=
  match s with
  | [] => Some acc
  | c :: s' =>
      match digit c with
      | Some d => decimal (10 * acc + d)%N s'
      | None => None
      end
  end.

(** The array index a property key denotes, if any: a canonical decimal
    numeral below [2^32 - 1]. *)
Definition arrayIndex (k : list N) : option N :=
  match k with
  | [] => None
  | [48%N] => Some 0%N
  | 48%N :: _ => None
  | _ =>
      match decimal 0 k with
      | Some n => if (n <? 4294967295)%N then Some n else None
      | None => None
      end
  end.

Section Entries.
Context {V : Type}.

(** [Array.prototype.sort(cmp)]: a stable sort; with a consistent
    comparator every stable sort returns the same array. *)
Fixpoint insertBy {A} (cmp : A -> A -> Z) (x : A) (l : list A) : list A :=
  match l with
  | [] => [x]
  | y :: l' => if (cmp y x <=? 0)%Z then y :: insertBy cmp x l' else x :: l
  end.

Definition sortBy {A} (cmp : A -> A -> Z) (l : list A) : list A :=
  fold_left (fun acc x => insertBy cmp x acc) l [].

Definition indexOrder (a b : N * (list N * V)) : Z :=
  (Z.of_N (fst a) - Z.of_N (fst b))%Z.

(** [Object.entries(o)]: the array-index keys in ascending order, then
    the other keys in insertion order. *)
Definition entries (ps : list (list N * V)) : list (list N * V) :=
  map snd
    (sortBy indexOrder
       (omap (fun e => match arrayIndex (fst e) with
                       | Some n => Some (n, e)
                       | None => None
                       end) ps))
  ++ filter (fun e => arrayIndex (fst e) = None) ps.
End Entries.

Section Render.
(** [String.prototype.localeCompare]: the collation of the host's
    locale. *)
Variable localeCompare : list N -> list N -> Z.

(** The comparator of [treeToString]; [isNull v] is [v === null]. *)
Definition compareEntries {V} (isNull : V -> bool) (a b : list N * V) : Z :=
  if isNull (snd a) && negb (isNull (snd b)) then 1%Z
  else if negb (isNull (snd a)) && isNull (snd b) then (-1)%Z
  else localeCompare (fst a) (fst b).

(** [Object.entries(tree).sort(...)] *)
Definition sortedEntries {V} (isNull : V -> bool) (ps : list (list N * V))
  : list (list N * V) :=
  sortBy (compareEntries isNull) (entries ps).

Definition fileIcon : list N := [55357; 56516]%N.     (* U+1F4C4 *)
Definition folderIcon : list N := [55357; 56513]%N.   (* U+1F4C1 *)

Definition isFile (v : option jsobj) : bool :=
  match v with None => true | Some _ => false end.

(** The body of [entries.forEach(([key, value]) => ...)]; [sub] is
    [treeToString(value, .)]. *)
Definition appendEntry (indent : list N) (result : list N)
           (e : list N * (option jsobj * (list N -> list N))) : list N :=
  let '(key, (value, sub)) := e in
  let icon := if isFile value then fileIcon else folderIcon in
  let result := result ++ (indent ++ icon ++ u " " ++ key ++ [nl]) in
  if isFile value then result
  else result ++ sub (indent ++ u "  ").

(** [treeToString(tree, indent)].  Every value carries its own rendering
    through the sort, which keeps the recursion structural. *)
Fixpoint treeToString (tree : jsobj) (indent : list N) : list N :=
  match tree with
  | Obj ps =>
      let withSub :=
        map (fun e : list N * option jsobj =>
               (fst e,
                (snd e,
                 match snd e with
                 | Some sub => treeToString sub
                 | None => fun _ => []
                 end))) ps in
      fold_left (appendEntry indent)
        (sortedEntries (fun v => isFile (fst v)) withSub) []
  end.
End Render.

End Tree.
Import Tree.

(** The collation by code units: one admissible [localeCompare]. *)
Fixpoint compareUnits (a b : list N) : Z :=
  match a, b with
  | [], [] => 0
  | [], _ :: _ => -1
  | _ :: _, [] => 1
  | x :: a', y :: b' =>
      if (x <? y)%N then -1 else if (y <? x)%N then 1 else compareUnits a' b'
  end%Z.


(** ** Exceptions and state *)

Module Effects.

(** The outcome of a call: a value, or a thrown [Error] with its
    [message]. *)
Inductive result (A : Type) : Type :=
| Ok (a : A)
| Throw (message : list N).
Arguments Ok {A} a.
Arguments Throw {A} message.

(** A computation over a store [S] that may throw; what it wrote before
    throwing stays written. *)
Definition M (S A : Type) : Type := S -> result A * S.

Definition ret {S A} (a : A) : M S A := fun s => (Ok a, s).
Definition throw {S A} (message : list N) : M S A := fun s => (Throw message, s).

Definition bind {S A B} (m : M S A) (f : A -> M S B) : M S B :=
  fun s =>
    match m s with
    | (Ok a, s') => f a s'
    | (Throw e, s') => (Throw e, s')
    end.

(** [try { m } catch (error) { handler(error) }] *)
Definition tryCatch {S A} (m : M S A) (handler : list N -> M S A) : M S A :=
  fun s =>
    match m s with
    | (Ok a, s') => (Ok a, s')
    | (Throw e, s') => handler e s'
    end.

Definition get {S} : M S S := fun s => (Ok s, s).
Definition put {S} (s : S) : M S unit := fun _ => (Ok tt, s).

End Effects.
Import Effects.

Notation "'let!' x ':=' m 'in' k" := (bind m (fun x => k))
  (at level 10, x name, m at level 200, k at level 200).
Notation "'do!' m 'in' k" := (bind m (fun _ => k))
  (at level 10, m at level 200, k at level 200).

(** ** The vector store and [VectorDBService] ([vectordb.service.js]) *)

Module VectorDB.

Record Metadata := {
  md_path : list N;
  md_language : list N;
  md_lastModified : N
}.

Record Entry := {
  document : list N;
  metadata : Metadata
}.

(** Modelled from the spec: the vector store client ([chromadb], a library
    outside the repository), section 6: a store of named collections, a
    collection being a map from identifiers to entries in which an upsert
    replaces the entry of an existing identifier.  [calls] counts the calls
    made so far and [down i], when it is an error, is what the call number
    [i] throws because the store cannot be reached; [nearest] is the
    similarity search of the store, which ranks the identifiers of a
    collection against a query text and gives their distances. *)
Record Chroma := {
  calls : nat;
  down : nat -> option (list N);
  collections : gmap (list N) (gmap (list N) Entry);
  nearest : list N -> gmap (list N) Entry -> list (list N * float)
}.

Definition withCollections (f : gmap (list N) (gmap (list N) Entry) ->
                                gmap (list N) (gmap (list N) Entry))
           (c : Chroma) : Chroma :=
  {| calls := calls c; down := down c; collections := f (collections c);
     nearest := nearest c |}.

Definition tick (c : Chroma) : Chroma :=
  {| calls := S (calls c); down := down c; collections := collections c;
     nearest := nearest c |}.

(** Every call reaches the store first. *)
Definition reach : M Chroma unit :=
  fun c =>
    match down c (calls c) with
    | Some e => (Throw e, tick c)
    | None => (Ok tt, tick c)
    end.

Definition noCollection : list N := u "Collection does not exist".
Definition duplicateIds : list N := u "ID's must be unique".

(** [client.getOrCreateCollection({name})]; the handle is the name. *)
Definition client_getOrCreateCollection (name : list N) : M Chroma (list N) :=
  do! reach in
  let! c := get in
  match collections c !! name with
  | Some _ => ret name
  | None => do! put (withCollections (insert name ∅) c) in ret name
  end.

(** [client.getCollection({name})] *)
Definition client_getCollection (name : list N) : M Chroma (list N) :=
  do! reach in
  let! c := get in
  match collections c !! name with
  | Some _ => ret name
  | None => throw noCollection
  end.

(** [client.deleteCollection({name})] *)
Definition client_deleteCollection (name : list N) : M Chroma unit :=
  do! reach in
  let! c := get in
  match collections c !! name with
  | Some _ => put (withCollections (delete name) c)
  | None => throw noCollection
  end.

Definition upsertAll (rows : list (list N * Entry)) (col : gmap (list N) Entry)
  : gmap (list N) Entry :=
  fold_left (fun col row => <[fst row := snd row]> col) rows col.

Definition deleteAll (ids : list (list N)) (col : gmap (list N) Entry)
  : gmap (list N) Entry :=
  fold_left (fun col id => delete id col) ids col.

(** [collection.upsert({documents, metadatas, ids})]; the client refuses a
    batch that names an identifier twice. *)
Definition collection_upsert (name : list N) (documents : list (list N))
           (metadatas : list Metadata) (ids : list (list N)) : M Chroma unit :=
  do! reach in
  let! c := get in
  match collections c !! name with
  | None => throw noCollection
  | Some col =>
      if bool_decide (NoDup ids) then
        let rows :=
          zip ids (zip_with (fun d m => {| document := d; metadata := m |})
                            documents metadatas) in
        put (withCollections (insert name (upsertAll rows col)) c)
      else throw duplicateIds
  end.

(** [collection.delete({ids})]; an identifier without entry is skipped. *)
Definition collection_delete (name : list N) (ids : list (list N))
  : M Chroma unit :=
  do! reach in
  let! c := get in
  match collections c !! name with
  | None => throw noCollection
  | Some col => put (withCollections (insert name (deleteAll ids col)) c)
  end.

(** What [collection.query] answers: one row of results per query text. *)
Record QueryResults := {
  qr_documents : option (list (list (list N)));
  qr_metadatas : option (list (list (option Metadata)));
  qr_distances : option (list (list float))
}.

(** The [nResults] nearest entries of a collection, with their distances:
    the ranked identifiers that the collection holds. *)
Definition hitsOf (col : gmap (list N) Entry) (ranked : list (list N * float))
           (nResults : nat) : list (Entry * float) :=
  take nResults
    (omap (fun hit : list N * float =>
             match col !! fst hit with
             | Some e => Some (e, snd hit)
             | None => None
             end) ranked).

Definition queryResults (hits : list (Entry * float)) : QueryResults :=
  {| qr_documents := Some [map (fun h => document (fst h)) hits];
     qr_metadatas := Some [map (fun h => Some (metadata (fst h))) hits];
     qr_distances := Some [map snd hits] |}.

(** [collection.query({queryTexts: [query], nResults})] *)
Definition collection_query (name : list N) (query : list N) (nResults : nat)
  : M Chroma QueryResults :=
  do! reach in
  let! c := get in
  match collections c !! name with
  | None => throw noCollection
  | Some col => ret (queryResults (hitsOf col (nearest c query col) nResults))
  end.

(** [collection.get()]: the [metadatas] of all entries. *)
Definition collection_get (name : list N) : M Chroma (option (list Metadata)) :=
  do! reach in
  let! c := get in
  match collections c !! name with
  | None => throw noCollection
  | Some col => ret (Some (map (fun row => metadata (snd row)) (map_to_list col)))
  end.

(** *** The service *)

(** An element of the [files] argument of [upsertFiles]. *)
Record FileInput := {
  fi_path : list N;
  fi_content : value;
  fi_language : value
}.

Record Retrieved := {
  r_files : list ContextFile;
  r_structure : list N
}.

(** [`project_${projectId}`] *)
Definition collectionName (projectId : list N) : list N :=
  u "project_" ++ projectId.

(** [`${projectId}_${path.replace(/\//g, '_')}`] *)
Definition fileId (projectId path : list N) : list N :=
  projectId ++ u "_" ++ replaceUnit 47 95 path.

(** [getOrCreateCollection(projectId)] *)
Definition getOrCreateCollection (projectId : list N) : M Chroma (list N) :=
  tryCatch (client_getOrCreateCollection (collectionName projectId))
           (fun error => throw error).

(** [upsertFiles(projectId, files)]; [now idx] is what [Date.now()] reads
    for the file at position [idx]. *)
Definition upsertFiles (now : nat -> N) (projectId : list N)
           (files : list FileInput) : M Chroma unit :=
  tryCatch
    (match files with
     | [] => ret tt
     | _ :: _ =>
         let! collection := getOrCreateCollection projectId in
         let documents := map (fun f => orDefault (fi_content f) []) files in
         let metadatas :=
           imap (fun idx f =>
                   {| md_path := fi_path f;
                      md_language := orDefault (fi_language f) (u "text");
                      md_lastModified := now idx |}) files in
         let ids := map (fun f => fileId projectId (fi_path f)) files in
         collection_upsert collection documents metadatas ids
     end)
    (fun error => throw error).

(** [deleteFiles(projectId, filePaths)] *)
Definition deleteFiles (projectId : list N) (filePaths : list (list N))
  : M Chroma unit :=
  tryCatch
    (let! collection := getOrCreateCollection projectId in
     let ids := map (fun path => fileId projectId path) filePaths in
     collection_delete collection ids)
    (fun error => throw error).

(** [deleteProject(projectId)] *)
Definition deleteProject (projectId : list N) : M Chroma unit :=
  tryCatch (client_deleteCollection (collectionName projectId))
           (fun _ => ret tt).

Section Retrieval.
Variable localeCompare : list N -> list N -> Z.

(** [getProjectStructure(projectId)] *)
Definition getProjectStructure (projectId : list N) : M Chroma (list N) :=
  tryCatch
    (let! collection := client_getCollection (collectionName projectId) in
     let! allFiles_metadatas := collection_get collection in
     match allFiles_metadatas with
     | None | Some [] => ret (u "Empty project")
     | Some metadatas =>
         let paths := map md_path metadatas in
         let tree := buildFileTree paths in
         ret (treeToString localeCompare tree [])
     end)
    (fun _ => ret []).

(** [x || 0] on a number that may be missing. *)
Definition orZero (x : option float) : float :=
  match x with
  | Some d => if (PrimFloat.eqb d 0 || PrimFloat.is_nan d)%bool then 0%float else d
  | None => 0%float
  end.

(** The [results.documents[0].forEach((doc, idx) => ...)] of
    [queryRelevantFiles]. *)
Definition reconstruct (results : QueryResults) : list ContextFile :=
  match qr_documents results with
  | Some (docs :: _) =>
      fold_left
        (fun files (row : nat * list N) =>
           let '(idx, doc) := row in
           match qr_metadatas results with
           | Some (mds :: _) =>
               match mds !! idx with
               | Some (Some md) =>
                   files ++ [ {| cf_path := md_path md;
                                 cf_language := VStr (md_language md);
                                 cf_content := doc;
                                 cf_score :=
                                   orZero (ds ← qr_distances results;
                                           row ← ds !! 0;
                                           row !! idx) |} ]
               | _ => files
               end
           | _ => files
           end)
        (imap pair docs) []
  | _ => []
  end.

(** [queryRelevantFiles(projectId, query, topK)] *)
Definition queryRelevantFiles (projectId query : list N) (topK : nat)
  : M Chroma Retrieved :=
  tryCatch
    (let! collection := getOrCreateCollection projectId in
     let! results := collection_query collection query topK in
     let files := reconstruct results in
     let! structure := getProjectStructure projectId in
     ret {| r_files := files; r_structure := structure |})
    (fun _ => ret {| r_files := []; r_structure := [] |}).
End Retrieval.

End VectorDB.
Import VectorDB.

(** ** The relational file store and [FileSystemService]
    ([filesystem.service.js]) *)

Module FileSystem.

(** A row of the table [files], keyed by its [UNIQUE(project_id, path)].
    The columns the modelled code never reads ([id], [size] and the two
    timestamps) are left out; [content] and [language] may be [NULL]. *)
Record FileRow := {
  row_project_id : list N;
  row_path : list N;
  row_content : value;
  row_language : value
}.

(** What goes wrong with a connection: asking for it throws, because the
    database cannot be reached, or the statement sent over it is rejected
    by the database. *)
Inductive PgError : Type :=
| Unreachable (message : list N)
| Rejected (message : list N).

(** The table [files]; [pg_calls] counts the connections asked for so far
    and [pg_down i], when it is an error, is what goes wrong with the
    connection number [i].  The database rejects a statement with a value
    that the schema has no place for: a project id that is no UUID or, in
    an [INSERT], is the id of no project, a path of more than 500
    characters, a language of more than 50, a text with a NUL character.
    Which statements are rejected is left to [pg_down]; a statement that
    goes through is taken to store and to compare its values as they are
    given. *)
Record Postgres := {
  pg_calls : nat;
  pg_down : nat -> option PgError;
  rows : gmap (list N * list N) FileRow
}.

Definition withRows (f : gmap (list N * list N) FileRow ->
                         gmap (list N * list N) FileRow)
           (db : Postgres) : Postgres :=
  {| pg_calls := pg_calls db; pg_down := pg_down db; rows := f (rows db) |}.

Definition pg_tick (db : Postgres) : Postgres :=
  {| pg_calls := S (pg_calls db); pg_down := pg_down db; rows := rows db |}.

(** [await this.pool.connect()]; the client is the number of the
    connection. *)
Definition connect : M Postgres nat :=
  fun db =>
    match pg_down db (pg_calls db) with
    | Some (Unreachable e) => (Throw e, pg_tick db)
    | _ => (Ok (pg_calls db), pg_tick db)
    end.

(** [await client.query(query, values)]: the statement is rejected, or it
    goes through and does to the table what [statement] says. *)
Definition client_query {A} (client : nat) (statement : M Postgres A)
  : M Postgres A :=
  fun db =>
    match pg_down db client with
    | Some (Rejected e) => (Throw e, db)
    | _ => statement db
    end.

(** The message of the [TypeError] of [Buffer.byteLength] for a [content]
    that is [null] or [undefined]. *)
Definition notAString (content : value) : list N :=
  u "The " ++ [dq] ++ u "string" ++ [dq]
  ++ u " argument must be of type string or an instance of Buffer or ArrayBuffer. Received "
  ++ match content with
     | VNull => u "null"
     | _ => u "undefined"
     end.

(** [`File not found: ${path}`] *)
Definition fileNotFound (path : list N) : list N :=
  u "File not found: " ++ path.

(** The default [language = 'text'] of a parameter: it replaces
    [undefined] only. *)
Definition defaultText (language : value) : value :=
  match language with
  | VUndefined => VStr (u "text")
  | _ => language
  end.

(** [saveFile(projectId, path, content, language = 'text')]:
    [Buffer.byteLength] throws on a [content] that is no string; the
    statement is an [INSERT ... ON CONFLICT (project_id, path) DO UPDATE
    ... RETURNING *]. *)
Definition saveFile (projectId path : list N) (content language : value)
  : M Postgres FileRow :=
  let language := defaultText language in
  let! client := connect in
  tryCatch
    (match content with
     | VStr _ =>
         let row := {| row_project_id := projectId; row_path := path;
                       row_content := content; row_language := language |} in
         client_query client
           (let! db := get in
            do! put (withRows (insert (projectId, path) row) db) in
            ret row)
     | _ => throw (notAString content)
     end)
    (fun error => throw error).

(** [readFile(projectId, path)]; the statement is a [SELECT]. *)
Definition readFile (projectId path : list N) : M Postgres FileRow :=
  let! client := connect in
  tryCatch
    (let! result :=
       client_query client
         (let! db := get in ret (rows db !! (projectId, path))) in
     match result with
     | None => throw (fileNotFound path)
     | Some row => ret row
     end)
    (fun error => throw error).

(** [deleteFile(projectId, path)]; the statement is a
    [DELETE ... RETURNING *]. *)
Definition deleteFile (projectId path : list N) : M Postgres FileRow :=
  let! client := connect in
  tryCatch
    (let! result :=
       client_query client
         (let! db := get in
          match rows db !! (projectId, path) with
          | None => ret None
          | Some row =>
              do! put (withRows (delete (projectId, path)) db) in
              ret (Some row)
          end) in
     match result with
     | None => throw (fileNotFound path)
     | Some row => ret row
     end)
    (fun error => throw error).

(** [deleteProjectFiles(projectId)]:
    [DELETE FROM files WHERE project_id = $1]. *)
Definition deleteProjectFiles (projectId : list N) : M Postgres unit :=
  let! client := connect in
  tryCatch
    (client_query client
       (let! db := get in
        put (withRows
               (filter (fun r : list N * list N * FileRow => r.1.1 ≠ projectId))
               db)))
    (fun error => throw error).

(** The [for (const file of files)] loop of [saveFiles]: every file is
    saved by a call of its own, on a connection of its own. *)
Fixpoint saveFilesFrom (projectId : list N) (files : list FileInput)
         (savedFiles : list FileRow) : M Postgres (list FileRow) :=
  match files with
  | [] => ret savedFiles
  | file :: rest =>
      let! saved := saveFile projectId (fi_path file) (fi_content file)
                             (fi_language file) in
      saveFilesFrom projectId rest (savedFiles ++ [saved])
  end.

(** [saveFiles(projectId, files)] *)
Definition saveFiles (projectId : list N) (files : list FileInput)
  : M Postgres (list FileRow) :=
  saveFilesFrom projectId files [].

(** *** [buildTree] *)

(** A row as [getProjectFiles] selects it: what [buildTree] reads of a
    file. *)
Record FileInfo := {
  f_id : list N;
  f_path : list N;
  f_language : value;
  f_size : N
}.

Inductive NodeType : Type :=
| TFile               (* 'file' *)
| TDirectory.         (* 'directory' *)

(** A node of the tree: [name], [type], [children] ([None] is
    [undefined]) and, on a node made for a file, the [id], [language],
    [size] and [path] of that file. *)
#[local] Unset Elimination Schemes.
Inductive TreeNode : Type :=
| Node (name : list N) (type : NodeType) (children : option (list TreeNode))
       (fileOf : option FileInfo).
#[local] Set Elimination Schemes.

Definition n_name (n : TreeNode) : list N :=
  match n with Node name _ _ _ => name end.
Definition n_type (n : TreeNode) : NodeType :=
  match n with Node _ type _ _ => type end.
Definition n_children (n : TreeNode) : option (list TreeNode) :=
  match n with Node _ _ children _ => children end.
Definition n_fileOf (n : TreeNode) : option FileInfo :=
  match n with Node _ _ _ fileOf => fileOf end.

(** [children.find(c => c.name === part)] *)
Definition findChild (part : list N) (children : list TreeNode)
  : option TreeNode :=
  List.find (fun c => bool_decide (n_name c = part)) children.

(** The children of the node [findChild] found become [sub]: the node is
    the first one of that name. *)
Fixpoint setChildren (part : list N) (sub : list TreeNode)
         (children : list TreeNode) : list TreeNode :=
  match children with
  | [] => []
  | c :: children' =>
      if bool_decide (n_name c = part) then
        Node (n_name c) (n_type c) (Some sub) (n_fileOf c) :: children'
      else c :: setChildren part sub children'
  end.

(** [parts.forEach((part, idx) => ...)] of [buildTree], from the node whose
    children are [children]; [rest = []] is [idx === parts.length - 1].
    A node without children (a file) that is found on the way is not
    entered: the rest of the path goes on in the node the walk is in. *)
Fixpoint place (file : FileInfo) (parts : list (list N))
         (children : list TreeNode) : list TreeNode :=
  match parts with
  | [] => children
  | part :: rest =>
      match findChild part children with
      | Some child =>
          match n_children child with
          | Some sub => setChildren part (place file rest sub) children
          | None => place file rest children
          end
      | None =>
          match rest with
          | [] => children ++ [Node part TFile None (Some file)]
          | _ :: _ =>
              children ++ [Node part TDirectory (Some (place file rest [])) None]
          end
      end
  end.

(** [buildTree(files)] *)
Definition buildTree (files : list FileInfo) : TreeNode :=
  Node (u "/") TDirectory
       (Some (fold_left (fun children file =>
                           place file (pathParts (f_path file)) children)
                        files []))
       None.

End FileSystem.
Import FileSystem.

(** ** The routes ([routes/files.js]) *)

Module Routes.

(** The two stores a request handler works on. *)
Record World := {
  pg : Postgres;
  chroma : Chroma
}.

Definition onPg {A} (m : M Postgres A) : M World A :=
  fun w => let '(r, db) := m (pg w) in (r, {| pg := db; chroma := chroma w |}).

Definition onChroma {A} (m : M Chroma A) : M World A :=
  fun w => let '(r, c) := m (chroma w) in (r, {| pg := pg w; chroma := c |}).

Inductive Body : Type :=
| Success (file : FileRow)                      (* {success: true, file} *)
| Failure (error : list N) (details : option (list N)).

Record Response := {
  status : nat;
  body : Body
}.

(** [!x] on a field of the request body. *)
Definition falsy (x : value) : bool :=
  match x with
  | VStr (_ :: _) => false
  | _ => true
  end.

Definition text (x : value) : list N :=
  match x with VStr s => s | _ => [] end.

(** [router.post('/rename', ...)] on the body
    [{projectId, oldPath, newPath}]. *)
Definition rename (now : nat -> N) (projectId oldPath newPath : value)
  : M World Response :=
  tryCatch
    (if falsy projectId || falsy oldPath || falsy newPath then
       ret {| status := 400;
              body := Failure
                (u "Missing required fields: projectId, oldPath, newPath")
                None |}
     else
       let projectId := text projectId in
       let oldPath := text oldPath in
       let newPath := text newPath in
       (* Read old file *)
       let! oldFile := onPg (readFile projectId oldPath) in
       (* Save with new path *)
       let! newFile := onPg (saveFile projectId newPath
                               (row_content oldFile) (row_language oldFile)) in
       (* Delete old file *)
       do! onPg (deleteFile projectId oldPath) in
       (* Update vector DB *)
       do! onChroma (deleteFiles projectId [oldPath]) in
       do! onChroma (upsertFiles now projectId
                       [ {| fi_path := newPath;
                            fi_content := row_content oldFile;
                            fi_language := row_language oldFile |} ]) in
       ret {| status := 200; body := Success newFile |})
    (fun error =>
       ret {| status := 500;
              body := Failure (u "Failed to rename file") (Some error) |}).

(** *** The other routes of [routes/files.js] *)

(** [error.message.includes('not found')] *)
Definition saysNotFound (error : list N) : bool :=
  includes (u "not found") error.

(** The handler of [router.get('/:projectId/*', ...)]; [filePath] is
    [req.params[0]].  The router hands it the requests that the route
    [router.get('/:projectId', ...)], registered first, does not take: a
    request reaches the handler with a [filePath] that is not empty. *)
Definition get_file (projectId filePath : list N) : M World Response :=
  tryCatch
    (match filePath with
     | [] =>
         ret {| status := 400;
                body := Failure (u "File path is required") None |}
     | _ :: _ =>
         let! file := onPg (readFile projectId filePath) in
         ret {| status := 200; body := Success file |}
     end)
    (fun error =>
       if saysNotFound error then
         ret {| status := 404;
                body := Failure (u "File not found") (Some error) |}
       else
         ret {| status := 500;
                body := Failure (u "Failed to read file") (Some error) |}).

(** [router.post('/update', ...)] on the body
    [{projectId, path, content, language}]. *)
Definition post_update (now : nat -> N) (projectId path content language : value)
  : M World Response :=
  tryCatch
    (if falsy projectId || falsy path || bool_decide (content = VUndefined) then
       ret {| status := 400;
              body := Failure
                (u "Missing required fields: projectId, path, content")
                None |}
     else
       let projectId := text projectId in
       let path := text path in
       (* Save file *)
       let! savedFile := onPg (saveFile projectId path content language) in
       (* Update vector DB *)
       do! onChroma (upsertFiles now projectId
                       [ {| fi_path := path;
                            fi_content := content;
                            fi_language := language |} ]) in
       ret {| status := 200; body := Success savedFile |})
    (fun error =>
       ret {| status := 500;
              body := Failure (u "Failed to update file") (Some error) |}).

(** The handler of [router.delete('/:projectId/*', ...)]; no other route
    takes a [DELETE], so the [filePath] may be empty. *)
Definition delete_file (projectId filePath : list N) : M World Response :=
  tryCatch
    (match filePath with
     | [] =>
         ret {| status := 400;
                body := Failure (u "File path is required") None |}
     | _ :: _ =>
         (* Delete file *)
         let! deletedFile := onPg (deleteFile projectId filePath) in
         (* Remove from vector DB *)
         do! onChroma (deleteFiles projectId [filePath]) in
         ret {| status := 200; body := Success deletedFile |}
     end)
    (fun error =>
       if saysNotFound error then
         ret {| status := 404;
                body := Failure (u "File not found") (Some error) |}
       else
         ret {| status := 500;
                body := Failure (u "Failed to delete file") (Some error) |}).

(** The answer of a route whose success body is not a single file. *)
Inductive Reply (A : Type) : Type :=
| Sent (payload : A)                            (* {success: true, ...} *)
| Refused (error : list N) (details : option (list N)).
Arguments Sent {A} payload.
Arguments Refused {A} error details.

Record Answer (A : Type) := {
  ans_status : nat;
  ans_body : Reply A
}.
Arguments ans_status {A} _.
Arguments ans_body {A} _.

(** [{files: savedFiles, count: savedFiles.length}] *)
Record Batch := {
  batch_files : list FileRow;
  batch_count : nat
}.

(** [router.post('/batch', ...)] on the body [{projectId, files}]; a
    [files] that is no array is [None], and the elements of an array are
    taken to be objects with a string [path]. *)
Definition post_batch (now : nat -> N) (projectId : value)
           (files : option (list FileInput)) : M World (Answer Batch) :=
  tryCatch
    (match files with
     | Some files =>
         if falsy projectId then
           ret {| ans_status := 400;
                  ans_body := Refused
                    (u "Missing required fields: projectId, files (array)")
                    None |}
         else
           let projectId := text projectId in
           (* Save all files *)
           let! savedFiles := onPg (saveFiles projectId files) in
           (* Update vector DB *)
           do! onChroma (upsertFiles now projectId files) in
           ret {| ans_status := 200;
                  ans_body := Sent {| batch_files := savedFiles;
                                      batch_count := length savedFiles |} |}
     | None =>
         ret {| ans_status := 400;
                ans_body := Refused
                  (u "Missing required fields: projectId, files (array)")
                  None |}
     end)
    (fun error =>
       ret {| ans_status := 500;
              ans_body := Refused (u "Failed to batch update files")
                                  (Some error) |}).

Section Search.
Variable localeCompare : list N -> list N -> Z.

(** [router.post('/search', ...)] on the body [{projectId, query, limit}];
    [limit] is [None] when the body has none, and then 5. *)
Definition post_search (projectId query : value) (limit : option nat)
  : M World (Answer Retrieved) :=
  tryCatch
    (let limit := default 5 limit in
     if falsy projectId || falsy query then
       ret {| ans_status := 400;
              ans_body := Refused
                (u "Missing required fields: projectId, query") None |}
     else
       let! results := onChroma (queryRelevantFiles localeCompare
                                   (text projectId) (text query) limit) in
       ret {| ans_status := 200;
              ans_body := Sent {| r_files := r_files results;
                                  r_structure := r_structure results |} |})
    (fun error =>
       ret {| ans_status := 500;
              ans_body := Refused (u "Failed to search files") (Some error) |}).
End Search.

End Routes.
Import Routes.

(** ** Sending a message ([anythingllm.service.js]) *)

Module AnythingLLM.

(** The body of the request, before [JSON.stringify]. *)
Record ChatBody := {
  cb_message : list N;
  cb_mode : list N;
  cb_model : list N
}.

(** The call [fetch(url, {method: 'POST', headers, body})]. *)
Record Request := {
  req_url : list N;
  req_authorization : list N;
  req_body : ChatBody
}.

(** What [response.json()] gives: [textResponse] is the only field the
    service reads; [otherFields] stands for the others. *)
Record Data := {
  textResponse : value;
  otherFields : list N
}.

(** The response of [fetch]: [ok], [status], and what [text()] and [json()]
    resolve to or reject with. *)
Record HttpResponse := {
  ok : bool;
  httpStatus : N;
  bodyText : result (list N);
  bodyJson : result Data
}.

(** The [options] of [sendMessage]; a [contextSize] that is not given is
    [None]. *)
Record Options := {
  opt_contextSize : option nat;
  opt_mode : value
}.

(** What [sendMessage] returns. *)
Record ChatReply := {
  reply_message : list N;
  generatedFiles : list GeneratedFile;
  reply_thinking : option (list N);
  rawResponse : Data
}.

(** [await] on a promise that resolves or rejects, the store left alone. *)
Definition await {S A} (r : result A) : M S A := fun s => (r, s).

(** [`${n}`] for a natural number. *)
Definition decimalOf (n : N) : list N :=
  u (DecimalString.NilZero.string_of_uint (N.to_uint n)).

(** [x || 5] on a number that may be missing. *)
Definition orFive (x : option nat) : nat :=
  match x with
  | Some (S n) => S n
  | _ => 5
  end.

Section SendMessage.
Variable localeCompare : list N -> list N -> Z.
(** [this.baseURL], [this.apiKey], and the endpoint behind [fetch]. *)
Variables baseURL apiKey : list N.
Variable fetch : Request -> result HttpResponse.

(** [sendMessage(projectId, message, options)]; the value is [None] only if
    the loop of [parseClaudeResponse] ran out of fuel. *)
Definition sendMessage (projectId message : list N) (options : Options)
  : M Chroma (option ChatReply) :=
  tryCatch
    ((* 1. Retrieve relevant context from vector DB *)
     let! relevantContext :=
       queryRelevantFiles localeCompare projectId message
                          (orFive (opt_contextSize options)) in
     (* 2. Build enriched prompt with context *)
     let enrichedPrompt :=
       buildEnrichedPrompt message
         {| ctx_files := r_files relevantContext;
            ctx_structure := r_structure relevantContext |}
         (opt_mode options) in
     (* 3. Send to AnythingLLM (which uses Claude) *)
     let! response :=
       await (fetch
                {| req_url := baseURL ++ u "/api/v1/workspace/" ++ projectId
                              ++ u "/chat";
                   req_authorization := u "Bearer " ++ apiKey;
                   req_body :=
                     {| cb_message := enrichedPrompt;
                        cb_mode := orDefault (opt_mode options) (u "chat");
                        cb_model := u "claude-sonnet-4-20250514" |} |}) in
     if negb (ok response) then
       let! errorText := await (bodyText response) in
       throw (u "AnythingLLM API error: " ++ decimalOf (httpStatus response)
              ++ u " - " ++ errorText)
     else
       let! data := await (bodyJson response) in
       (* 4. Parse response to extract generated files *)
       match parseClaudeResponse (orDefault (textResponse data) []) with
       | Some parsedResponse =>
           ret (Some {| reply_message := Parser.message parsedResponse;
                        generatedFiles := files parsedResponse;
                        reply_thinking := thinking parsedResponse;
                        rawResponse := data |})
       | None => ret None
       end)
    (fun error => throw error).
End SendMessage.

End AnythingLLM.
Import AnythingLLM.


(** ** Vocabulary of the statements *)

Module Claims.

(** A greedy run of a class stops in front of [rest]. *)
Definition stops (c : N -> bool) (rest : list N) : Prop :=
  match rest with
  | x :: _ => c x = false
  | [] => True
  end.

(** [t] is [s] trimmed: [s] without the white space it starts and ends
    with, so [t] itself neither starts nor ends with white space. *)
Definition trimmedOf (s t : list N) : Prop :=
  exists a b,
    s = a ++ t ++ b
    /\ Forall (fun c => isWhiteSpace c = true) a
    /\ Forall (fun c => isWhiteSpace c = true) b
    /\ (forall c, head t = Some c -> isWhiteSpace c = false)
    /\ (forall c, last t = Some c -> isWhiteSpace c = false).

(** C2, as the specification states it: within a project, distinct paths
    get distinct identifiers. *)
Definition fileId_collision_free : Prop :=
  forall projectId x y : list N,
    x ≠ y -> fileId projectId x ≠ fileId projectId y.

(** A file block as the prompt asks for it:
    [<file path="PATH" language="LANG">CONTENT</file>], with the white
    space [ws1] and [ws2] in front of the two attributes. *)
Record Block := {
  b_ws1 : list N;
  b_path : list N;
  b_ws2 : list N;
  b_language : list N;
  b_content : list N
}.

Definition openTag (ws1 path ws2 language : list N) : list N :=
  u "<file" ++ ws1 ++ (u "path=" ++ [dq]) ++ path ++ [dq] ++ ws2
  ++ (u "language=" ++ [dq]) ++ language ++ dq :: u ">".

Definition blockText (b : Block) : list N :=
  openTag (b_ws1 b) (b_path b) (b_ws2 b) (b_language b)
  ++ b_content b ++ u "</file>".

Definition nonEmpty (s : list N) : bool :=
  match s with [] => false | _ :: _ => true end.

(** A block is well formed when its white space is white space, its
    attribute values are non-empty and hold no double quote, and its content
    holds no closing tag. *)
Definition wellFormed (b : Block) : bool :=
  nonEmpty (b_ws1 b) && forallb isWhiteSpace (b_ws1 b)
  && nonEmpty (b_path b) && forallb notQuote (b_path b)
  && nonEmpty (b_ws2 b) && forallb isWhiteSpace (b_ws2 b)
  && nonEmpty (b_language b) && forallb notQuote (b_language b)
  && bool_decide (indexOf (u "</file>") (b_content b ++ u "</file>")
                  = Some (length (b_content b))).

(** The file the parser is to return for a block. *)
Definition fileOfBlock (b : Block) : GeneratedFile :=
  {| path := trim (b_path b);
     language := trim (b_language b);
     content := trim (b_content b) |}.

(** A raw text made of the blocks [bts], each followed by its text, after
    the leading text [t0]; and the text outside the blocks. *)
Definition interleave (t0 : list N) (bts : list (Block * list N)) : list N :=
  t0 ++ concat (map (fun bt => blockText (fst bt) ++ snd bt) bts).

Definition outside (t0 : list N) (bts : list (Block * list N)) : list N :=
  t0 ++ concat (map snd bts).

(** C1, as the specification states it: a raw text that holds N well-formed
    blocks yields their N files in order, and a message that holds none of
    the blocks. *)
Definition parse_strips_every_block : Prop :=
  forall (t0 : list N) (bts : list (Block * list N)),
    forallb wellFormed (map fst bts) = true ->
    exists r,
      parseClaudeResponse (interleave t0 bts) = Some r
      /\ files r = map fileOfBlock (map fst bts)
      /\ forall b, b ∈ map fst bts -> includes (blockText b) (message r) = false.

(** The content of the first [<thinking>...</thinking>] block of a text:
    what lies between the first opening tag and the first closing tag after
    it. *)
Definition firstThinking (text : list N) : option (list N) :=
  match indexOf (u "<thinking>") text with
  | None => None
  | Some i =>
      let after := drop (i + length (u "<thinking>")) text in
      match indexOf (u "</thinking>") after with
      | None => None
      | Some j => Some (take j after)
      end
  end.

(** Collapsing the runs of newlines, in the words of the specification:
    of a run of three or more newlines two are kept.  [seen] counts the
    newlines of the current run that were kept so far. *)
Fixpoint collapseRuns (s : list N) (seen : nat) : list N :=
  match s with
  | [] => []
  | c :: s' =>
      if isNewline c then
        if 2 <=? seen then collapseRuns s' seen
        else c :: collapseRuns s' (S seen)
      else c :: collapseRuns s' 0
  end.

(** The number of newlines a text starts with. *)
Fixpoint leadingNewlines (s : list N) : nat :=
  match s with
  | c :: s' => if isNewline c then S (leadingNewlines s') else 0
  | [] => 0
  end.

(** An opening tag as the file pattern reads it: white space in front of
    each attribute, and two values that are not empty and hold no double
    quote. *)
Definition wellFormedTag (ws1 path ws2 language : list N) : bool :=
  nonEmpty ws1 && forallb isWhiteSpace ws1
  && nonEmpty path && forallb notQuote path
  && nonEmpty ws2 && forallb isWhiteSpace ws2
  && nonEmpty language && forallb notQuote language.

(** At position [j] the text [raw] has an opening tag, and [rest] is what
    follows the tag. *)
Definition opensAt (raw : list N) (j : nat) (rest : list N) : Prop :=
  exists ws1 path ws2 language,
    wellFormedTag ws1 path ws2 language = true
    /\ drop j raw = openTag ws1 path ws2 language ++ rest.

(** Every opening tag of the text is unclosed: no closing tag [</file>]
    comes anywhere after it. *)
Definition everyTagUnclosed (raw : list N) : Prop :=
  forall j rest, opensAt raw j rest -> includes (u "</file>") rest = false.

(** The message of a text from which nothing was cut out: the thinking
    blocks removed, two newlines kept of every run of three or more, and
    trimmed. *)
Definition cleanedOf (raw message : list N) : Prop :=
  trimmedOf (collapseRuns (replaceAll thinkingBlockRegex [] raw) 0) message.

(** C5, as the specification states it: a raw text that holds an unclosed
    tag, an opening tag that no [</file>] follows, yields no file, and a
    message that is the raw text, cleaned. *)
Definition unclosed_tag_yields_no_file : Prop :=
  forall before ws1 path ws2 language after : list N,
    wellFormedTag ws1 path ws2 language = true ->
    includes (u "</file>") after = false ->
    let raw := before ++ openTag ws1 path ws2 language ++ after in
    exists r,
      parseClaudeResponse raw = Some r
      /\ files r = []
      /\ cleanedOf raw (message r).

(** [s] with one block of double-quoted attributes around [body]. *)
Definition fileTag (path language body : list N) : list N :=
  openTag (u " ") path (u " ") language ++ body ++ u "</file>".

Definition sq : N := 39.       (* the single quote *)

(** The tags C10 speaks of, as the text from the tag on: the attribute
    [language] comes first or [path] is left out; a value is delimited by
    single quotes; [language] is left out. *)
Inductive Malformed : list N -> Prop :=
| language_first (ws rest : list N) :
    Forall (fun x => isWhiteSpace x = true) ws ->
    Malformed (u "<file" ++ ws ++ u "language=" ++ rest)
| no_attribute (ws rest : list N) :
    Forall (fun x => isWhiteSpace x = true) ws ->
    Malformed (u "<file" ++ ws ++ u ">" ++ rest)
| path_single_quoted (ws rest : list N) :
    Forall (fun x => isWhiteSpace x = true) ws ->
    Malformed (u "<file" ++ ws ++ (u "path=" ++ [sq]) ++ rest)
| language_single_quoted (ws p ws2 rest : list N) :
    Forall (fun x => isWhiteSpace x = true) ws ->
    Forall (fun x => notQuote x = true) p ->
    Forall (fun x => isWhiteSpace x = true) ws2 ->
    Malformed (u "<file" ++ ws ++ (u "path=" ++ [dq]) ++ p ++ [dq] ++ ws2
               ++ (u "language=" ++ [sq]) ++ rest)
| language_omitted (ws p ws2 rest : list N) :
    Forall (fun x => isWhiteSpace x = true) ws ->
    Forall (fun x => notQuote x = true) p ->
    Forall (fun x => isWhiteSpace x = true) ws2 ->
    Malformed (u "<file" ++ ws ++ (u "path=" ++ [dq]) ++ p ++ [dq] ++ ws2
               ++ u ">" ++ rest).

(** The sections of the prompt, as the specification lists them. *)
Definition header : list N := u "# Project Context" ++ [nl; nl].

(** The tag of the fenced block of a file: its language, and [text] for a
    file that has none. *)
Definition languageTag (language : value) : list N :=
  match language with
  | VStr [] | VNull | VUndefined => u "text"
  | VStr l => l
  end.

Definition fence : list N := [96; 96; 96]%N.      (* three backticks *)

Definition fileSection (file : ContextFile) : list N :=
  u "### " ++ cf_path file ++ [nl]
  ++ fence ++ languageTag (cf_language file) ++ [nl]
  ++ cf_content file ++ [nl]
  ++ fence ++ [nl; nl].

Definition filesSection (files : list ContextFile) : list N :=
  match files with
  | [] => []
  | _ :: _ => u "## Relevant Files:" ++ [nl; nl] ++ concat (map fileSection files)
  end.

Definition structureSection (structure : list N) : list N :=
  match structure with
  | [] => []
  | _ :: _ =>
      u "## Project Structure:" ++ [nl] ++ fence ++ [nl]
      ++ structure ++ [nl] ++ fence ++ [nl; nl]
  end.

(** A text given by its lines, each ended by a newline. *)
Definition lines (ls : list (list N)) : list N :=
  concat (map (fun l => l ++ [nl]) ls).

(** The fixed instructions on how the files of an answer are to be
    tagged. *)
Definition fixedInstructions : list N :=
  lines
    [ u "# Instructions";
      [];
      u "You are helping develop a software project. When generating code:";
      u "1. Generate complete, production-ready code";
      u "2. Follow the existing project structure and conventions";
      u "3. Include all necessary imports and dependencies";
      u "4. Wrap each file in XML tags with path and language:";
      [];
      openTag (u " ") (u "src/components/Button.jsx") (u " ") (u "javascript");
      u "// file content here";
      u "</file>";
      [];
      u "5. You can generate multiple files in one response";
      u "6. Make sure code is ready to run without modifications";
      [] ].

Definition modeGuidance (mode : value) : list N :=
  if bool_decide (mode = VStr (u "refactor")) then
    u "Focus on refactoring existing code while maintaining functionality."
    ++ [nl; nl]
  else if bool_decide (mode = VStr (u "test")) then
    u "Generate comprehensive tests for the code." ++ [nl; nl]
  else [].

Definition userRequest (userMessage : list N) : list N :=
  u "# User Request" ++ [nl; nl] ++ userMessage.

(** [a] may be listed before [b] in the outline: a directory before a
    file, and otherwise the name of [a] not after the name of [b]. *)
Definition listedBefore (localeCompare : list N -> list N -> Z)
           (a b : list N * option jsobj) : Prop :=
  (isFile (snd a) = false /\ isFile (snd b) = true)
  \/ (isFile (snd a) = isFile (snd b)
      /\ (localeCompare (fst a) (fst b) <= 0)%Z).

(** The lines of one entry of the outline: its own line, then the lines of
    what it holds, two spaces deeper. *)
Definition entryLines (localeCompare : list N -> list N -> Z)
           (indent : list N) (e : list N * option jsobj) : list N :=
  indent ++ (if isFile (snd e) then fileIcon else folderIcon) ++ u " "
  ++ fst e ++ [nl]
  ++ match snd e with
     | Some sub => treeToString localeCompare sub (indent ++ u "  ")
     | None => []
     end.

(** What [treeToString] attaches to an entry before it sorts. *)
Definition withSub (localeCompare : list N -> list N -> Z)
           (e : list N * option jsobj)
  : list N * (option jsobj * (list N -> list N)) :=
  (fst e,
   (snd e,
    match snd e with
    | Some sub => treeToString localeCompare sub
    | None => fun _ => []
    end)).

(** The store once [client.getOrCreateCollection] has answered. *)
Definition ensure (name : list N) (c : Chroma) : Chroma :=
  match collections c !! name with
  | Some _ => c
  | None => withCollections (insert name ∅) c
  end.

(** The store answers every call. *)
Definition alwaysUp (c : Chroma) : Prop := forall i, down c i = None.

(** The index of a project: the entries of its collection, none when the
    collection does not exist. *)
Definition projectIndex (projectId : list N) (c : Chroma)
  : gmap (list N) Entry :=
  default ∅ (collections c !! collectionName projectId).

(** Every entry sits under the identifier of its own path: what holds of an
    index that only [upsertFiles] and [deleteFiles] wrote. *)
Definition keyed (projectId : list N) (col : gmap (list N) Entry) : Prop :=
  forall id e, col !! id = Some e ->
               id = fileId projectId (md_path (metadata e)).

(** The entry [upsertFiles] writes for a file at time [now]. *)
Definition entryOf (now : N) (f : FileInput) : Entry :=
  {| document := orDefault (fi_content f) [];
     metadata := {| md_path := fi_path f;
                    md_language := orDefault (fi_language f) (u "text");
                    md_lastModified := now |} |}.

(** C3, as the specification states it: when the store cannot be reached or
    the project has no index yet, retrieval returns [{files: [],
    structure: ''}]. *)
Definition retrieval_empty_without_index : Prop :=
  forall (localeCompare : list N -> list N -> Z) (projectId query : list N)
         (topK : nat) (c : Chroma),
    (exists e, down c (calls c) = Some e)
    \/ collections c !! collectionName projectId = None ->
    fst (queryRelevantFiles localeCompare projectId query topK c)
    = Ok {| r_files := []; r_structure := [] |}.

(** A store that answers, and holds nothing yet. *)
Definition emptyStore : Chroma :=
  {| calls := 0; down := fun _ => None; collections := ∅;
     nearest := fun _ _ => [] |}.

(** A store that cannot be reached. *)
Definition unreachableStore : Chroma :=
  {| calls := 0; down := fun _ => Some (u "ECONNREFUSED"); collections := ∅;
     nearest := fun _ _ => [] |}.

(** The rows [upsertFiles] hands to the store for its [files]: the file at
    position [idx], counted from [start], under its identifier. *)
Definition rowsOf (now : nat -> N) (projectId : list N) (start : nat)
           (files : list FileInput) : list (list N * Entry) :=
  imap (fun idx f => (fileId projectId (fi_path f), entryOf (now (start + idx)) f))
       files.

(** A world with one file, [a.js] of project [p1], and an empty index. *)
Definition oneFileWorld : World :=
  {| pg := {| pg_calls := 0; pg_down := fun _ => None;
              rows := {[ (u "p1", u "a.js") :=
                           {| row_project_id := u "p1"; row_path := u "a.js";
                              row_content := VStr (u "let a;");
                              row_language := VStr (u "javascript") |} ]} |};
     chroma := emptyStore |}.

(** The database answers every request: no connection fails and no
    statement is rejected. *)
Definition pgAlwaysUp (db : Postgres) : Prop := forall i, pg_down db i = None.

End Claims.
Import Claims.

(** ** Vocabulary of the further properties *)

Module Properties.

(** A string that neither starts nor ends with white space: what
    [String.prototype.trim] returns. *)
Definition tidy (s : list N) : Prop :=
  (forall c, head s = Some c -> isWhiteSpace c = false)
  /\ (forall c, last s = Some c -> isWhiteSpace c = false).

(** A file as the parser returns it. *)
Definition sampleFile : GeneratedFile :=
  {| path := u "a.js"; language := u "js"; content := u "let a;" |}.

(** A computation that takes every store to one related to it by [P],
    whether it returns or throws. *)
Definition preserves {S A} (P : S -> S -> Prop) (m : M S A) : Prop :=
  forall s, P s (snd (m s)).

(** The second store holds, for every project, the entries the first one
    holds. *)
Definition sameIndexes (c c' : Chroma) : Prop :=
  forall q, projectIndex q c' = projectIndex q c.

(** The two stores agree on every collection but [name]. *)
Definition sameElsewhere (name : list N) (c c' : Chroma) : Prop :=
  forall other, other ≠ name -> collections c' !! other = collections c !! other.

(** The file of the context that [queryRelevantFiles] makes of an entry of
    the index found at distance [d]. *)
Definition contextFileOf (hit : Entry * float) : ContextFile :=
  {| cf_path := md_path (metadata (fst hit));
     cf_language := VStr (md_language (metadata (fst hit)));
     cf_content := document (fst hit);
     cf_score := orZero (Some (snd hit)) |}.

(** A store that answers and holds the index of the project [p2]: one
    entry, for [a.js]; its search ranks every entry at distance 0. *)
Definition sampleEntry : Entry :=
  {| document := u "let a;";
     metadata := {| md_path := u "a.js"; md_language := u "js";
                    md_lastModified := 0 |} |}.

Definition sampleStore : Chroma :=
  {| calls := 0; down := fun _ => None;
     collections :=
       {[ collectionName (u "p2") :=
            {[ fileId (u "p2") (u "a.js") := sampleEntry ]} ]};
     nearest := fun _ col => map (fun row => (fst row, 0%float)) (map_to_list col) |}.

(** A value that may be missing, as a text: the string itself, and [d] for
    the empty string, [null] and [undefined]. *)
Definition textOr (d : list N) (x : value) : list N :=
  match x with
  | VStr [] | VNull | VUndefined => d
  | VStr s => s
  end.

(** The entry of the index for a file indexed at the time [now]: its
    content as document, the empty string for a file without content, and
    its path, its language, [text] for a file without language, and the
    time. *)
Definition indexed (now : N) (f : FileInput) : Entry :=
  {| document := textOr [] (fi_content f);
     metadata := {| md_path := fi_path f;
                    md_language := textOr (u "text") (fi_language f);
                    md_lastModified := now |} |}.

(** The row [saveFile] writes for a file of a batch: its language is
    [text] when the file names none, and [NULL] when it names [null]. *)
Definition rowOf (projectId : list N) (f : FileInput) : FileRow :=
  {| row_project_id := projectId; row_path := fi_path f;
     row_content := fi_content f;
     row_language := match fi_language f with
                     | VUndefined => VStr (u "text")
                     | VNull => VNull
                     | VStr l => VStr l
                     end |}.

(** *** Values the database keeps as they are given *)

Definition isHexDigit (c : N) : bool :=
  ((48 <=? c) && (c <=? 57) || (97 <=? c) && (c <=? 102))%N.

(** What is left of [s] after [n] digits [0-9a-f]. *)
Fixpoint hexDigits (n : nat) (s : list N) : option (list N) :=
  match n with
  | O => Some s
  | S n' =>
      match s with
      | c :: s' => if isHexDigit c then hexDigits n' s' else None
      | [] => None
      end
  end.

(** Groups of digits of the given sizes, with a hyphen between them. *)
Fixpoint hexGroups (sizes : list nat) (s : list N) : bool :=
  match sizes with
  | [] => false
  | n :: sizes' =>
      match hexDigits n s, sizes' with
      | Some [], [] => true
      | Some (45%N :: s'), _ :: _ => hexGroups sizes' s'
      | _, _ => false
      end
  end.

(** A project id in the form in which the database prints a UUID: groups of
    8, 4, 4, 4 and 12 digits [0-9a-f] with a hyphen between them. *)
Definition isUuid (s : list N) : bool := hexGroups [8; 4; 4; 4; 12] s.

Definition isHighSurrogate (c : N) : bool := ((55296 <=? c) && (c <=? 56319))%N.
Definition isLowSurrogate (c : N) : bool := ((56320 <=? c) && (c <=? 57343))%N.

(** Every surrogate of the string is half of a pair. *)
Fixpoint wellPaired (s : list N) : bool :=
  match s with
  | [] => true
  | c :: s' =>
      if isHighSurrogate c then
        match s' with
        | d :: s'' => isLowSurrogate d && wellPaired s''
        | [] => false
        end
      else negb (isLowSurrogate c) && wellPaired s'
  end.

(** A text the database keeps as it is given: it holds no NUL and encodes
    to UTF-8 without loss. *)
Definition isText (s : list N) : bool :=
  forallb (fun c => negb (c =? 0)%N) s && wellPaired s.

(** Such a text of at most [n] code units, for a column of [n]
    characters. *)
Definition fits (n : nat) (s : list N) : bool :=
  isText s && (length s <=? n).

(** The values of a file that the columns [path], [content] and [language]
    of the table keep as they are given. *)
Definition storable (path : list N) (content language : value) : Prop :=
  fits 500 path = true
  /\ (forall s, content = VStr s -> isText s = true)
  /\ (forall l, language = VStr l -> fits 50 l = true).

Definition storableFile (f : FileInput) : Prop :=
  storable (fi_path f) (fi_content f) (fi_language f).

(** The message of what went wrong with a connection. *)
Definition pgMessage (error : PgError) : list N :=
  match error with
  | Unreachable message | Rejected message => message
  end.

(** A world with one file, [a.js] of the project [sampleProject], and an
    empty index; the database answers every request. *)
Definition sampleProject : list N := u "123e4567-e89b-42d3-a456-426614174000".

Definition sampleRow : FileRow :=
  {| row_project_id := sampleProject; row_path := u "a.js";
     row_content := VStr (u "let a;");
     row_language := VStr (u "javascript") |}.

Definition sampleWorld : World :=
  {| pg := {| pg_calls := 0; pg_down := fun _ => None;
              rows := {[ (sampleProject, u "a.js") := sampleRow ]} |};
     chroma := emptyStore |}.

(** The table once the files of a batch were saved one after the other. *)
Definition savedRows (projectId : list N) (files : list FileInput)
           (table : gmap (list N * list N) FileRow)
  : gmap (list N * list N) FileRow :=
  fold_left (fun table f => <[(projectId, fi_path f) := rowOf projectId f]> table)
            files table.

(** The content of a file is a string. *)
Definition hasText (f : FileInput) : Prop :=
  exists s, fi_content f = VStr s.

(** A name of one segment: not empty, and without slash. *)
Definition plainName (name : list N) : Prop :=
  name ≠ [] /\ 47%N ∉ name.

(** A tree of [buildTree] is well shaped when every node is a file, without
    children and with the data of its file, or a directory, with children
    and without such data, and no two children of a directory have the same
    name. *)
Fixpoint wellShaped (n : TreeNode) : Prop :=
  match n with
  | Node _ type children fileOf =>
      match children with
      | None => type = TFile /\ is_Some fileOf
      | Some cs =>
          type = TDirectory /\ fileOf = None
          /\ NoDup (map n_name cs)
          /\ (fix all (l : list TreeNode) : Prop :=
                match l with
                | [] => True
                | c :: l' => wellShaped c /\ all l'
                end) cs
      end
  end.

(** The node [buildTree] makes for a file. *)
Definition fileNode (name : list N) (file : FileInfo) : TreeNode :=
  Node name TFile None (Some file).

(** The tree of [buildFileTree] holds the path [parts]: every part but the
    last names a directory, in the directory of the part before, and the
    last one names a directory or a file. *)
Fixpoint hasPath (parts : list (list N)) (tree : jsobj) : Prop :=
  match parts with
  | [] => True
  | part :: rest =>
      match getOwn part (props tree) with
      | Some (Some sub) => hasPath rest sub
      | Some None => rest = []
      | None => False
      end
  end.

(** A path none of whose parts is a name that every object inherits. *)
Definition ordinary (path : list N) : Prop :=
  Forall (fun part => inherited part = false) (pathParts path).

(** A path none of whose parts is inherited in a process in which
    [Object.prototype] holds a truthy value under the names [polluted]. *)
Definition ordinaryIn (polluted : list N -> bool) (path : list N) : Prop :=
  Forall (fun part => inherited part || polluted part = false) (pathParts path).

(** The names of the paths: all their parts. *)
Definition namesOf (paths : list (list N)) : list (list N) :=
  concat (map pathParts paths).

(** Every name of the tree, at every depth, is one of [names]. *)
Fixpoint namedIn (names : list (list N)) (tree : jsobj) : Prop :=
  match tree with
  | Obj ps =>
      (fix all (l : list (list N * option jsobj)) : Prop :=
         match l with
         | [] => True
         | (k, Some sub) :: l' => k ∈ names /\ namedIn names sub /\ all l'
         | (k, None) :: l' => k ∈ names /\ all l'
         end) ps
  end.

(** What a tree of [buildFileTree] holds at a path: a file, a directory, or
    nothing. *)
Inductive Kind : Type :=
| KFile
| KDirectory.

Fixpoint kindAt (tree : jsobj) (path : list (list N)) : option Kind :=
  match path with
  | [] => Some KDirectory
  | part :: rest =>
      match getOwn part (props tree) with
      | Some (Some sub) => kindAt sub rest
      | Some None => match rest with [] => Some KFile | _ :: _ => None end
      | None => None
      end
  end.

(** What the tree holds at [path] once the path [parts] was walked, from
    what it held before: a directory at every part in front of the last, at
    the last part what was there if it was a directory and a file if not,
    and elsewhere what was there. *)
Fixpoint walked (parts : list (list N)) (held : list (list N) -> option Kind)
         (path : list (list N)) : option Kind :=
  match parts with
  | [] =>
      match path with
      | [] => match held [] with
              | Some KDirectory => Some KDirectory
              | _ => Some KFile
              end
      | _ :: _ => held path
      end
  | part :: rest =>
      match path with
      | [] => Some KDirectory
      | k :: path' =>
          if decide (k = part)
          then walked rest (fun x => held (part :: x)) path'
          else held path
      end
  end.

(** No object of the tree has two properties of one name. *)
Fixpoint wellKeyed (tree : jsobj) : Prop :=
  match tree with
  | Obj ps =>
      NoDup (map fst ps)
      /\ (fix all (l : list (list N * option jsobj)) : Prop :=
            match l with
            | [] => True
            | (_, Some sub) :: l' => wellKeyed sub /\ all l'
            | (_, None) :: l' => all l'
            end) ps
  end.

(** An entry of the outline as [treeToString] sorts and prints it: its
    name, whether it is a file, and its lines. *)
Definition rendered (localeCompare : list N -> list N -> Z) (indent : list N)
           (e : list N * option jsobj) : list N * (bool * list N) :=
  (fst e, (isFile (snd e), entryLines localeCompare indent e)).

(** The line of the outline for the last part of a path of [depth] parts
    more than one, below [indent]. *)
Definition outlineLine (indent : list N) (depth : nat) (icon name : list N)
  : list N :=
  indent ++ concat (replicate depth (u "  ")) ++ icon ++ u " " ++ name ++ [nl].

(** The request [sendMessage] makes for a prompt. *)
Definition chatRequest (baseURL apiKey projectId prompt : list N)
           (mode : value) : Request :=
  {| req_url := baseURL ++ u "/api/v1/workspace/" ++ projectId ++ u "/chat";
     req_authorization := u "Bearer " ++ apiKey;
     req_body := {| cb_message := prompt;
                    cb_mode := textOr (u "chat") mode;
                    cb_model := u "claude-sonnet-4-20250514" |} |}.

(** What [sendMessage] returns for the text of an answer. *)
Definition replyOf (parsed : ParsedResponse) (data : Data) : ChatReply :=
  {| reply_message := message parsed;
     generatedFiles := files parsed;
     reply_thinking := thinking parsed;
     rawResponse := data |}.

(** An endpoint that answers every request with one file. *)
Definition sampleData : Data :=
  {| textResponse :=
       VStr (u "Done. " ++ fileTag (u "a.js") (u "js") (u "let a;"));
     otherFields := [] |}.

Definition sampleAnswer : HttpResponse :=
  {| ok := true; httpStatus := 200;
     bodyText := Ok [];
     bodyJson := Ok sampleData |}.

(** An endpoint that answers with that file the request of the project
    [p1] for the mode [refactor], sent to its address with its key, and no
    other request. *)
Definition sampleEndpoint (request : Request) : result HttpResponse :=
  if bool_decide
       (req_url request = u "http://localhost:3001/api/v1/workspace/p1/chat"
        /\ req_authorization request = u "Bearer key"
        /\ cb_mode (req_body request) = u "refactor"
        /\ cb_model (req_body request) = u "claude-sonnet-4-20250514")
  then Ok sampleAnswer
  else Throw (u "fetch failed").

(** An endpoint that refuses every request. *)
Definition sampleRefusal : HttpResponse :=
  {| ok := false; httpStatus := 503;
     bodyText := Ok (u "busy");
     bodyJson := Throw (u "Unexpected token") |}.

End Properties.
Import Properties.


(** * Properties *)

(** ** Strings *)

Lemma startsWith_prefix (p s : list N) :
  startsWith p s = true <-> exists t, s = p ++ t.
Proof.
  revert s; induction p as [|a p IH]; intros s; simpl.
  - split; [intros _; by exists s | done].
  - destruct s as [|b s]; simpl.
    + split; [done | intros [t Ht]; discriminate].
    + rewrite andb_true_iff, N.eqb_eq, IH. split.
      * intros [-> [t ->]]. by exists t.
      * intros [t Ht]. injection Ht as -> ->. eauto.
Qed.

Lemma startsWith_app (p t : list N) : startsWith p (p ++ t) = true.
Proof. apply startsWith_prefix. by exists t. Qed.


Lemma replaceUnit_inj (a b : N) (x y : list N) :
  b ∉ x -> b ∉ y -> replaceUnit a b x = replaceUnit a b y -> x = y.
Proof.
  unfold replaceUnit. revert y.
  induction x as [|c x IH]; intros [|d y] Hx Hy Heq; simpl in Heq;
    try done.
  injection Heq as Hcd Heq.
  apply not_elem_of_cons in Hx as [Hc Hx].
  apply not_elem_of_cons in Hy as [Hd Hy].
  f_equal; [|by apply IH].
  destruct (N.eqb_spec c a), (N.eqb_spec d a); congruence.
Qed.

(** ** Identifiers of index entries *)

Lemma fileId_eq_iff (projectId x y : list N) :
  fileId projectId x = fileId projectId y
  <-> replaceUnit 47 95 x = replaceUnit 47 95 y.
Proof.
  unfold fileId. split; [|by intros ->].
  intros H. by apply app_inv_head in H; apply app_inv_head in H.
Qed.

(** C2, counterexample: in project [p] the paths [a/b] and [a_b] are
    distinct and get the same identifier [p_a_b]. *)
Lemma fileId_collision : ~ fileId_collision_free.
Proof.
  intros H. by apply (H (u "p") (u "a/b") (u "a_b")).
Qed.

(** C2, amended: two paths of a project get the same identifier exactly when
    they agree once every [/] is replaced by [_]; so distinct paths that
    hold no [_] get distinct identifiers. *)
Theorem fileId_injective_without_underscore (projectId x y : list N) :
  (fileId projectId x = fileId projectId y
   <-> replaceUnit 47 95 x = replaceUnit 47 95 y)
  /\ (95%N ∉ x -> 95%N ∉ y -> x ≠ y ->
      fileId projectId x ≠ fileId projectId y).
Proof.
  split; [apply fileId_eq_iff|].
  intros Hx Hy Hne Heq. apply Hne.
  apply fileId_eq_iff in Heq. by apply (replaceUnit_inj 47 95).
Qed.

Lemma fileId_injective_without_underscore_witness :
  fileId (u "p") (u "src/a.js") ≠ fileId (u "p") (u "src/b.js").
Proof.
  apply (fileId_injective_without_underscore (u "p") (u "src/a.js") (u "src/b.js")).
  - vm_compute. intros H. repeat (apply elem_of_cons in H as [H|H]; [discriminate|]).
    by apply elem_of_nil in H.
  - vm_compute. intros H. repeat (apply elem_of_cons in H as [H|H]; [discriminate|]).
    by apply elem_of_nil in H.
  - discriminate.
Defined.

Lemma indexOf_eq (p s : list N) :
  indexOf p s =
  if startsWith p s then Some 0
  else match s with
       | [] => None
       | _ :: s' => option_map S (indexOf p s')
       end.
Proof. by destruct s. Qed.

Lemma indexOf_Some (p s : list N) (i : nat) :
  indexOf p s = Some i ->
  i <= length s /\ startsWith p (drop i s) = true
  /\ forall j, j < i -> startsWith p (drop j s) = false.
Proof.
  revert i; induction s as [|c s IH]; intros i; simpl.
  - destruct (startsWith p []) eqn:E; [|done].
    intros [= <-]. split; [done|]. split; [done|]. intros j Hj; lia.
  - destruct (startsWith p (c :: s)) eqn:E.
    + intros [= <-]. split; [lia|]. split; [done|]. intros j Hj; lia.
    + destruct (indexOf p s) as [i'|]; [|done]. simpl. intros [= <-].
      destruct (IH i' eq_refl) as (Hle & Hat & Hbefore).
      split; [lia|]. split; [done|].
      intros [|j] Hj; [done|]. apply Hbefore. lia.
Qed.

Lemma indexOf_None (p s : list N) :
  indexOf p s = None -> forall j, startsWith p (drop j s) = false.
Proof.
  induction s as [|c s IH]; simpl.
  - destruct (startsWith p []) eqn:E; [done|]. intros _ j. by rewrite drop_nil.
  - destruct (startsWith p (c :: s)) eqn:E; [done|].
    destruct (indexOf p s); [done|]. intros _ [|j]; [done|]. by apply IH.
Qed.

Lemma indexOf_first (p s : list N) (i : nat) :
  startsWith p (drop i s) = true ->
  (forall j, j < i -> startsWith p (drop j s) = false) ->
  i <= length s ->
  indexOf p s = Some i.
Proof.
  revert i; induction s as [|c s IH]; intros i Hat Hbefore Hle; simpl.
  - destruct i; [|simpl in Hle; lia]. simpl in Hat. by rewrite Hat.
  - destruct i as [|i].
    + simpl in Hat. by rewrite Hat.
    + pose proof (Hbefore 0 ltac:(lia)) as H0. simpl in H0. rewrite H0.
      simpl in Hat, Hle.
      rewrite (IH i); [done|done| |lia].
      intros j Hj. apply (Hbefore (S j)). lia.
Qed.

Lemma includes_spec (p s : list N) :
  includes p s = true <-> exists a b, s = a ++ p ++ b.
Proof.
  unfold includes. split.
  - destruct (indexOf p s) as [i|] eqn:E; [|done]. intros _.
    apply indexOf_Some in E as (_ & [t Ht]%startsWith_prefix & _).
    exists (take i s), t. by rewrite <- Ht, take_drop.
  - intros (a & b & ->).
    destruct (indexOf p (a ++ p ++ b)) eqn:E; [done|].
    apply indexOf_None with (j := length a) in E.
    by rewrite drop_app_length, startsWith_app in E.
Qed.

Lemma includes_false_drop (p s : list N) (j : nat) :
  includes p s = false -> startsWith p (drop j s) = false.
Proof.
  unfold includes. destruct (indexOf p s) eqn:E; [done|].
  intros _. by apply indexOf_None.
Qed.

Lemma includes_false_app_l (p a b : list N) :
  includes p (a ++ b) = false -> includes p a = false.
Proof.
  intros H. apply not_true_is_false. intros (x & y & ->)%includes_spec.
  apply not_true_iff_false in H. apply H, includes_spec.
  exists x, (y ++ b). by rewrite <- !app_assoc.
Qed.

Lemma includes_false_app_r (p a b : list N) :
  includes p (a ++ b) = false -> includes p b = false.
Proof.
  intros H. apply not_true_is_false. intros (x & y & ->)%includes_spec.
  apply not_true_iff_false in H. apply H, includes_spec.
  exists (a ++ x), y. by rewrite <- !app_assoc.
Qed.

Lemma replaceFirst_eq (s p r : list N) :
  replaceFirst s p r =
  if startsWith p s then r ++ drop (length p) s
  else match s with
       | [] => []
       | c :: s' => c :: replaceFirst s' p r
       end.
Proof. by destruct s. Qed.

Lemma replaceFirst_at (a p b r : list N) :
  (forall j, j < length a -> startsWith p (drop j (a ++ p ++ b)) = false) ->
  replaceFirst (a ++ p ++ b) p r = a ++ r ++ b.
Proof.
  induction a as [|c a IH]; intros Hbefore; simpl.
  - by rewrite replaceFirst_eq, startsWith_app, drop_app_length.
  - pose proof (Hbefore 0 ltac:(simpl; lia)) as H0. simpl in H0. rewrite H0.
    f_equal. apply IH.
    intros j Hj. apply (Hbefore (S j)). simpl. lia.
Qed.


(** ** The matcher *)

Lemma greedy_hit {R} (min : nat) (c : N -> bool) (run rest : list N)
      (k : list N -> option R) (r : R) :
  Forall (fun x => c x = true) run -> stops c rest ->
  min <= length run -> k rest = Some r ->
  greedy min c (run ++ rest) k = Some r.
Proof.
  intros Hrun Hstop. revert min.
  induction Hrun as [|a run Ha _ IH]; intros min Hmin Hk; simpl in *.
  - assert (min = 0) as -> by lia.
    destruct rest as [|x rest]; [done|]. simpl in *. by rewrite Hstop.
  - rewrite Ha, IH; [done|lia|done].
Qed.

Lemma greedy_none {R} (min : nat) (c : N -> bool) (run rest : list N)
      (k : list N -> option R) :
  Forall (fun x => c x = true) run -> stops c rest ->
  (forall j, j <= length run -> k (drop j run ++ rest) = None) ->
  greedy min c (run ++ rest) k = None.
Proof.
  intros Hrun Hstop. revert min.
  induction Hrun as [|a run Ha _ IH]; intros min Hk; simpl in *.
  - specialize (Hk 0 (Nat.le_refl _)). simpl in Hk.
    destruct rest as [|x rest]; [by destruct min|].
    simpl in *. rewrite Hstop. by destruct min.
  - rewrite Ha, IH.
    + destruct min; [|done]. apply (Hk 0). lia.
    + intros j Hj. apply (Hk (S j)). lia.
Qed.

Lemma greedy_suffix {R} (min : nat) (c : N -> bool) (s : list N)
      (k : list N -> option R) (r : R) :
  greedy min c s k = Some r ->
  exists rest, rest `suffix_of` s /\ min + length rest <= length s
               /\ k rest = Some r.
Proof.
  revert min; induction s as [|x s IH]; intros min; simpl.
  - destruct min; [|done]. intros H. exists []. by repeat split.
  - destruct (c x).
    + destruct (greedy (pred min) c s k) as [r'|] eqn:E.
      * intros [= ->]. destruct (IH _ E) as (rest & Hsuf & Hlen & Hk).
        exists rest. split; [by apply suffix_cons_r|]. split; [simpl; lia|done].
      * destruct min; [|done]. intros H. exists (x :: s). by repeat split.
    + destruct min; [|done]. intros H. exists (x :: s). by repeat split.
Qed.

(** What a greedy run consumed: code units of the class, at least [min]. *)
Lemma greedy_run {R} (min : nat) (c : N -> bool) (s : list N)
      (k : list N -> option R) (r : R) :
  greedy min c s k = Some r ->
  exists run rest, s = run ++ rest /\ Forall (fun x => c x = true) run
                   /\ min <= length run /\ k rest = Some r.
Proof.
  revert min; induction s as [|x s IH]; intros min; simpl.
  - destruct min; [|done]. intros H. exists [], []. by repeat split.
  - destruct (c x) eqn:Hx.
    + destruct (greedy (pred min) c s k) as [r'|] eqn:E.
      * intros [= ->]. destruct (IH _ E) as (run & rest & -> & Hrun & Hlen & Hk).
        exists (x :: run), rest. split; [done|]. split; [by constructor|].
        split; [simpl; lia|done].
      * destruct min; [|done]. intros H. exists [], (x :: s). by repeat split.
    + destruct min; [|done]. intros H. exists [], (x :: s). by repeat split.
Qed.

Lemma lazy_suffix {R} (c : N -> bool) (s : list N)
      (k : list N -> option R) (r : R) :
  lazy c s k = Some r -> exists rest, rest `suffix_of` s /\ k rest = Some r.
Proof.
  induction s as [|x s IH]; simpl.
  - destruct (k []) eqn:E; [|done]. intros [= ->]. by exists [].
  - destruct (k (x :: s)) eqn:E.
    + intros [= ->]. by exists (x :: s).
    + destruct (c x); [|done]. intros (rest & Hsuf & Hk)%IH.
      exists rest. split; [by apply suffix_cons_r|done].
Qed.

(** [[\s\S]*?] followed by a literal stops at the first occurrence of the
    literal. *)
Lemma lazy_find {R} (p : list N) (f : list N -> R) (s : list N) :
  lazy anyUnit s (fun rest => if startsWith p rest then Some (f rest) else None)
  = option_map (fun j => f (drop j s)) (indexOf p s).
Proof.
  induction s as [|x s IH]; simpl.
  - by destruct (startsWith p []).
  - destruct (startsWith p (x :: s)); [done|].
    rewrite IH. by destruct (indexOf p s).
Qed.

(** Whatever a pattern matches, the rest handed on is a suffix of the
    input. *)
Lemma rmatch_suffix {R} (r : regex) (s : list N) (caps : list (list N))
      (k : list N -> list (list N) -> option R) (x : R) :
  rmatch r s caps k = Some x ->
  exists rest caps', rest `suffix_of` s /\ k rest caps' = Some x.
Proof.
  revert s caps k; induction r as [l|min c|c|r IH|r1 IH1 r2 IH2];
    intros s caps k; simpl.
  - destruct (startsWith l s); [|done]. intros H.
    exists (drop (length l) s), caps. split; [apply suffix_drop|done].
  - intros (rest & Hsuf & _ & Hk)%greedy_suffix. eauto.
  - intros (rest & Hsuf & Hk)%lazy_suffix. eauto.
  - intros (rest & caps' & Hsuf & Hk)%IH. eauto.
  - intros (rest1 & caps1 & Hsuf1 & (rest2 & caps2 & Hsuf2 & Hk)%IH2)%IH1.
    exists rest2, caps2. split; [by etrans|done].
Qed.

(** ** Searching *)

Lemma search_inv (r : regex) (s : list N) (pos : nat) (m : MatchResult) :
  search r s pos = Some m ->
  exists i rest,
    i <= length s /\ index m = pos + i
    /\ matchHere r (drop i s) = Some (rest, groups m)
    /\ fullMatch m = take (length (drop i s) - length rest) (drop i s).
Proof.
  revert pos; induction s as [|c s IH]; intros pos; simpl.
  - destruct (matchHere r []) as [[rest caps]|] eqn:E; [|done].
    intros [= <-]. exists 0, rest. simpl. rewrite Nat.add_0_r.
    split; [lia|]. by repeat split.
  - destruct (matchHere r (c :: s)) as [[rest caps]|] eqn:E.
    + intros [= <-]. exists 0, rest. simpl. rewrite Nat.add_0_r.
      split; [lia|]. by repeat split.
    + intros (i & rest & Hi & Hidx & Hm & Hfull)%IH.
      exists (S i), rest. simpl. split; [lia|]. split; [lia|]. by split.
Qed.

Lemma search_skip (r : regex) (s : list N) (pos i : nat) :
  (forall j, j < i -> matchHere r (drop j s) = None) ->
  i <= length s ->
  search r s pos = search r (drop i s) (pos + i).
Proof.
  revert pos i; induction s as [|c s IH]; intros pos i Hnone Hi.
  - destruct i; [|simpl in Hi; lia]. by rewrite Nat.add_0_r.
  - destruct i as [|i]; [by rewrite Nat.add_0_r|].
    pose proof (Hnone 0 ltac:(lia)) as H0. simpl in H0.
    simpl. rewrite H0. simpl in Hi.
    rewrite (IH (S pos) i); [f_equal; lia| |lia].
    intros j Hj. apply (Hnone (S j)). lia.
Qed.

Lemma search_none (r : regex) (s : list N) (pos : nat) :
  (forall j, matchHere r (drop j s) = None) -> search r s pos = None.
Proof.
  revert pos; induction s as [|c s IH]; intros pos Hnone; simpl.
  - pose proof (Hnone 0) as H0. simpl in H0. by rewrite H0.
  - pose proof (Hnone 0) as H0. simpl in H0. rewrite H0.
    apply IH. intros j. apply (Hnone (S j)).
Qed.

(** ** The file pattern *)

Lemma startsWith_app_long (p x y : list N) :
  length p <= length x -> startsWith p (x ++ y) = startsWith p x.
Proof.
  revert x; induction p as [|a p IH]; intros x Hlen; [done|].
  destruct x as [|b x]; [simpl in Hlen; lia|].
  simpl. f_equal. apply IH. simpl in Hlen. lia.
Qed.

Lemma indexOf_app_stable (p a rest : list N) :
  indexOf p (a ++ p) = Some (length a) ->
  indexOf p (a ++ p ++ rest) = Some (length a).
Proof.
  intros (_ & _ & Hbefore)%indexOf_Some.
  apply indexOf_first.
  - by rewrite drop_app_length, startsWith_app.
  - intros j Hj. specialize (Hbefore j Hj).
    rewrite drop_app_le in Hbefore |- * by lia.
    rewrite app_assoc, startsWith_app_long; [done|].
    rewrite length_app, length_drop. lia.
  - rewrite length_app. lia.
Qed.

Lemma take_consumed (a b : list N) :
  take (length (a ++ b) - length b) (a ++ b) = a.
Proof.
  rewrite length_app, Nat.add_sub. by rewrite take_app_length.
Qed.

Lemma forallb_Forall_true (c : N -> bool) (s : list N) :
  forallb c s = true -> Forall (fun x => c x = true) s.
Proof.
  intros H. apply Forall_forall. intros x Hx%list_elem_of_In.
  by apply (proj1 (forallb_forall c s) H).
Qed.

Lemma nonEmpty_length (s : list N) : nonEmpty s = true -> 1 <= length s.
Proof. destruct s; [done|simpl; lia]. Qed.

(** A match of the file pattern starts with [<file], ends with the first
    [</file>] it can reach, and consumes at least one code unit. *)
Lemma matchHere_file_inv (s rest : list N) (caps : list (list N)) :
  matchHere fileRegex s = Some (rest, caps) ->
  startsWith (u "<file") s = true
  /\ length rest < length s
  /\ rest `suffix_of` s
  /\ includes (u "</file>") s = true.
Proof.
  unfold matchHere, fileRegex. cbn [rmatch]. intros H.
  destruct (startsWith (u "<file") s) eqn:Hopen; [|done].
  split; [done|].
  apply greedy_suffix in H as (r1 & S1 & L1 & H).
  destruct (startsWith _ r1) eqn:E1; [|done].
  apply greedy_suffix in H as (r2 & S2 & L2 & H).
  destruct (startsWith _ r2) eqn:E2; [|done].
  apply greedy_suffix in H as (r3 & S3 & L3 & H).
  destruct (startsWith _ r3) eqn:E3; [|done].
  apply greedy_suffix in H as (r4 & S4 & L4 & H).
  destruct (startsWith _ r4) eqn:E4; [|done].
  apply lazy_suffix in H as (r5 & S5 & H).
  destruct (startsWith _ r5) eqn:E5; [|done].
  injection H as <- _.
  assert (r5 `suffix_of` s) as [pre Hs].
  { etrans; [exact S5|]. etrans; [apply suffix_drop|].
    etrans; [exact S4|]. etrans; [apply suffix_drop|].
    etrans; [exact S3|]. etrans; [apply suffix_drop|].
    etrans; [exact S2|]. etrans; [apply suffix_drop|].
    etrans; [exact S1|]. apply suffix_drop. }
  apply startsWith_prefix in E5 as [t Ht].
  subst r5 s. change (drop 7 (u "</file>" ++ t)) with t.
  split; [|split].
  - rewrite !length_app. simpl. lia.
  - exists (pre ++ u "</file>"). by rewrite <- app_assoc.
  - apply includes_spec. eauto.
Qed.

Lemma matchHere_file_block (b : Block) (rest : list N) :
  wellFormed b = true ->
  matchHere fileRegex (blockText b ++ rest)
  = Some (rest, [b_path b; b_language b; b_content b]).
Proof.
  unfold wellFormed. rewrite !andb_true_iff, bool_decide_eq_true.
  intros ((((((((N1 & W1) & N2) & Q2) & N3) & W3) & N4) & Q4) & Hc).
  apply forallb_Forall_true in W1, Q2, W3, Q4.
  apply nonEmpty_length in N1, N2, N3, N4.
  destruct b as [ws1 p ws2 l c].
  cbn [b_ws1 b_path b_ws2 b_language b_content] in *.
  unfold matchHere, fileRegex, blockText, openTag.
  cbn [rmatch b_ws1 b_path b_ws2 b_language b_content].
  rewrite <- !app_assoc.
  rewrite startsWith_app, drop_app_length.
  apply greedy_hit; [done|done|done|].
  rewrite app_assoc, startsWith_app, drop_app_length, <- ?app_assoc.
  set (s2 := p ++ _).
  apply greedy_hit; [done|done|done|].
  rewrite startsWith_app, drop_app_length.
  apply greedy_hit; [done|done|done|].
  rewrite app_assoc, startsWith_app, drop_app_length, <- ?app_assoc.
  set (s4 := l ++ _).
  apply greedy_hit; [done|done|done|].
  change (dq :: u ">" ++ c ++ u "</file>" ++ rest)
    with ((dq :: u ">") ++ c ++ u "</file>" ++ rest).
  rewrite startsWith_app, drop_app_length.
  set (s5 := c ++ _).
  rewrite (lazy_find (u "</file>")
             (fun r => (drop (length (u "</file>")) r,
                        (([] ++ [take (length s2 - length ([dq] ++ ws2 ++ (u "language=" ++ [dq]) ++ s4)) s2])
                         ++ [take (length s4 - length ((dq :: u ">") ++ s5)) s4])
                        ++ [take (length s5 - length r) s5]))).
  subst s5. rewrite (indexOf_app_stable _ _ _ Hc). cbn [option_map].
  rewrite drop_app_length, drop_app_length.
  subst s2 s4.
  rewrite <- !app_assoc.
  by rewrite !take_consumed.
Qed.

Lemma startsWith_open_straddle (a x : list N) :
  a ≠ [] -> startsWith (u "<file") a = false ->
  startsWith (u "<file") (a ++ 60%N :: x) = false.
Proof.
  intros Ha H.
  change (u "<file") with [60; 102; 105; 108; 101]%N in *.
  destruct a as [|c1 [|c2 [|c3 [|c4 [|c5 a]]]]]; [done|..];
    cbn [startsWith] in H |- *; try exact H;
    repeat (match goal with
            | |- context [N.eqb ?m ?n] => is_var n; destruct (N.eqb m n)
            end; cbn [andb]);
    reflexivity.
Qed.

Lemma no_open_before (t x : list N) (j : nat) :
  includes (u "<file") t = false -> j < length t ->
  startsWith (u "<file") (drop j (t ++ 60%N :: x)) = false.
Proof.
  intros Hin Hj. rewrite drop_app_le by lia.
  apply startsWith_open_straddle.
  - intros E. apply (f_equal length) in E. rewrite length_drop in E.
    simpl in E. lia.
  - by apply includes_false_drop.
Qed.

Lemma blockText_open (b : Block) :
  exists t, blockText b = u "<file" ++ t /\ blockText b = 60%N :: drop 1 (blockText b).
Proof. unfold blockText, openTag. rewrite <- !app_assoc. eauto. Qed.

Lemma matchHere_file_none (s : list N) :
  startsWith (u "<file") s = false -> matchHere fileRegex s = None.
Proof.
  intros H. destruct (matchHere fileRegex s) as [[rest caps]|] eqn:E; [|done].
  apply matchHere_file_inv in E as (E & _). congruence.
Qed.

(** The leftmost match in [t ++ block ++ rest], when [t] holds no [<file],
    is the block. *)
Lemma search_file_block (t rest : list N) (b : Block) (pos : nat) :
  wellFormed b = true -> includes (u "<file") t = false ->
  search fileRegex (t ++ blockText b ++ rest) pos
  = Some {| index := pos + length t;
            fullMatch := blockText b;
            groups := [b_path b; b_language b; b_content b] |}.
Proof.
  intros Hwf Hin.
  rewrite (search_skip _ _ pos (length t)).
  - rewrite drop_app_length.
    destruct (blockText b ++ rest) as [|c s] eqn:E.
    { destruct (blockText_open b) as (? & _ & H). rewrite H in E. done. }
    rewrite <- E. clear E.
    assert (search fileRegex (blockText b ++ rest) (pos + length t)
            = match matchHere fileRegex (blockText b ++ rest) with
              | Some (rest', caps) =>
                  Some {| index := pos + length t;
                          fullMatch := take (length (blockText b ++ rest) - length rest')
                                            (blockText b ++ rest);
                          groups := caps |}
              | None => match blockText b ++ rest with
                        | [] => None
                        | _ :: s' => search fileRegex s' (S (pos + length t))
                        end
              end) as -> by by destruct (blockText b ++ rest).
    by rewrite matchHere_file_block, take_consumed.
  - intros j Hj. apply matchHere_file_none.
    destruct (blockText_open b) as (? & _ & ->).
    by apply no_open_before.
  - rewrite length_app. lia.
Qed.

Lemma search_file_absent (t : list N) (pos : nat) :
  includes (u "<file") t = false -> search fileRegex t pos = None.
Proof.
  intros H. apply search_none. intros j.
  apply matchHere_file_none. by apply includes_false_drop.
Qed.

Lemma replaceFirst_block (t rest : list N) (b : Block) :
  includes (u "<file") t = false ->
  replaceFirst (t ++ blockText b ++ rest) (blockText b) [] = t ++ rest.
Proof.
  intros Hin. apply (replaceFirst_at t (blockText b) rest []).
  intros j Hj. apply not_true_is_false. intros [x Hx]%startsWith_prefix.
  destruct (blockText_open b) as (y & Hy & Hhd).
  pose proof (no_open_before t (drop 1 (blockText b) ++ rest) j Hin Hj) as Hno.
  change (60%N :: drop 1 (blockText b) ++ rest)
    with ((60%N :: drop 1 (blockText b)) ++ rest) in Hno.
  rewrite <- Hhd, Hx, Hy, <- app_assoc, startsWith_app in Hno. done.
Qed.

Lemma fileOfMatch_block (b : Block) (i : nat) :
  fileOfMatch {| index := i; fullMatch := blockText b;
                 groups := [b_path b; b_language b; b_content b] |}
  = fileOfBlock b.
Proof. done. Qed.

(** The loop, started in front of the text [t] that precedes the blocks
    [bts]: [done] is the part of the raw text already scanned, [kept] what
    the message holds of it. *)
Lemma parseLoop_blocks (bts : list (Block * list N)) :
  forall (fuel : nat) (scanned kept t : list N) (fs : list GeneratedFile),
    forallb wellFormed (map fst bts) = true ->
    includes (u "<file") (kept ++ outside t bts) = false ->
    length bts < fuel ->
    parseLoop fuel (scanned ++ interleave t bts) (length scanned) fs
              (kept ++ interleave t bts)
    = Some (fs ++ map fileOfBlock (map fst bts), kept ++ outside t bts).
Proof.
  induction bts as [|[b t'] bts IH];
    intros fuel scanned kept t fs Hwf Hin Hfuel;
    (destruct fuel as [|fuel]; [simpl in Hfuel; lia|]).
  - unfold interleave, outside in *. cbn [map concat parseLoop] in *.
    unfold exec. rewrite !app_nil_r in *.
    rewrite (proj2 (Nat.ltb_ge _ _)) by (rewrite length_app; lia).
    rewrite drop_app_length, search_file_absent; [done|].
    by apply includes_false_app_r in Hin.
  - unfold interleave, outside in *.
    cbn [map concat fst snd forallb] in *.
    apply andb_true_iff in Hwf as [Hb Hwf].
    cbn [parseLoop]. unfold exec.
    rewrite (proj2 (Nat.ltb_ge _ _)) by (rewrite length_app; lia).
    rewrite drop_app_length.
    rewrite <- !app_assoc.
    rewrite search_file_block; [|done|].
    2:{ apply includes_false_app_r in Hin. by apply includes_false_app_l in Hin. }
    cbn [index fullMatch]. rewrite fileOfMatch_block.
    rewrite (app_assoc kept t), replaceFirst_block.
    2:{ rewrite app_assoc in Hin. by apply includes_false_app_l in Hin. }
    specialize (IH fuel (scanned ++ t ++ blockText b) (kept ++ t) t'
                   (fs ++ [fileOfBlock b]) Hwf).
    unfold interleave, outside in IH.
    rewrite !length_app in IH. rewrite <- !app_assoc in IH.
    rewrite Nat.add_assoc in IH.
    rewrite <- (app_assoc kept t).
    rewrite IH; [|done|simpl in Hfuel; lia].
    by rewrite <- ?app_assoc.
Qed.

(** ** The loop returns *)

Lemma exec_inv (r : regex) (text : list N) (lastIndex : nat) (m : MatchResult) :
  exec r text lastIndex = Some m ->
  exists rest,
    lastIndex <= index m /\ index m <= length text
    /\ matchHere r (drop (index m) text) = Some (rest, groups m)
    /\ fullMatch m = take (length (drop (index m) text) - length rest)
                          (drop (index m) text).
Proof.
  unfold exec. destruct (Nat.ltb_spec (length text) lastIndex) as [|Hle]; [done|].
  intros (i & rest & Hi & Hidx & Hm & Hfull)%search_inv.
  rewrite length_drop in Hi. rewrite drop_drop in Hm, Hfull.
  exists rest. rewrite Hidx. split; [lia|]. split; [lia|]. by split.
Qed.

Lemma exec_file_advances (text : list N) (lastIndex : nat) (m : MatchResult) :
  exec fileRegex text lastIndex = Some m ->
  lastIndex < index m + length (fullMatch m)
  /\ index m + length (fullMatch m) <= length text.
Proof.
  intros (rest & Hlo & Hhi & Hm & Hfull)%exec_inv.
  apply matchHere_file_inv in Hm as (_ & Hlen & _ & _).
  rewrite Hfull, length_take, length_drop in *. lia.
Qed.

Lemma parseLoop_returns (fuel : nat) (text : list N) :
  forall (lastIndex : nat) (fs : list GeneratedFile) (cleaned : list N),
    lastIndex <= length text -> length text - lastIndex < fuel ->
    is_Some (parseLoop fuel text lastIndex fs cleaned).
Proof.
  induction fuel as [|fuel IH]; intros lastIndex fs cleaned Hle Hfuel; [lia|].
  cbn [parseLoop].
  destruct (exec fileRegex text lastIndex) as [m|] eqn:E; [|done].
  apply exec_file_advances in E as [Hlo Hhi]. apply IH; lia.
Qed.

(** [parseClaudeResponse] returns on every input: the fuel it starts the
    loop with is never used up. *)
Lemma parseClaudeResponse_returns (raw : list N) :
  is_Some (parseClaudeResponse raw).
Proof.
  unfold parseClaudeResponse.
  destruct (parseLoop_returns (S (length raw)) raw 0 [] raw) as [[fs cm] ->];
    [lia|lia|done].
Qed.

(** Every file the loop adds comes from a match [exec] returned. *)
Lemma parseLoop_files (fuel : nat) (text : list N) :
  forall lastIndex fs cleaned fs' cleaned',
    parseLoop fuel text lastIndex fs cleaned = Some (fs', cleaned') ->
    exists ms,
      fs' = fs ++ map fileOfMatch ms
      /\ Forall (fun m => exists li, exec fileRegex text li = Some m) ms.
Proof.
  induction fuel as [|fuel IH]; intros lastIndex fs cleaned fs' cleaned'; [done|].
  cbn [parseLoop].
  destruct (exec fileRegex text lastIndex) as [m|] eqn:E.
  - intros (ms & -> & Hms)%IH. exists (m :: ms).
    split; [by rewrite <- app_assoc|]. constructor; eauto.
  - intros [= <- <-]. exists []. by rewrite app_nil_r.
Qed.

Lemma parseLoop_no_match (fuel : nat) (raw : list N) :
  (forall j, matchHere fileRegex (drop j raw) = None) ->
  parseLoop (S fuel) raw 0 [] raw = Some ([], raw).
Proof.
  intros H. cbn [parseLoop]. unfold exec.
  rewrite (proj2 (Nat.ltb_ge _ _)) by lia.
  by rewrite drop_0, search_none.
Qed.


(** ** Malformed tags *)

Lemma greedy_then_lit_none {R} (min : nat) (c : N -> bool)
      (run rest lit : list N) (K : list N -> option R) :
  Forall (fun x => c x = true) run -> stops c rest ->
  match lit with x :: _ => c x = false | [] => False end ->
  (startsWith lit rest = true -> K rest = None) ->
  greedy min c (run ++ rest)
         (fun r => if startsWith lit r then K r else None) = None.
Proof.
  intros Hrun Hstop Hlit HK. apply greedy_none; [done|done|].
  intros j _. pose proof (Forall_drop _ j _ Hrun) as Hd.
  destruct (drop j run) as [|x w].
  - simpl. destruct (startsWith lit rest); [by apply HK|done].
  - destruct lit as [|a lit]; [done|].
    apply Forall_cons in Hd as [Hx _]. cbn [app startsWith].
    destruct (N.eqb_spec a x) as [->|]; [congruence|done].
Qed.

Lemma matchHere_malformed (s : list N) :
  Malformed s -> matchHere fileRegex s = None.
Proof.
  intros [ws rest Hws|ws rest Hws|ws rest Hws|ws p ws2 rest Hws Hp Hws2
         |ws p ws2 rest Hws Hp Hws2];
    unfold matchHere, fileRegex; cbn [rmatch];
    rewrite startsWith_app, drop_app_length.
  - by apply greedy_then_lit_none.
  - by apply greedy_then_lit_none.
  - by apply greedy_then_lit_none.
  - apply greedy_then_lit_none; [done|done|done|]. intros _.
    rewrite drop_app_length.
    apply greedy_then_lit_none; [done|done|done|]. intros _.
    change (drop (length [dq]) ([dq] ++ ?x)) with x.
    by apply greedy_then_lit_none.
  - apply greedy_then_lit_none; [done|done|done|]. intros _.
    rewrite drop_app_length.
    apply greedy_then_lit_none; [done|done|done|]. intros _.
    change (drop (length [dq]) ([dq] ++ ?x)) with x.
    by apply greedy_then_lit_none.
Qed.

(** ** The thinking block *)

Lemma matchHere_thinking (s : list N) :
  option_map (fun x => nth 0 (snd x) []) (matchHere thinkingRegex s)
  = if startsWith (u "<thinking>") s
    then option_map (fun j => take j (drop (length (u "<thinking>")) s))
                    (indexOf (u "</thinking>") (drop (length (u "<thinking>")) s))
    else None.
Proof.
  unfold matchHere, thinkingRegex. cbn [rmatch].
  destruct (startsWith (u "<thinking>") s); [|done].
  set (s' := drop _ s).
  rewrite (lazy_find (u "</thinking>")
             (fun r => (drop (length (u "</thinking>")) r,
                        [] ++ [take (length s' - length r) s']))).
  destruct (indexOf (u "</thinking>") s') as [j|] eqn:E; [|done].
  apply indexOf_Some in E as (Hj & _). cbn [option_map snd app nth].
  do 2 f_equal. rewrite length_drop. lia.
Qed.

Lemma indexOf_None_drop (p s : list N) (j : nat) :
  indexOf p s = None -> indexOf p (drop j s) = None.
Proof.
  intros H. destruct (indexOf p (drop j s)) as [i|] eqn:E; [|done].
  apply indexOf_Some in E as (_ & E & _). rewrite drop_drop in E.
  by rewrite (indexOf_None p s H) in E.
Qed.

Lemma firstThinking_cons (c : N) (s : list N) :
  startsWith (u "<thinking>") (c :: s) = false ->
  firstThinking (c :: s) = firstThinking s.
Proof.
  intros H. unfold firstThinking. rewrite (indexOf_eq _ (c :: s)), H.
  by destruct (indexOf (u "<thinking>") s).
Qed.

Lemma firstThinking_here (s : list N) :
  startsWith (u "<thinking>") s = true ->
  firstThinking s
  = option_map (fun j => take j (drop (length (u "<thinking>")) s))
               (indexOf (u "</thinking>") (drop (length (u "<thinking>")) s)).
Proof.
  intros H. unfold firstThinking.
  assert (indexOf (u "<thinking>") s = Some 0) as ->.
  { by rewrite indexOf_eq, H. }
  by destruct (indexOf _ _).
Qed.

Lemma firstThinking_unclosed (s : list N) (k : nat) :
  k <= length (u "<thinking>") ->
  indexOf (u "</thinking>") (drop k s) = None -> firstThinking s = None.
Proof.
  intros Hk H. unfold firstThinking.
  destruct (indexOf (u "<thinking>") s) as [i|]; [|done]. cbv zeta.
  replace (i + length (u "<thinking>"))
    with (k + (i + length (u "<thinking>") - k)) by lia.
  rewrite <- drop_drop. by rewrite indexOf_None_drop.
Qed.

Lemma search_thinking (s : list N) :
  forall pos,
    option_map (fun m => nth 0 (groups m) []) (search thinkingRegex s pos)
    = firstThinking s.
Proof.
  induction s as [|c s IH]; intros pos; [done|].
  pose proof (matchHere_thinking (c :: s)) as Hm.
  cbn [search].
  destruct (matchHere thinkingRegex (c :: s)) as [[rest caps]|] eqn:E.
  - cbn [option_map groups snd] in *.
    destruct (startsWith (u "<thinking>") (c :: s)) eqn:Ho; [|done].
    by rewrite firstThinking_here.
  - rewrite IH. cbn [option_map] in Hm.
    destruct (startsWith (u "<thinking>") (c :: s)) eqn:Ho.
    + rewrite (firstThinking_here (c :: s)) by done. rewrite <- Hm.
      destruct (indexOf (u "</thinking>") (drop (length (u "<thinking>")) (c :: s)))
        as [j|] eqn:Ec; [done|].
      apply (firstThinking_unclosed s 9); [vm_compute; lia|done].
    + by rewrite firstThinking_cons.
Qed.

(** [extractThinking] returns the trimmed content of the first thinking
    block of its argument, and [null] when there is none. *)
Lemma extractThinking_spec (text : list N) :
  extractThinking text = option_map trim (firstThinking text).
Proof.
  unfold extractThinking, matchFirst.
  rewrite <- (search_thinking text 0).
  by destruct (search thinkingRegex text 0).
Qed.

Lemma parseClaudeResponse_thinking (raw : list N) (r : ParsedResponse) :
  parseClaudeResponse raw = Some r -> thinking r = extractThinking raw.
Proof.
  unfold parseClaudeResponse. destruct (parseLoop _ _ _ _ _) as [[fs cm]|]; [|done].
  by intros [= <-].
Qed.

(** What [trimStart] leaves out is white space, and what it returns does
    not start with white space. *)
Lemma trimStart_spec (s : list N) :
  exists a,
    s = a ++ trimStart s
    /\ Forall (fun c => isWhiteSpace c = true) a
    /\ (forall c, head (trimStart s) = Some c -> isWhiteSpace c = false).
Proof.
  induction s as [|x s (a & Ha & Hws & Hhd)]; [by exists []|].
  cbn [trimStart]. destruct (isWhiteSpace x) eqn:E.
  - exists (x :: a). split; [by rewrite Ha at 1|]. split; [by constructor|done].
  - exists []. split; [done|]. split; [done|]. by intros c [= <-].
Qed.

(** [trim] trims. *)
Lemma trim_trimmedOf (s : list N) : trimmedOf s (trim s).
Proof.
  unfold trim, trimEnd, trimmedOf.
  destruct (trimStart_spec s) as (a & Ha & Hwa & Hhd).
  destruct (trimStart_spec (rev (trimStart s))) as (b & Hb & Hwb & Hlast).
  set (t := trimStart (rev (trimStart s))) in *.
  assert (trimStart s = rev t ++ rev b) as Hs.
  { by rewrite <- rev_app_distr, <- Hb, rev_involutive. }
  exists a, (rev b). split; [by rewrite <- Hs|]. split; [done|].
  split; [by apply Forall_rev|]. split.
  - intros c Hc. apply Hhd. rewrite Hs. by destruct (rev t).
  - intros c Hc. apply Hlast. rewrite rev_alt in Hc.
    change (rev_append t []) with (reverse t) in Hc.
    by rewrite last_reverse in Hc.
Qed.

(** C4: the [thinking] field is the content of the first
    [<thinking>...</thinking>] block of the raw text, trimmed (the white
    space at its two ends is left out, and nothing else), and [null] when
    the raw text has no such block; the raw text is the original one, so a
    thinking block inside a file block is found although the message no
    longer holds it; ["<thinking>X</thinking>Hello"] parses to thinking
    ["X"], message ["Hello"] and no file, and a block whose content is
    wrapped in newlines, blanks and a tab gives the content without them. *)
Theorem thinking_from_original_text :
  (forall raw : list N,
      exists r, parseClaudeResponse raw = Some r
                /\ thinking r = option_map trim (firstThinking raw)
                /\ match firstThinking raw with
                   | Some inner =>
                       exists t, thinking r = Some t /\ trimmedOf inner t
                   | None => thinking r = None
                   end)
  /\ parseClaudeResponse (u "<thinking>X</thinking>Hello")
     = Some {| message := u "Hello"; files := []; thinking := Some (u "X") |}
  /\ parseClaudeResponse
       (u "<thinking>" ++ [nl] ++ u "  first a, then b " ++ [9%N; nl]
        ++ u "</thinking>" ++ [nl] ++ u " Hello ")
     = Some {| message := u "Hello"; files := [];
               thinking := Some (u "first a, then b") |}
  /\ parseClaudeResponse (fileTag (u "a.js") (u "js") (u "<thinking>T</thinking>"))
     = Some {| message := [];
               files := [ {| path := u "a.js"; language := u "js";
                             content := u "<thinking>T</thinking>" |} ];
               thinking := Some (u "T") |}.
Proof.
  split; [|split; [|split]; by vm_compute].
  intros raw. destruct (parseClaudeResponse_returns raw) as [r Hr].
  exists r. split; [done|].
  rewrite (parseClaudeResponse_thinking raw r Hr), extractThinking_spec.
  split; [done|].
  destruct (firstThinking raw) as [inner|]; [|done].
  exists (trim inner). split; [done|]. apply trim_trimmedOf.
Qed.

(** ** Cleaning the message *)

Lemma includes_cons (p : list N) (c : N) (s : list N) :
  includes p (c :: s) = startsWith p (c :: s) || includes p s.
Proof.
  unfold includes. rewrite (indexOf_eq p (c :: s)).
  destruct (startsWith p (c :: s)); [done|]. by destruct (indexOf p s).
Qed.


Lemma includes_suffix (p s t : list N) :
  t `suffix_of` s -> includes p t = true -> includes p s = true.
Proof.
  intros [k ->] (a & b & ->)%includes_spec. apply includes_spec.
  exists (k ++ a), b. by rewrite <- app_assoc.
Qed.

Lemma includes_after (p rep z : list N) :
  match p with a :: _ => a ∉ rep | [] => False end ->
  includes p (rep ++ z) = includes p z.
Proof.
  destruct p as [|a p]; [done|]. intros Ha.
  induction rep as [|x rep IH]; [done|].
  apply not_elem_of_cons in Ha as [Hax Ha].
  cbn [app]. rewrite includes_cons, IH by done.
  cbn [startsWith]. by destruct (N.eqb_spec a x).
Qed.

Lemma replaceAllFrom_skip (r : regex) (rep s : list N) (skip : nat) :
  skip <= length s ->
  replaceAllFrom r rep s skip = replaceAllFrom r rep (drop skip s) 0.
Proof.
  revert s; induction skip as [|n IH]; intros s Hs; [by rewrite drop_0|].
  destruct s as [|c s]; [simpl in Hs; lia|].
  cbn [replaceAllFrom drop]. apply IH. simpl in Hs. lia.
Qed.

Lemma replaceAllFrom_eq (r : regex) (rep s : list N) :
  replaceAllFrom r rep s 0 =
  match matchHere r s with
  | Some (rest, _) =>
      match s with
      | [] => rep
      | c :: s' =>
          match length s - length rest with
          | O => rep ++ c :: replaceAllFrom r rep s' 0
          | S n => rep ++ replaceAllFrom r rep s' n
          end
      end
  | None =>
      match s with
      | [] => []
      | c :: s' => c :: replaceAllFrom r rep s' 0
      end
  end.
Proof. by destruct s. Qed.

(** A prefix that shares no code unit with the replacement is a prefix of
    the original text. *)
Lemma replaceAll_prefix (r : regex) (rep q s : list N) :
  rep ≠ [] -> Forall (fun x => x ∉ rep) q ->
  startsWith q (replaceAllFrom r rep s 0) = true -> startsWith q s = true.
Proof.
  intros Hrep Hq. revert s. induction Hq as [|a q Ha Hq IH]; intros s; [done|].
  assert (forall z, startsWith (a :: q) (rep ++ z) = false) as Hno.
  { intros z. destruct rep as [|x rep]; [done|].
    apply not_elem_of_cons in Ha as [Hax _]. cbn [app startsWith].
    by destruct (N.eqb_spec a x). }
  rewrite replaceAllFrom_eq.
  destruct (matchHere r s) as [[rest caps]|].
  - destruct s as [|c s].
    + rewrite <- (app_nil_r rep). by rewrite Hno.
    + destruct (length (c :: s) - length rest).
      * by rewrite Hno.
      * by rewrite Hno.
  - destruct s as [|c s]; [done|]. cbn [startsWith].
    intros [-> H]%andb_true_iff. apply IH in H. by rewrite H.
Qed.

Lemma matchHere_rest_length (r : regex) (s rest : list N)
      (caps : list (list N)) :
  matchHere r s = Some (rest, caps) -> length rest <= length s.
Proof.
  unfold matchHere. intros (rest' & caps' & Hsuf & [= <- <-])%rmatch_suffix.
  by apply suffix_length.
Qed.

(** Replacing matches by a text that shares no code unit with [p] brings no
    new occurrence of [p]. *)
Lemma replaceAll_includes (r : regex) (rep p : list N) (s : list N) :
  rep ≠ [] -> p ≠ [] -> Forall (fun x => x ∉ rep) p ->
  includes p (replaceAll r rep s) = true -> includes p s = true.
Proof.
  intros Hrep Hp Hfresh. unfold replaceAll.
  destruct p as [|a p']; [done|].
  pose proof Hfresh as [Ha Hfresh']%Forall_cons.
  assert (forall z, includes (a :: p') (rep ++ z) = includes (a :: p') z)
    as Hafter by (intros z; by apply includes_after).
  remember (length s) as n eqn:En. revert s En.
  induction n as [n IH] using lt_wf_ind. intros s ->.
  assert (forall c s', s = c :: s' ->
            includes (a :: p') (c :: replaceAllFrom r rep s' 0) = true ->
            includes (a :: p') (c :: s') = true) as Hkeep.
  { intros c s' -> H. rewrite includes_cons in H |- *.
    apply orb_true_iff in H as [H|H]; apply orb_true_iff.
    - left. cbn [startsWith] in H |- *.
      apply andb_true_iff in H as [-> H].
      by rewrite (replaceAll_prefix r rep p' s' Hrep Hfresh' H).
    - right. apply (IH (length s')); [simpl; lia|done|done]. }
  rewrite replaceAllFrom_eq.
  destruct (matchHere r s) as [[rest caps]|] eqn:E.
  - destruct s as [|c s'].
    + rewrite <- (app_nil_r rep), Hafter. done.
    + destruct (length (c :: s') - length rest) as [|n'] eqn:En.
      * rewrite Hafter. by apply Hkeep.
      * rewrite Hafter.
        apply matchHere_rest_length in E. simpl in En, E.
        rewrite replaceAllFrom_skip by lia. intros H.
        apply (IH (length (drop n' s'))) in H;
          [|rewrite length_drop; simpl; lia|done].
        apply (includes_suffix _ _ (drop n' s')); [|done].
        apply suffix_cons_r, suffix_drop.
  - destruct s as [|c s']; [done|]. by apply Hkeep.
Qed.

Lemma trimStart_suffix (s : list N) : trimStart s `suffix_of` s.
Proof.
  induction s as [|c s IH]; [done|]. cbn [trimStart].
  destruct (isWhiteSpace c); [by apply suffix_cons_r|done].
Qed.

Lemma trim_includes (p s : list N) :
  includes p (trim s) = true -> includes p s = true.
Proof.
  unfold trim, trimEnd. intros (a & b & H)%includes_spec.
  destruct (trimStart_suffix (rev (trimStart s))) as [k Hk].
  destruct (trimStart_suffix s) as [k' Hk'].
  apply includes_spec.
  apply (f_equal (@rev N)) in Hk. rewrite rev_involutive, rev_app_distr, H in Hk.
  rewrite Hk', Hk. exists (k' ++ a), (b ++ rev k).
  by rewrite <- !app_assoc.
Qed.

(** Past the removal of the thinking blocks, [cleanMessage] brings no
    [<file] into the message. *)
Lemma cleanMessage_no_open (s : list N) :
  includes (u "<file") (replaceAll thinkingBlockRegex [] s) = false ->
  includes (u "<file") (cleanMessage s) = false.
Proof.
  intros H. apply not_true_is_false. intros Hc.
  unfold cleanMessage in Hc. apply trim_includes in Hc.
  apply replaceAll_includes in Hc; [congruence|done|done|].
  apply (bool_decide_unpack _). by vm_compute.
Qed.

Lemma includes_longer (p x s : list N) :
  includes p s = false -> includes (p ++ x) s = false.
Proof.
  intros H. apply not_true_is_false. intros (a & b & ->)%includes_spec.
  apply not_true_iff_false in H. apply H, includes_spec.
  exists a, (x ++ b). by rewrite <- app_assoc.
Qed.

Lemma interleave_length (t0 : list N) (bts : list (Block * list N)) :
  length bts <= length (interleave t0 bts).
Proof.
  unfold interleave. rewrite length_app.
  induction bts as [|[b t] bts IH]; [simpl; lia|].
  cbn [map concat fst snd]. rewrite !length_app.
  destruct (blockText_open b) as (_ & _ & ->). simpl in *. lia.
Qed.

(** *** Blank lines *)

Lemma greedy_short {R} (min : nat) (c : N -> bool) (run rest : list N)
      (k : list N -> option R) :
  Forall (fun x => c x = true) run -> stops c rest ->
  length run < min -> greedy min c (run ++ rest) k = None.
Proof.
  intros Hrun Hstop. revert min.
  induction Hrun as [|a run Ha _ IH]; intros min Hmin; simpl in *.
  - destruct min; [lia|]. destruct rest as [|x rest]; [done|].
    simpl in *. by rewrite Hstop.
  - rewrite Ha, IH by lia. destruct min; [lia|done].
Qed.

Lemma leadingNewlines_split (s : list N) :
  Forall (fun x => isNewline x = true) (take (leadingNewlines s) s)
  /\ stops isNewline (drop (leadingNewlines s) s)
  /\ leadingNewlines s <= length s.
Proof.
  induction s as [|c s (IH1 & IH2 & IH3)]; [done|]. cbn [leadingNewlines].
  destruct (isNewline c) eqn:E; cbn [take drop length].
  - split; [by constructor|]. split; [done|lia].
  - split; [done|]. split; [done|lia].
Qed.

Lemma matchHere_blankLines (s : list N) :
  matchHere blankLinesRegex s
  = if 3 <=? leadingNewlines s
    then Some (drop (leadingNewlines s) s, [])
    else None.
Proof.
  unfold matchHere, blankLinesRegex. cbn [rmatch].
  destruct (leadingNewlines_split s) as (Hrun & Hstop & Hlen).
  rewrite <- (take_drop (leadingNewlines s) s) at 1.
  destruct (Nat.leb_spec 3 (leadingNewlines s)) as [H3|H3].
  - apply greedy_hit; [done|done| |done]. rewrite length_take. lia.
  - apply greedy_short; [done|done|]. rewrite length_take. lia.
Qed.

Lemma collapseRuns_reset (s : list N) (seen : nat) :
  leadingNewlines s = 0 -> collapseRuns s seen = collapseRuns s 0.
Proof. destruct s as [|c s]; [done|]. cbn. by destruct (isNewline c). Qed.

Lemma collapseRuns_full (s : list N) :
  collapseRuns s 2 = collapseRuns (drop (leadingNewlines s) s) 2.
Proof.
  induction s as [|c s IH]; [done|]. cbn [collapseRuns leadingNewlines].
  destruct (isNewline c) eqn:E; [|by cbn; rewrite E]. by cbn [drop Nat.leb].
Qed.

Lemma leadingNewlines_drop (s : list N) :
  leadingNewlines (drop (leadingNewlines s) s) = 0.
Proof.
  induction s as [|c s IH]; [done|]. cbn [leadingNewlines].
  destruct (isNewline c) eqn:E; [done|]. cbn. by rewrite E.
Qed.

(** [text.replace(/\n{3,}/g, '\n\n')] keeps two newlines of every run of
    three or more, and everything else. *)
Lemma replaceAll_blankLines (s : list N) :
  replaceAll blankLinesRegex [nl; nl] s = collapseRuns s 0.
Proof.
  unfold replaceAll.
  assert (forall n s seen, length s = n ->
            seen = 0 \/ seen + leadingNewlines s <= 2 ->
            replaceAllFrom blankLinesRegex [nl; nl] s 0 = collapseRuns s seen)
    as H; [|by apply (H (length s)); [|left]].
  clear s. induction n as [n IH] using lt_wf_ind. intros s seen <- Hseen.
  rewrite replaceAllFrom_eq, matchHere_blankLines.
  destruct s as [|c s]; [done|].
  cbn [leadingNewlines collapseRuns] in *.
  destruct (isNewline c) eqn:Ec.
  - destruct (Nat.leb_spec 3 (S (leadingNewlines s))) as [H3|H3].
    + destruct Hseen as [->|Hseen]; [|lia].
      pose proof (leadingNewlines_split s) as (_ & _ & Hlen).
      cbn [drop length]. rewrite length_drop.
      replace (S (length s) - (length s - leadingNewlines s))
        with (S (leadingNewlines s)) by lia.
      rewrite replaceAllFrom_skip by lia.
      rewrite (IH (length (drop (leadingNewlines s) s)) ltac:(rewrite length_drop; simpl; lia)
                  _ 0 eq_refl (or_introl eq_refl)).
      cbn [Nat.leb app].
      destruct s as [|c2 s]; [simpl in H3; lia|].
      cbn [leadingNewlines collapseRuns] in *.
      destruct (isNewline c2) eqn:Ec2; [|lia].
      cbn [Nat.leb drop].
      assert (c = nl) as -> by by apply N.eqb_eq.
      assert (c2 = nl) as -> by by apply N.eqb_eq.
      do 2 f_equal. rewrite collapseRuns_full.
      apply eq_sym, collapseRuns_reset, leadingNewlines_drop.
    + f_equal.
      destruct Hseen as [->|Hseen].
      * cbn [Nat.leb]. f_equal.
        apply (IH (length s)); [simpl; lia|done|right; lia].
      * assert (seen <= 1) by lia.
        destruct seen as [|[|seen]]; [| |lia]; cbn [Nat.leb]; f_equal;
          apply (IH (length s)); try (simpl; lia); try done; right; lia.
  - f_equal. apply (IH (length s)); [simpl; lia|done|by left].
Qed.

Lemma cleanMessage_eq (text : list N) :
  cleanMessage text
  = trim (collapseRuns (replaceAll thinkingBlockRegex [] text) 0).
Proof. unfold cleanMessage. by rewrite replaceAll_blankLines. Qed.

(** ** Unclosed tags *)

Lemma Forall_forallb_true (c : N -> bool) (s : list N) :
  Forall (fun x => c x = true) s -> forallb c s = true.
Proof.
  intros H. apply forallb_forall. intros x Hx%list_elem_of_In.
  by apply (proj1 (Forall_forall _ _) H).
Qed.

Lemma length_nonEmpty (s : list N) : 1 <= length s -> nonEmpty s = true.
Proof. destruct s; [simpl; lia|done]. Qed.

(** Where the file pattern matches, the text starts with an opening tag
    that a closing tag follows. *)
Lemma matchHere_file_open (s rest : list N) (caps : list (list N)) :
  matchHere fileRegex s = Some (rest, caps) ->
  exists ws1 p ws2 l tail,
    wellFormedTag ws1 p ws2 l = true
    /\ s = openTag ws1 p ws2 l ++ tail
    /\ includes (u "</file>") tail = true.
Proof.
  unfold matchHere, fileRegex. cbn [rmatch]. intros H.
  destruct (startsWith (u "<file") s) eqn:Hopen; [|done].
  apply startsWith_prefix in Hopen as [s0 ->]. rewrite drop_app_length in H.
  apply greedy_run in H as (ws1 & r1 & -> & F1 & L1 & H).
  destruct (startsWith _ r1) eqn:E1; [|done].
  apply startsWith_prefix in E1 as [r1' ->]. rewrite drop_app_length in H.
  apply greedy_run in H as (p & r2 & -> & Fp & Lp & H).
  destruct (startsWith _ r2) eqn:E2; [|done].
  apply startsWith_prefix in E2 as [r2' ->]. rewrite drop_app_length in H.
  apply greedy_run in H as (ws2 & r3 & -> & F3 & L3 & H).
  destruct (startsWith _ r3) eqn:E3; [|done].
  apply startsWith_prefix in E3 as [r3' ->]. rewrite drop_app_length in H.
  apply greedy_run in H as (l & r4 & -> & Fl & Ll & H).
  destruct (startsWith _ r4) eqn:E4; [|done].
  apply startsWith_prefix in E4 as [tail ->]. rewrite drop_app_length in H.
  apply lazy_suffix in H as (r5 & S5 & H).
  destruct (startsWith _ r5) eqn:E5; [|done].
  apply startsWith_prefix in E5 as [t ->]. destruct S5 as [pre ->].
  exists ws1, p, ws2, l, (pre ++ u "</file>" ++ t). split; [|split].
  - unfold wellFormedTag.
    by rewrite !length_nonEmpty, !Forall_forallb_true.
  - unfold openTag. by rewrite <- !app_assoc.
  - apply includes_spec. eauto.
Qed.

(** And where an opening tag is followed by a closing tag the file pattern
    matches. *)
Lemma matchHere_file_closed (ws1 p ws2 l tail : list N) :
  wellFormedTag ws1 p ws2 l = true ->
  includes (u "</file>") tail = true ->
  is_Some (matchHere fileRegex (openTag ws1 p ws2 l ++ tail)).
Proof.
  intros Hwf Hin. unfold includes in Hin.
  destruct (indexOf (u "</file>") tail) as [i|] eqn:Ei; [|done].
  pose proof Ei as (Hi & [t Ht]%startsWith_prefix & Hbefore)%indexOf_Some.
  pose (b := {| b_ws1 := ws1; b_path := p; b_ws2 := ws2; b_language := l;
                b_content := take i tail |}).
  assert (wellFormed b = true) as Hb.
  { unfold wellFormed. cbn [b_ws1 b_path b_ws2 b_language b_content b].
    unfold wellFormedTag in Hwf. rewrite Hwf. cbn [andb].
    apply bool_decide_eq_true. apply indexOf_first.
    - by rewrite drop_app_length.
    - intros j Hj. rewrite length_take in Hj.
      specialize (Hbefore j ltac:(lia)).
      rewrite <- (take_drop i tail), Ht in Hbefore.
      rewrite drop_app_le in Hbefore |- * by (rewrite length_take; lia).
      rewrite app_assoc, startsWith_app_long in Hbefore; [done|].
      rewrite length_app. simpl. lia.
    - rewrite length_app. lia. }
  assert (openTag ws1 p ws2 l ++ tail = blockText b ++ t) as ->.
  { unfold blockText. cbn [b_ws1 b_path b_ws2 b_language b_content b].
    rewrite <- !app_assoc. f_equal.
    by rewrite <- Ht, take_drop. }
  by rewrite matchHere_file_block.
Qed.

Lemma search_some (r : regex) (s : list N) (pos j : nat) :
  is_Some (matchHere r (drop j s)) -> is_Some (search r s pos).
Proof.
  revert pos j; induction s as [|c s IH]; intros pos j Hm.
  - rewrite drop_nil in Hm. destruct Hm as [[rest caps] Hm].
    simpl. by rewrite Hm.
  - cbn [search].
    destruct (matchHere r (c :: s)) as [[rest caps]|] eqn:E; [done|].
    destruct j as [|j]; [rewrite drop_0, E in Hm; by destruct Hm|].
    by apply (IH _ j).
Qed.

(** A text in which the file pattern matches somewhere yields a file. *)
Lemma parseClaudeResponse_some_file (raw : list N) (j : nat) :
  is_Some (matchHere fileRegex (drop j raw)) ->
  exists r, parseClaudeResponse raw = Some r /\ files r ≠ [].
Proof.
  intros Hm. unfold parseClaudeResponse. cbn [parseLoop]. unfold exec.
  rewrite (proj2 (Nat.ltb_ge _ _)) by lia. rewrite drop_0.
  destruct (search_some fileRegex raw 0 j Hm) as [m Em]. rewrite Em.
  assert (exec fileRegex raw 0 = Some m) as Ex.
  { unfold exec. rewrite (proj2 (Nat.ltb_ge _ _)) by lia. by rewrite drop_0. }
  apply exec_file_advances in Ex as [Hlo Hhi].
  destruct (parseLoop_returns (length raw) raw
              (index m + length (fullMatch m)) ([] ++ [fileOfMatch m])
              (replaceFirst raw (fullMatch m) [])) as [[fs cm] E]; [lia|lia|].
  rewrite E. eexists. split; [done|]. cbn [files].
  apply parseLoop_files in E as (ms & -> & _). done.
Qed.

(** A text all of whose opening tags are unclosed goes through the loop
    untouched. *)
Lemma parseLoop_unclosed (fuel : nat) (raw : list N) :
  everyTagUnclosed raw -> parseLoop (S fuel) raw 0 [] raw = Some ([], raw).
Proof.
  intros Hun. apply parseLoop_no_match. intros j.
  destruct (matchHere fileRegex (drop j raw)) as [[rest caps]|] eqn:E; [|done].
  apply matchHere_file_open in E as (ws1 & p & ws2 & l & tail & Hwf & Hs & Hin).
  rewrite (Hun j tail) in Hin; [done|]. by exists ws1, p, ws2, l.
Qed.

(** C5, counterexample: the raw text
    [<file path="a" language="js">x</file> <file path="b" language="js">y]
    holds an unclosed tag, the second one, and yet yields a file, that of
    the closed block in front of it. *)
Lemma closed_block_beside_unclosed_tag : ~ unclosed_tag_yields_no_file.
Proof.
  intros H.
  destruct (H (fileTag (u "a") (u "js") (u "x") ++ u " ")
              (u " ") (u "b") (u " ") (u "js") (u "y") eq_refl eq_refl)
    as (r & Hr & Hfiles & _).
  vm_compute in Hr. injection Hr as <-. done.
Qed.

(** C5, amended: every raw text parses, without error, and it yields no
    file exactly when every opening file tag it holds is unclosed, that is
    when no [</file>] comes anywhere after it; a closed block beside an
    unclosed tag yields its file as ever.  When the text yields no file its
    message is the raw text itself with the thinking blocks removed, two
    newlines kept of every run of three or more, and the white space at its
    two ends left out; so the text with the unclosed tag
    [<file path="a" language="js">] of the specification keeps the tag in
    its message. *)
Theorem unclosed_tag_is_inert :
  (forall raw : list N,
      exists r,
        parseClaudeResponse raw = Some r
        /\ (files r = [] <-> everyTagUnclosed raw)
        /\ (everyTagUnclosed raw -> cleanedOf raw (message r)))
  /\ parseClaudeResponse
       ([nl] ++ u "  See </file> "
        ++ openTag (u " ") (u "a") (u " ") (u "js") ++ u "const x = 1;"
        ++ [nl; nl; nl; nl] ++ u "End " ++ [nl])
     = Some {| message :=
                 u "See </file> <file path=" ++ [dq] ++ u "a" ++ [dq]
                 ++ u " language=" ++ [dq] ++ u "js" ++ [dq]
                 ++ u ">const x = 1;" ++ [nl; nl] ++ u "End";
               files := []; thinking := None |}.
Proof.
  split; [|by vm_compute].
  intros raw.
  assert (everyTagUnclosed raw
          \/ exists j, is_Some (matchHere fileRegex (drop j raw))) as [Hun|[j Hm]].
  { destruct (search fileRegex raw 0) as [m|] eqn:E.
    - right. apply search_inv in E as (i & rest & _ & _ & Hm & _). eauto.
    - left. intros j rest (ws1 & p & ws2 & l & Hwf & Hs).
      apply not_true_is_false. intros Hin.
      pose proof (matchHere_file_closed ws1 p ws2 l rest Hwf Hin) as Hm.
      rewrite <- Hs in Hm.
      destruct (search_some fileRegex raw 0 j Hm) as [m Em]. congruence. }
  - eexists. unfold parseClaudeResponse. rewrite parseLoop_unclosed by done.
    split; [done|]. cbn [files message]. split; [done|]. intros _.
    unfold cleanedOf. rewrite cleanMessage_eq. apply trim_trimmedOf.
  - destruct (parseClaudeResponse_some_file raw j Hm) as (r & Hr & Hfiles).
    exists r. split; [done|].
    assert (~ everyTagUnclosed raw) as Hnot.
    { intros Hun. destruct Hm as [[rest caps] Hm].
      apply matchHere_file_open in Hm
          as (ws1 & p & ws2 & l & tail & Hwf & Hs & Hin).
      rewrite (Hun j tail) in Hin; [done|]. by exists ws1, p, ws2, l. }
    split; [split; [done|tauto]|tauto].
Qed.

(** ** Well-formed blocks *)

(** C1: the claim fails on the code at the raw text
    [<file path="c" lang] B1 [uage="d">y</file>] B2, with
    B1 = [<file path="a" language="b"> x </file>] and
    B2 = [<file path="c" language="d">y</file>].  The text holds the two
    well-formed blocks B1 and B2 and parses to their two files, in order and
    trimmed, as the claim says; but the message is B2, a matched block with
    all its markup: removing B1 joins the text around it into a copy of B2,
    and it is this copy, the first occurrence, that the second [replace]
    removes, against the comment [Remove file block from message] of the
    loop. *)
Theorem parse_leaves_a_block :
  let B1 := {| b_ws1 := u " "; b_path := u "a"; b_ws2 := u " ";
               b_language := u "b"; b_content := u " x " |} in
  let B2 := {| b_ws1 := u " "; b_path := u "c"; b_ws2 := u " ";
               b_language := u "d"; b_content := u "y" |} in
  let raw :=
    interleave (u "<file path=" ++ [dq] ++ u "c" ++ [dq] ++ u " lang")
      [(B1, u "uage=" ++ [dq] ++ u "d" ++ [dq] ++ u ">y</file>"); (B2, [])] in
  wellFormed B1 = true /\ wellFormed B2 = true
  /\ raw = u "<file path=" ++ [dq] ++ u "c" ++ [dq] ++ u " lang"
           ++ u "<file path=" ++ [dq] ++ u "a" ++ [dq] ++ u " language="
           ++ [dq] ++ u "b" ++ [dq] ++ u "> x </file>"
           ++ u "uage=" ++ [dq] ++ u "d" ++ [dq] ++ u ">y</file>"
           ++ u "<file path=" ++ [dq] ++ u "c" ++ [dq] ++ u " language="
           ++ [dq] ++ u "d" ++ [dq] ++ u ">y</file>"
  /\ parseClaudeResponse raw
     = Some {| message :=
                 u "<file path=" ++ [dq] ++ u "c" ++ [dq] ++ u " language="
                 ++ [dq] ++ u "d" ++ [dq] ++ u ">y</file>";
               files :=
                 [ {| path := u "a"; language := u "b"; content := u "x" |};
                   {| path := u "c"; language := u "d"; content := u "y" |} ];
               thinking := None |}
  /\ (forall r, parseClaudeResponse raw = Some r ->
                includes (blockText B2) (message r) = true)
  /\ ~ parse_strips_every_block.
Proof.
  intros B1 B2 raw.
  assert (parseClaudeResponse raw
          = Some {| message := blockText B2;
                    files := [fileOfBlock B1; fileOfBlock B2];
                    thinking := None |}) as Hraw by by vm_compute.
  split; [done|]. split; [done|]. split; [by vm_compute|].
  split; [rewrite Hraw; by vm_compute|]. split.
  - intros r Hr. rewrite Hraw in Hr. injection Hr as <-. by vm_compute.
  - intros H.
    destruct (H (u "<file path=" ++ [dq] ++ u "c" ++ [dq] ++ u " lang")
                [(B1, u "uage=" ++ [dq] ++ u "d" ++ [dq] ++ u ">y</file>");
                 (B2, [])]
                eq_refl) as (r & Hr & _ & Hmsg).
    fold raw in Hr. rewrite Hraw in Hr. injection Hr as <-.
    specialize (Hmsg B2 ltac:(set_solver)). by vm_compute in Hmsg.
Qed.

(** Where the text outside the blocks holds no [<file], the loop does
    remove every block: a raw text made of N well-formed blocks with such
    text before, between and after them parses to exactly the N files of
    the blocks, in their order, each with trimmed path, language and
    content; the message is the outside text put through [cleanMessage];
    and it holds no [<file], hence none of the blocks, unless removing the
    thinking blocks from the outside text joins text into one. *)
Lemma parse_blocks_in_order (t0 : list N) (bts : list (Block * list N)) :
  forallb wellFormed (map fst bts) = true ->
  includes (u "<file") (outside t0 bts) = false ->
  exists r,
    parseClaudeResponse (interleave t0 bts) = Some r
    /\ files r = map fileOfBlock (map fst bts)
    /\ message r = cleanMessage (outside t0 bts)
    /\ (includes (u "<file")
          (replaceAll thinkingBlockRegex [] (outside t0 bts)) = false ->
        includes (u "<file") (message r) = false
        /\ forall b, includes (blockText b) (message r) = false).
Proof.
  intros Hwf Hin. unfold parseClaudeResponse.
  pose proof (parseLoop_blocks bts (S (length (interleave t0 bts))) [] [] t0 []
                Hwf Hin) as H.
  cbn [app length] in H. rewrite H.
  2:{ pose proof (interleave_length t0 bts). lia. }
  eexists. split; [done|]. cbn [files message]. split; [done|]. split; [done|].
  intros Hclean. apply cleanMessage_no_open in Hclean. split; [done|].
  intros b. destruct (blockText_open b) as (x & -> & _).
  by apply includes_longer.
Qed.

Lemma parse_blocks_in_order_witness :
  exists r,
    parseClaudeResponse
      (u "Here: " ++ fileTag (u "a.js") (u "js") (u "let a;")
       ++ u " and " ++ fileTag (u "b.py") (u "python") (u "b = 1") ++ u " done")
    = Some r
    /\ files r = [ {| path := u "a.js"; language := u "js"; content := u "let a;" |};
                   {| path := u "b.py"; language := u "python"; content := u "b = 1" |} ]
    /\ message r = u "Here:  and  done".
Proof.
  destruct (parse_blocks_in_order (u "Here: ")
              [ ({| b_ws1 := u " "; b_path := u "a.js"; b_ws2 := u " ";
                    b_language := u "js"; b_content := u "let a;" |}, u " and ");
                ({| b_ws1 := u " "; b_path := u "b.py"; b_ws2 := u " ";
                    b_language := u "python"; b_content := u "b = 1" |}, u " done") ]
              eq_refl eq_refl) as (r & Hr & Hf & Hm & _).
  exists r. split; [|split].
  - rewrite <- Hr. f_equal.
  - rewrite Hf. reflexivity.
  - rewrite Hm. by vm_compute.
Defined.

(** ** Malformed tags yield no file *)

(** C10: the file pattern matches only [path] then [language], each in
    double quotes.  Where the raw text holds a tag that lists [language]
    first, leaves out an attribute or delimits a value by single quotes, no
    match starts at that tag: every returned file comes from a match of
    [exec] at another index. *)
Theorem malformed_tag_yields_no_file (before s : list N) :
  Malformed s ->
  exists r ms,
    parseClaudeResponse (before ++ s) = Some r
    /\ files r = map fileOfMatch ms
    /\ Forall (fun m => index m ≠ length before
                        /\ exists li, exec fileRegex (before ++ s) li = Some m) ms.
Proof.
  intros Hs. destruct (parseClaudeResponse_returns (before ++ s)) as [r Hr].
  exists r. pose proof Hr as Hr'. unfold parseClaudeResponse in Hr'.
  destruct (parseLoop _ _ _ _ _) as [[fs cm]|] eqn:E; [|done].
  injection Hr' as <-.
  apply parseLoop_files in E as (ms & -> & Hms).
  exists ms. split; [done|]. split; [done|].
  eapply Forall_impl; [exact Hms|]. intros m [li Hm]. split; [|eauto].
  intros Hidx. apply exec_inv in Hm as (rest & _ & _ & Hm & _).
  rewrite Hidx, drop_app_length in Hm.
  by rewrite (matchHere_malformed s Hs) in Hm.
Qed.

Lemma malformed_tag_yields_no_file_witness :
  exists r ms,
    parseClaudeResponse
      (u "Use " ++ u "<file" ++ u " " ++ u "language="
       ++ [dq] ++ u "js" ++ [dq] ++ u " path=" ++ [dq] ++ u "a.js" ++ [dq]
       ++ u ">x</file>") = Some r
    /\ files r = map fileOfMatch ms
    /\ Forall (fun m => index m ≠ 4 /\ exists li,
                 exec fileRegex
                   (u "Use " ++ u "<file" ++ u " " ++ u "language="
                    ++ [dq] ++ u "js" ++ [dq] ++ u " path=" ++ [dq] ++ u "a.js"
                    ++ [dq] ++ u ">x</file>") li = Some m) ms.
Proof.
  apply (malformed_tag_yields_no_file (u "Use ")).
  apply language_first. repeat constructor.
Defined.

(** The four kinds of tag, alone in a raw text: no file is returned. *)
Lemma malformed_tag_examples :
  (* <file language="js" path="a.js">x</file> *)
  option_map files
    (parseClaudeResponse
       (u "<file language=" ++ [dq] ++ u "js" ++ [dq] ++ u " path=" ++ [dq]
        ++ u "a.js" ++ [dq] ++ u ">x</file>")) = Some []
  (* <file path='a.js' language='js'>x</file> *)
  /\ option_map files
       (parseClaudeResponse
          (u "<file path='a.js' language='js'>x</file>")) = Some []
  (* <file path="a.js">x</file> *)
  /\ option_map files
       (parseClaudeResponse
          (u "<file path=" ++ [dq] ++ u "a.js" ++ [dq] ++ u ">x</file>")) = Some []
  (* <file language="js">x</file> *)
  /\ option_map files
       (parseClaudeResponse
          (u "<file language=" ++ [dq] ++ u "js" ++ [dq] ++ u ">x</file>")) = Some [].
Proof. repeat split; by vm_compute. Qed.

(** ** The prompt *)

Lemma orDefault_languageTag (language : value) :
  orDefault language (u "text") = languageTag language.
Proof. by destruct language as [| |[|c l]]. Qed.

Lemma fold_appendFile (files : list ContextFile) (prompt : list N) :
  fold_left appendFile files prompt = prompt ++ concat (map fileSection files).
Proof.
  revert prompt; induction files as [|f files IH]; intros prompt.
  - by rewrite app_nil_r.
  - cbn [fold_left map concat]. rewrite IH. unfold appendFile, fileSection.
    rewrite orDefault_languageTag. change backticks with fence.
    by rewrite <- !app_assoc.
Qed.

Lemma modeGuidance_empty (mode : value) :
  modeGuidance mode = []
  <-> mode ≠ VStr (u "refactor") /\ mode ≠ VStr (u "test").
Proof.
  unfold modeGuidance.
  destruct (decide (mode = VStr (u "refactor"))) as [->|Hr].
  { split; [done|]. by intros [? _]. }
  rewrite (bool_decide_false _ Hr).
  destruct (decide (mode = VStr (u "test"))) as [->|Ht].
  { split; [done|]. by intros [_ ?]. }
  by rewrite (bool_decide_false _ Ht).
Qed.

(** C8: the prompt is a function of the user message, the retrieved context
    and the mode; it is, in this order, the header, one sub-section per
    context file with its path and a fenced block tagged with its language
    ([text] when the file has none), the structure outline, the fixed
    instructions on the tagging of the output, the guidance of the mode,
    which is empty unless the mode is [refactor] or [test], and the user
    request, which ends with the user message as it was given.  Two prompts
    are written out in full: one for two files, the second without
    language, an outline and the mode [test]; and one for an empty context
    and the mode [chat], which holds the header, the instructions and the
    request only. *)
Theorem prompt_sections_in_order :
  (forall (userMessage : list N) (context : Context) (mode : value),
      buildEnrichedPrompt userMessage context mode
      = header
        ++ filesSection (ctx_files context)
        ++ structureSection (ctx_structure context)
        ++ fixedInstructions
        ++ modeGuidance mode
        ++ userRequest userMessage
      /\ (modeGuidance mode ≠ []
          <-> mode = VStr (u "refactor") \/ mode = VStr (u "test"))
      /\ userMessage `suffix_of` buildEnrichedPrompt userMessage context mode)
  /\ buildEnrichedPrompt (u "Add tests")
       {| ctx_files :=
            [ {| cf_path := u "src/a.js"; cf_language := VStr (u "js");
                 cf_content := u "let a;"; cf_score := 0%float |};
              {| cf_path := u "NOTES"; cf_language := VUndefined;
                 cf_content := u "to do"; cf_score := 0%float |} ];
          ctx_structure := u "src/a.js, NOTES" |}
       (VStr (u "test"))
     = lines
         [ u "# Project Context";
           [];
           u "## Relevant Files:";
           [];
           u "### src/a.js";
           u "```js";
           u "let a;";
           u "```";
           [];
           u "### NOTES";
           u "```text";
           u "to do";
           u "```";
           [];
           u "## Project Structure:";
           u "```";
           u "src/a.js, NOTES";
           u "```";
           [];
           u "# Instructions";
           [];
           u "You are helping develop a software project. When generating code:";
           u "1. Generate complete, production-ready code";
           u "2. Follow the existing project structure and conventions";
           u "3. Include all necessary imports and dependencies";
           u "4. Wrap each file in XML tags with path and language:";
           [];
           u "<file path=" ++ [dq] ++ u "src/components/Button.jsx" ++ [dq]
           ++ u " language=" ++ [dq] ++ u "javascript" ++ [dq] ++ u ">";
           u "// file content here";
           u "</file>";
           [];
           u "5. You can generate multiple files in one response";
           u "6. Make sure code is ready to run without modifications";
           [];
           u "Generate comprehensive tests for the code.";
           [];
           u "# User Request";
           [] ]
       ++ u "Add tests"
  /\ buildEnrichedPrompt (u "Hello")
       {| ctx_files := []; ctx_structure := [] |} (VStr (u "chat"))
     = lines
         [ u "# Project Context";
           [];
           u "# Instructions";
           [];
           u "You are helping develop a software project. When generating code:";
           u "1. Generate complete, production-ready code";
           u "2. Follow the existing project structure and conventions";
           u "3. Include all necessary imports and dependencies";
           u "4. Wrap each file in XML tags with path and language:";
           [];
           u "<file path=" ++ [dq] ++ u "src/components/Button.jsx" ++ [dq]
           ++ u " language=" ++ [dq] ++ u "javascript" ++ [dq] ++ u ">";
           u "// file content here";
           u "</file>";
           [];
           u "5. You can generate multiple files in one response";
           u "6. Make sure code is ready to run without modifications";
           [];
           u "# User Request";
           [] ]
       ++ u "Hello".
Proof.
  split; [|split; by vm_compute].
  intros userMessage context mode.
  assert (buildEnrichedPrompt userMessage context mode
          = header ++ filesSection (ctx_files context)
            ++ structureSection (ctx_structure context) ++ fixedInstructions
            ++ modeGuidance mode ++ userRequest userMessage) as Heq.
  { change fixedInstructions with instructions.
    unfold buildEnrichedPrompt, header, filesSection, structureSection,
      modeGuidance, userRequest.
    change fence with backticks.
    destruct (ctx_files context) as [|f fs] eqn:Ef;
      destruct (ctx_structure context) as [|c st] eqn:Es;
      rewrite ?fold_appendFile;
      destruct mode as [| |m]; repeat case_bool_decide; simplify_eq;
      by rewrite <- ?app_assoc. }
  split; [done|]. split.
  - pose proof (modeGuidance_empty mode) as H.
    destruct (decide (mode = VStr (u "refactor"))) as [|Hr]; [split; [tauto|]|].
    { intros _. subst. done. }
    destruct (decide (mode = VStr (u "test"))) as [|Ht]; [split; [tauto|]|].
    { intros _. subst. done. }
    split; [|tauto]. intros Hne. exfalso. apply Hne, H. done.
  - rewrite Heq. unfold userRequest.
    rewrite !app_assoc. by eexists.
Qed.

(** ** Sorting *)

Section Sorting.
Context {A : Type} (cmp : A -> A -> Z).

Lemma insertBy_perm (x : A) (l : list A) : Permutation (insertBy cmp x l) (x :: l).
Proof.
  induction l as [|y l IH]; [done|]. cbn [insertBy].
  destruct (cmp y x <=? 0)%Z; [|done].
  rewrite IH. apply perm_swap.
Qed.

Lemma sortBy_perm (l : list A) : Permutation (sortBy cmp l) l.
Proof.
  unfold sortBy.
  assert (forall acc, Permutation
            (fold_left (fun acc x => insertBy cmp x acc) l acc) (acc ++ l)) as H.
  { induction l as [|x l IH]; intros acc; [by rewrite app_nil_r|].
    cbn [fold_left]. rewrite IH, insertBy_perm.
    by rewrite <- Permutation_middle. }
  apply (H []).
Qed.

Hypothesis total : forall a b, (0 < cmp a b)%Z -> (cmp b a <= 0)%Z.
Hypothesis trans : forall a b c,
    (cmp a b <= 0)%Z -> (cmp b c <= 0)%Z -> (cmp a c <= 0)%Z.

Lemma insertBy_sorted (x : A) (l : list A) :
  StronglySorted (fun a b => (cmp a b <= 0)%Z) l ->
  StronglySorted (fun a b => (cmp a b <= 0)%Z) (insertBy cmp x l).
Proof.
  induction 1 as [|y l Hl IH Hy]; [repeat constructor|].
  cbn [insertBy]. destruct (Z.leb_spec (cmp y x) 0) as [Hle|Hgt].
  - constructor; [done|].
    apply Forall_forall. intros z Hz.
    rewrite (insertBy_perm x l) in Hz.
    apply elem_of_cons in Hz as [->|Hz]; [done|].
    by apply (proj1 (Forall_forall _ _) Hy).
  - apply total in Hgt. constructor; [by constructor|].
    constructor; [done|].
    eapply Forall_impl; [exact Hy|]. intros z Hz. by apply (trans x y z).
Qed.

Lemma sortBy_sorted (l : list A) :
  StronglySorted (fun a b => (cmp a b <= 0)%Z) (sortBy cmp l).
Proof.
  unfold sortBy.
  assert (forall acc, StronglySorted (fun a b => (cmp a b <= 0)%Z) acc ->
            StronglySorted (fun a b => (cmp a b <= 0)%Z)
              (fold_left (fun acc x => insertBy cmp x acc) l acc)) as H.
  { induction l as [|x l IH]; intros acc Hacc; [done|].
    cbn [fold_left]. by apply IH, insertBy_sorted. }
  apply H. constructor.
Qed.
End Sorting.

Section SortMap.
Context {A B : Type} (f : A -> B) (cmp : A -> A -> Z) (cmp' : B -> B -> Z).
Hypothesis agree : forall a b, cmp' (f a) (f b) = cmp a b.

Lemma insertBy_map (x : A) (l : list A) :
  insertBy cmp' (f x) (map f l) = map f (insertBy cmp x l).
Proof.
  induction l as [|y l IH]; [done|]. cbn [map insertBy]. rewrite agree.
  destruct (cmp y x <=? 0)%Z; [|done]. cbn [map]. by rewrite IH.
Qed.

Lemma sortBy_map (l : list A) :
  sortBy cmp' (map f l) = map f (sortBy cmp l).
Proof.
  unfold sortBy.
  assert (forall acc,
            fold_left (fun acc x => insertBy cmp' x acc) (map f l) (map f acc)
            = map f (fold_left (fun acc x => insertBy cmp x acc) l acc)) as H.
  { induction l as [|x l IH]; intros acc; [done|].
    cbn [map fold_left]. by rewrite insertBy_map, IH. }
  apply (H []).
Qed.
End SortMap.

(** ** The outline *)

Lemma entries_perm {V} (ps : list (list N * V)) : Permutation (entries ps) ps.
Proof.
  unfold entries.
  induction ps as [|e ps IH].
  - done.
  - cbn [omap filter list_omap list_filter].
    destruct (arrayIndex (fst e)) as [n|] eqn:E.
    + rewrite decide_False by done.
      etrans; [|apply perm_skip, IH].
      change (e :: ?x ++ ?y) with ((e :: x) ++ y).
      apply Permutation_app_tail.
      rewrite !sortBy_perm. done.
    + rewrite decide_True by done.
      rewrite <- Permutation_middle. by apply perm_skip.
Qed.

Lemma entries_map {V W} (f : list N * V -> list N * W) (ps : list (list N * V)) :
  (forall e, fst (f e) = fst e) ->
  entries (map f ps) = map f (entries ps).
Proof.
  intros Hf. unfold entries. rewrite map_app. f_equal.
  - assert (omap (fun e : list N * W =>
                    match arrayIndex (fst e) with
                    | Some n => Some (n, e)
                    | None => None
                    end) (map f ps)
            = map (fun ne => (fst ne, f (snd ne)))
                (omap (fun e : list N * V =>
                         match arrayIndex (fst e) with
                         | Some n => Some (n, e)
                         | None => None
                         end) ps)) as ->.
    { induction ps as [|e ps IH]; [done|]. cbn [map omap list_omap].
      rewrite Hf. destruct (arrayIndex (fst e)); cbn [map]; by rewrite <- IH. }
    rewrite (sortBy_map (fun ne : N * (list N * V) => (fst ne, f (snd ne)))
                        indexOrder indexOrder) by done.
    rewrite !map_map. done.
  - induction ps as [|e ps IH]; [done|]. cbn [map].
    rewrite !filter_cons, Hf.
    destruct (decide (arrayIndex (fst e) = None)); cbn [map]; by rewrite <- IH.
Qed.

Lemma sortedEntries_withSub (localeCompare : list N -> list N -> Z)
      (ps : list (list N * option jsobj)) :
  sortedEntries localeCompare (fun v => isFile (fst v))
                (map (withSub localeCompare) ps)
  = map (withSub localeCompare) (sortedEntries localeCompare isFile ps).
Proof.
  unfold sortedEntries. rewrite entries_map by done.
  by apply sortBy_map.
Qed.

Lemma fold_appendEntry (localeCompare : list N -> list N -> Z)
      (indent : list N) (es : list (list N * option jsobj)) (result : list N) :
  fold_left (appendEntry indent) (map (withSub localeCompare) es) result
  = result ++ concat (map (entryLines localeCompare indent) es).
Proof.
  revert result; induction es as [|[k v] es IH]; intros result.
  - by rewrite app_nil_r.
  - cbn [map fold_left concat]. rewrite IH.
    unfold appendEntry, withSub, entryLines. cbn [fst snd].
    destruct v as [sub|]; cbn [isFile]; rewrite <- ?app_assoc; done.
Qed.

Lemma treeToString_eq (localeCompare : list N -> list N -> Z)
      (tree : jsobj) (indent : list N) :
  treeToString localeCompare tree indent
  = concat (map (entryLines localeCompare indent)
                (sortedEntries localeCompare isFile (props tree))).
Proof.
  destruct tree as [ps]. cbn [treeToString props].
  change (map _ ps) with (map (withSub localeCompare) ps).
  by rewrite sortedEntries_withSub, fold_appendEntry.
Qed.

Lemma compareEntries_listedBefore (localeCompare : list N -> list N -> Z)
      (a b : list N * option jsobj) :
  (compareEntries localeCompare isFile a b <= 0)%Z
  <-> listedBefore localeCompare a b.
Proof.
  unfold compareEntries, listedBefore.
  destruct (isFile (snd a)), (isFile (snd b)); cbn [andb negb];
    split; try lia; try tauto; intros [[? ?]|[? ?]]; try done; lia.
Qed.

Section Outline.
Variable localeCompare : list N -> list N -> Z.
Hypothesis total :
  forall a b, (0 < localeCompare a b)%Z -> (localeCompare b a <= 0)%Z.
Hypothesis trans :
  forall a b c, (localeCompare a b <= 0)%Z -> (localeCompare b c <= 0)%Z ->
                (localeCompare a c <= 0)%Z.

Lemma compareEntries_total {V} (isNull : V -> bool) (a b : list N * V) :
  (0 < compareEntries localeCompare isNull a b)%Z ->
  (compareEntries localeCompare isNull b a <= 0)%Z.
Proof.
  unfold compareEntries.
  destruct (isNull (snd a)), (isNull (snd b)); cbn [andb negb];
    try lia; apply total.
Qed.

Lemma compareEntries_trans {V} (isNull : V -> bool) (a b c : list N * V) :
  (compareEntries localeCompare isNull a b <= 0)%Z ->
  (compareEntries localeCompare isNull b c <= 0)%Z ->
  (compareEntries localeCompare isNull a c <= 0)%Z.
Proof.
  unfold compareEntries.
  destruct (isNull (snd a)), (isNull (snd b)), (isNull (snd c));
    cbn [andb negb]; try lia; apply trans.
Qed.

Lemma sortedEntries_sorted (ps : list (list N * option jsobj)) :
  StronglySorted (listedBefore localeCompare)
                 (sortedEntries localeCompare isFile ps).
Proof.
  unfold sortedEntries.
  pose proof (sortBy_sorted (compareEntries localeCompare isFile)
                (compareEntries_total isFile) (compareEntries_trans isFile)
                (entries ps)) as H.
  induction H as [|e es Hes IH He]; constructor; [done|].
  eapply Forall_impl; [exact He|].
  intros b Hb. by apply compareEntries_listedBefore.
Qed.
End Outline.

(** C7: at every level of the tree, [treeToString] lists each entry once,
    directories before files and otherwise by [localeCompare] of the names,
    each entry followed by the outline of what it holds; for the paths
    [a/b.js], [a/c.js], [d.js] the directory [a] comes before the file
    [d.js], and in [a] the file [b.js] before [c.js].  [localeCompare] is
    the collation of the host, of which only that it is a total preorder is
    used, and that it does not put [c.js] before [b.js]. *)
Theorem outline_lists_directories_first
        (localeCompare : list N -> list N -> Z) :
  (forall a b, (0 < localeCompare a b)%Z -> (localeCompare b a <= 0)%Z) ->
  (forall a b c, (localeCompare a b <= 0)%Z -> (localeCompare b c <= 0)%Z ->
                 (localeCompare a c <= 0)%Z) ->
  (forall (tree : jsobj) (indent : list N),
      Permutation (sortedEntries localeCompare isFile (props tree)) (props tree)
      /\ StronglySorted (listedBefore localeCompare)
                        (sortedEntries localeCompare isFile (props tree))
      /\ treeToString localeCompare tree indent
         = concat (map (entryLines localeCompare indent)
                       (sortedEntries localeCompare isFile (props tree))))
  /\ ((localeCompare (u "b.js") (u "c.js") <= 0)%Z ->
      treeToString localeCompare
                   (buildFileTree [u "a/b.js"; u "a/c.js"; u "d.js"]) []
      = folderIcon ++ u " a" ++ [nl]
        ++ u "  " ++ fileIcon ++ u " b.js" ++ [nl]
        ++ u "  " ++ fileIcon ++ u " c.js" ++ [nl]
        ++ fileIcon ++ u " d.js" ++ [nl]).
Proof.
  intros total trans. split.
  - intros tree indent. split; [|split].
    + unfold sortedEntries. by rewrite sortBy_perm, entries_perm.
    + by apply sortedEntries_sorted.
    + apply treeToString_eq.
  - intros Hbc.
    change (u "b.js") with [98; 46; 106; 115]%N in Hbc.
    change (u "c.js") with [99; 46; 106; 115]%N in Hbc.
    vm_compute.
    match goal with
    | |- context [localeCompare ?a ?b] =>
        destruct (localeCompare a b) as [|p|p] eqn:E
    end; [reflexivity|lia|reflexivity].
Qed.

Lemma compareUnits_total (a b : list N) :
  (0 < compareUnits a b)%Z -> (compareUnits b a <= 0)%Z.
Proof.
  revert b; induction a as [|x a IH]; intros [|y b]; cbn [compareUnits];
    try lia.
  destruct (N.ltb_spec x y), (N.ltb_spec y x); try lia. apply IH.
Qed.

Lemma compareUnits_trans (a b c : list N) :
  (compareUnits a b <= 0)%Z -> (compareUnits b c <= 0)%Z ->
  (compareUnits a c <= 0)%Z.
Proof.
  revert b c; induction a as [|x a IH]; intros [|y b] [|z c];
    cbn [compareUnits]; try lia.
  destruct (N.ltb_spec x y), (N.ltb_spec y x), (N.ltb_spec y z),
    (N.ltb_spec z y), (N.ltb_spec x z), (N.ltb_spec z x); try lia.
  apply IH.
Qed.

Lemma outline_lists_directories_first_witness :
  treeToString compareUnits
               (buildFileTree [u "a/b.js"; u "a/c.js"; u "d.js"]) []
  = folderIcon ++ u " a" ++ [nl]
    ++ u "  " ++ fileIcon ++ u " b.js" ++ [nl]
    ++ u "  " ++ fileIcon ++ u " c.js" ++ [nl]
    ++ fileIcon ++ u " d.js" ++ [nl].
Proof.
  apply (outline_lists_directories_first compareUnits
           compareUnits_total compareUnits_trans).
  by vm_compute.
Defined.

(** ** Retrieval *)

Lemma queryRelevantFiles_returns (localeCompare : list N -> list N -> Z)
      (projectId query : list N) (topK : nat) (c : Chroma) :
  exists v, fst (queryRelevantFiles localeCompare projectId query topK c) = Ok v.
Proof.
  unfold queryRelevantFiles, tryCatch.
  destruct (bind _ _ c) as [[v|e] c']; cbn [fst ret]; eauto.
Qed.

(** C3, counterexample: on a store that answers and has no collection for
    the project, retrieval creates the collection and returns
    [{files: [], structure: 'Empty project'}]. *)
Lemma retrieval_without_index_names_empty_project :
  ~ retrieval_empty_without_index.
Proof.
  intros H.
  specialize (H compareUnits (u "p1") (u "button") 5 emptyStore (or_intror eq_refl)).
  vm_compute in H. discriminate H.
Qed.

Lemma reach_up (c : Chroma) :
  down c (calls c) = None -> reach c = (Ok tt, tick c).
Proof. unfold reach. by intros ->. Qed.

Lemma reach_down (c : Chroma) (e : list N) :
  down c (calls c) = Some e -> reach c = (Throw e, tick c).
Proof. unfold reach. by intros ->. Qed.

(** *** Running a request step by step *)

Lemma bind_ok {S A B} (m : M S A) (f : A -> M S B) (s s' : S) (a : A) :
  m s = (Ok a, s') -> bind m f s = f a s'.
Proof. unfold bind. by intros ->. Qed.

Lemma bind_throw {S A B} (m : M S A) (f : A -> M S B) (s s' : S) (e : list N) :
  m s = (Throw e, s') -> bind m f s = (Throw e, s').
Proof. unfold bind. by intros ->. Qed.

Lemma tryCatch_ok {S A} (m : M S A) (h : list N -> M S A) (s s' : S) (a : A) :
  m s = (Ok a, s') -> tryCatch m h s = (Ok a, s').
Proof. unfold tryCatch. by intros ->. Qed.

Lemma tryCatch_throw {S A} (m : M S A) (h : list N -> M S A) (s s' : S)
      (e : list N) :
  m s = (Throw e, s') -> tryCatch m h s = h e s'.
Proof. unfold tryCatch. by intros ->. Qed.

Lemma getOrCreateCollection_up (projectId : list N) (c : Chroma) :
  down c (calls c) = None ->
  getOrCreateCollection projectId c
  = (Ok (collectionName projectId), ensure (collectionName projectId) (tick c)).
Proof.
  intros Hup. unfold getOrCreateCollection, client_getOrCreateCollection.
  apply tryCatch_ok.
  rewrite (bind_ok _ _ c (tick c) tt) by by apply reach_up.
  rewrite (bind_ok _ _ (tick c) (tick c) (tick c)) by done.
  unfold ensure.
  destruct (collections (tick c) !! collectionName projectId); [done|].
  by rewrite (bind_ok _ _ (tick c)
                (withCollections (insert (collectionName projectId) ∅) (tick c)) tt).
Qed.

Lemma getOrCreateCollection_down (projectId : list N) (c : Chroma) (e : list N) :
  down c (calls c) = Some e ->
  getOrCreateCollection projectId c = (Throw e, tick c).
Proof.
  intros Hdown. unfold getOrCreateCollection, client_getOrCreateCollection.
  rewrite (tryCatch_throw _ _ c (tick c) e); [done|].
  by rewrite (bind_throw _ _ c (tick c) e) by by apply reach_down.
Qed.

Lemma ensure_lookup (name : list N) (c : Chroma) :
  collections (ensure name c) !! name
  = Some (default ∅ (collections c !! name)).
Proof.
  unfold ensure. destruct (collections c !! name) as [col|] eqn:E.
  - by rewrite E.
  - cbn [withCollections collections]. by rewrite lookup_insert_eq.
Qed.

Lemma ensure_down (name : list N) (c : Chroma) :
  down (ensure name c) = down c /\ calls (ensure name c) = calls c
  /\ nearest (ensure name c) = nearest c.
Proof. unfold ensure. by destruct (collections c !! name). Qed.

Lemma collection_query_up (name query : list N) (nResults : nat) (c : Chroma)
      (col : gmap (list N) Entry) :
  down c (calls c) = None -> collections c !! name = Some col ->
  collection_query name query nResults c
  = (Ok (queryResults (hitsOf col (nearest c query col) nResults)), tick c).
Proof.
  intros Hup Hcol. unfold collection_query.
  rewrite (bind_ok _ _ c (tick c) tt) by by apply reach_up.
  rewrite (bind_ok _ _ (tick c) (tick c) (tick c)) by done.
  cbn [tick collections nearest]. by rewrite Hcol.
Qed.

Lemma collection_query_down (name query : list N) (nResults : nat) (c : Chroma)
      (e : list N) :
  down c (calls c) = Some e ->
  collection_query name query nResults c = (Throw e, tick c).
Proof.
  intros Hdown. unfold collection_query.
  by rewrite (bind_throw _ _ c (tick c) e) by by apply reach_down.
Qed.

Lemma client_getCollection_up (name : list N) (c : Chroma)
      (col : gmap (list N) Entry) :
  down c (calls c) = None -> collections c !! name = Some col ->
  client_getCollection name c = (Ok name, tick c).
Proof.
  intros Hup Hcol. unfold client_getCollection.
  rewrite (bind_ok _ _ c (tick c) tt) by by apply reach_up.
  rewrite (bind_ok _ _ (tick c) (tick c) (tick c)) by done.
  cbn [tick collections]. by rewrite Hcol.
Qed.

Lemma collection_get_up (name : list N) (c : Chroma)
      (col : gmap (list N) Entry) :
  down c (calls c) = None -> collections c !! name = Some col ->
  collection_get name c
  = (Ok (Some (map (fun row => metadata (snd row)) (map_to_list col))), tick c).
Proof.
  intros Hup Hcol. unfold collection_get.
  rewrite (bind_ok _ _ c (tick c) tt) by by apply reach_up.
  rewrite (bind_ok _ _ (tick c) (tick c) (tick c)) by done.
  cbn [tick collections]. by rewrite Hcol.
Qed.

Lemma hitsOf_empty (ranked : list (list N * float)) (n : nat) :
  hitsOf ∅ ranked n = [].
Proof.
  unfold hitsOf.
  assert (omap (fun hit : list N * float =>
                  match (∅ : gmap (list N) Entry) !! fst hit with
                  | Some e => Some (e, snd hit)
                  | None => None
                  end) ranked = []) as ->; [|by destruct n].
  induction ranked as [|h ranked IH]; [done|].
  cbn [omap list_omap]. by rewrite lookup_empty.
Qed.

(** C3, amended: retrieval never throws; it returns
    [{files: [], structure: ''}] whenever the store cannot be reached for
    [getOrCreateCollection] or for [query]; and on a store that answers,
    for a project without collection or with an empty one, it returns
    [{files: [], structure: 'Empty project'}]. *)
Theorem retrieval_is_best_effort (localeCompare : list N -> list N -> Z)
        (projectId query : list N) (topK : nat) (c : Chroma) :
  (exists v, fst (queryRelevantFiles localeCompare projectId query topK c) = Ok v)
  /\ ((exists e, down c (calls c) = Some e)
      \/ (exists e, down c (S (calls c)) = Some e) ->
      fst (queryRelevantFiles localeCompare projectId query topK c)
      = Ok {| r_files := []; r_structure := [] |})
  /\ (alwaysUp c ->
      collections c !! collectionName projectId = None
      \/ collections c !! collectionName projectId = Some ∅ ->
      fst (queryRelevantFiles localeCompare projectId query topK c)
      = Ok {| r_files := []; r_structure := u "Empty project" |}).
Proof.
  split; [apply queryRelevantFiles_returns|]. split.
  - intros Hdown. unfold queryRelevantFiles.
    destruct (down c (calls c)) as [e|] eqn:E0.
    + rewrite (tryCatch_throw _ _ c (tick c) e); [done|].
      apply bind_throw. by apply getOrCreateCollection_down.
    + destruct Hdown as [[e He]|[e He]]; [congruence|].
      set (c1 := ensure (collectionName projectId) (tick c)).
      rewrite (tryCatch_throw _ _ c (tick c1) e); [done|].
      rewrite (bind_ok _ _ c c1 (collectionName projectId))
        by by apply getOrCreateCollection_up.
      apply bind_throw, collection_query_down. subst c1.
      destruct (ensure_down (collectionName projectId) (tick c)) as (-> & -> & _).
      done.
  - intros Hup Hempty. unfold queryRelevantFiles.
    set (name := collectionName projectId).
    set (c1 := ensure name (tick c)).
    assert (collections c1 !! name = Some ∅) as Hcol.
    { unfold c1, name. rewrite ensure_lookup. cbn [tick collections].
      by destruct Hempty as [-> | ->]. }
    assert (forall c', down c' = down c -> down c' (calls c') = None) as Hup'.
    { intros c' ->. apply Hup. }
    assert (down c1 = down c) as Hd1
        by apply (ensure_down name (tick c)).
    apply (f_equal fst (y := (_, tick (tick (tick c1))))).
    apply tryCatch_ok.
    rewrite (bind_ok _ _ c c1 name) by (apply getOrCreateCollection_up, Hup).
    rewrite (bind_ok _ _ c1 (tick c1) _
               (collection_query_up name query topK c1 ∅ (Hup' c1 Hd1) Hcol)).
    rewrite hitsOf_empty.
    rewrite (bind_ok _ _ (tick c1) (tick (tick (tick c1))) (u "Empty project"));
      [done|].
    unfold getProjectStructure. apply tryCatch_ok.
    rewrite (bind_ok _ _ (tick c1) (tick (tick c1)) name
               (client_getCollection_up name (tick c1) ∅ (Hup' (tick c1) Hd1) Hcol)).
    rewrite (bind_ok _ _ (tick (tick c1)) (tick (tick (tick c1))) _
               (collection_get_up name (tick (tick c1)) ∅
                  (Hup' (tick (tick c1)) Hd1) Hcol)).
    by rewrite map_to_list_empty.
Qed.

Lemma retrieval_is_best_effort_witness :
  fst (queryRelevantFiles compareUnits (u "p1") (u "button") 5 unreachableStore)
  = Ok {| r_files := []; r_structure := [] |}
  /\ fst (queryRelevantFiles compareUnits (u "p1") (u "button") 5 emptyStore)
     = Ok {| r_files := []; r_structure := u "Empty project" |}.
Proof.
  destruct (retrieval_is_best_effort compareUnits (u "p1") (u "button") 5
              unreachableStore) as (_ & Hdown & _).
  destruct (retrieval_is_best_effort compareUnits (u "p1") (u "button") 5
              emptyStore) as (_ & _ & Hempty).
  split.
  - apply Hdown. left. by eexists.
  - apply Hempty; [done|by left].
Defined.

(** ** The index *)




Lemma rows_of_files (now : nat -> N) (projectId : list N)
      (files : list FileInput) :
  zip (map (fun f => fileId projectId (fi_path f)) files)
      (zip_with (fun d m => {| document := d; metadata := m |})
         (map (fun f => orDefault (fi_content f) []) files)
         (imap (fun idx f =>
                  {| md_path := fi_path f;
                     md_language := orDefault (fi_language f) (u "text");
                     md_lastModified := now idx |}) files))
  = rowsOf now projectId 0 files.
Proof.
  unfold rowsOf.
  assert (forall k,
    zip (map (fun f => fileId projectId (fi_path f)) files)
      (zip_with (fun d m => {| document := d; metadata := m |})
         (map (fun f => orDefault (fi_content f) []) files)
         (imap (fun idx f =>
                  {| md_path := fi_path f;
                     md_language := orDefault (fi_language f) (u "text");
                     md_lastModified := now (k + idx) |}) files))
    = imap (fun idx f => (fileId projectId (fi_path f),
                          entryOf (now (k + idx)) f)) files) as H.
  { induction files as [|f files IH]; intros k; [done|].
    cbn [map imap zip zip_with]. f_equal.
    specialize (IH (S k)).
    rewrite (imap_ext _ (fun idx f0 =>
               {| md_path := fi_path f0;
                  md_language := orDefault (fi_language f0) (u "text");
                  md_lastModified := now (S k + idx) |})).
    2:{ intros i x _. cbn. do 2 f_equal. lia. }
    etrans; [exact IH|]. apply imap_ext. intros i x _. cbn.
    do 3 f_equal. lia. }
  apply (H 0).
Qed.

Lemma upsertAll_keyed (projectId : list N) (rows : list (list N * Entry))
      (col : gmap (list N) Entry) :
  Forall (fun row => fst row = fileId projectId (md_path (metadata (snd row))))
         rows ->
  keyed projectId col -> keyed projectId (upsertAll rows col).
Proof.
  unfold upsertAll. intros Hrows. revert col.
  induction Hrows as [|[id e] rows Hrow _ IH]; intros col Hcol; [done|].
  cbn [fold_left fst snd]. apply IH. intros id' e'.
  destruct (decide (id = id')) as [<-|Hne].
  - rewrite lookup_insert_eq. by intros [= <-].
  - rewrite lookup_insert_ne by done. apply Hcol.
Qed.

Lemma rowsOf_keyed (now : nat -> N) (projectId : list N) (start : nat)
      (files : list FileInput) :
  Forall (fun row => fst row = fileId projectId (md_path (metadata (snd row))))
         (rowsOf now projectId start files).
Proof.
  unfold rowsOf. revert start.
  induction files as [|f files IH]; intros start; [done|].
  cbn [imap]. constructor; [done|].
  rewrite (imap_ext _ (fun idx f0 => (fileId projectId (fi_path f0),
                                      entryOf (now (S start + idx)) f0))).
  - apply IH.
  - intros i x _. cbn. do 3 f_equal. lia.
Qed.

Lemma deleteAll_keyed (projectId : list N) (ids : list (list N))
      (col : gmap (list N) Entry) :
  keyed projectId col -> keyed projectId (deleteAll ids col).
Proof.
  unfold deleteAll. revert col.
  induction ids as [|id ids IH]; intros col Hcol; [done|].
  cbn [fold_left]. apply IH. intros id' e'.
  destruct (decide (id = id')) as [<-|Hne].
  - by rewrite lookup_delete_eq.
  - rewrite lookup_delete_ne by done. apply Hcol.
Qed.

(** [collection.upsert] either leaves the collection as it was, or writes
    every row of the batch. *)
Lemma collection_upsert_outcome (name : list N) (documents : list (list N))
      (metadatas : list Metadata) (ids : list (list N)) (c : Chroma)
      (col : gmap (list N) Entry) :
  collections c !! name = Some col ->
  let rows := zip ids (zip_with (fun d m => {| document := d; metadata := m |})
                                documents metadatas) in
  let out := collection_upsert name documents metadatas ids c in
  down (snd out) = down c
  /\ ((collections (snd out) = collections c)
      \/ (fst out = Ok tt
          /\ collections (snd out) = <[name := upsertAll rows col]> (collections c)))
  /\ (down c (calls c) = None -> NoDup ids ->
      fst out = Ok tt
      /\ collections (snd out) = <[name := upsertAll rows col]> (collections c)).
Proof.
  intros Hcol rows out. subst out. unfold collection_upsert.
  destruct (down c (calls c)) as [e|] eqn:E.
  - rewrite (bind_throw _ _ c (tick c) e) by by apply reach_down.
    cbn [fst snd tick down collections]. split; [done|]. split; [by left|done].
  - rewrite (bind_ok _ _ c (tick c) tt) by by apply reach_up.
    rewrite (bind_ok _ _ (tick c) (tick c) (tick c)) by done.
    cbn [tick collections]. rewrite Hcol.
    destruct (decide (NoDup ids)) as [Hnd|Hnd].
    + rewrite bool_decide_true by done.
      cbn [put fst snd withCollections down collections].
      split; [done|]. split; [by right|done].
    + rewrite bool_decide_false by done.
      cbn [throw fst snd down collections]. split; [done|]. split; [by left|done].
Qed.

Lemma collection_delete_outcome (name : list N) (ids : list (list N))
      (c : Chroma) (col : gmap (list N) Entry) :
  collections c !! name = Some col ->
  let out := collection_delete name ids c in
  down (snd out) = down c
  /\ ((collections (snd out) = collections c)
      \/ (fst out = Ok tt
          /\ collections (snd out) = <[name := deleteAll ids col]> (collections c)))
  /\ (down c (calls c) = None ->
      fst out = Ok tt
      /\ collections (snd out) = <[name := deleteAll ids col]> (collections c)).
Proof.
  intros Hcol out. subst out. unfold collection_delete.
  destruct (down c (calls c)) as [e|] eqn:E.
  - rewrite (bind_throw _ _ c (tick c) e) by by apply reach_down.
    cbn [fst snd tick down collections]. split; [done|]. split; [by left|done].
  - rewrite (bind_ok _ _ c (tick c) tt) by by apply reach_up.
    rewrite (bind_ok _ _ (tick c) (tick c) (tick c)) by done.
    cbn [tick collections]. rewrite Hcol.
    cbn [put fst snd withCollections down collections].
    split; [done|]. split; [by right|done].
Qed.

Lemma tryCatch_rethrow {S A} (m : M S A) (s : S) :
  tryCatch m (fun error => throw error) s = m s.
Proof. unfold tryCatch, throw. by destruct (m s) as [[a|e] s']. Qed.

Lemma ensure_collection (projectId : list N) (c : Chroma) :
  collections (ensure (collectionName projectId) (tick c))
  !! collectionName projectId = Some (projectIndex projectId c).
Proof. by rewrite ensure_lookup. Qed.

(** What [upsertFiles] does to the index of the project: nothing, or it
    writes the row of every file; the latter for sure when the store answers
    its two calls and the batch names no identifier twice. *)
Lemma upsertFiles_outcome (now : nat -> N) (projectId : list N)
      (files : list FileInput) (c : Chroma) :
  let out := upsertFiles now projectId files c in
  down (snd out) = down c
  /\ (projectIndex projectId (snd out) = projectIndex projectId c
      \/ projectIndex projectId (snd out)
         = upsertAll (rowsOf now projectId 0 files) (projectIndex projectId c))
  /\ (files ≠ [] -> down c (calls c) = None -> down c (S (calls c)) = None ->
      NoDup (map (fun f => fileId projectId (fi_path f)) files) ->
      fst out = Ok tt
      /\ projectIndex projectId (snd out)
         = upsertAll (rowsOf now projectId 0 files) (projectIndex projectId c)).
Proof.
  intros out. subst out. unfold upsertFiles. rewrite tryCatch_rethrow.
  destruct files as [|f files]; [cbn; by repeat split; try left|].
  set (fs := f :: files).
  destruct (down c (calls c)) as [e|] eqn:E.
  - rewrite (bind_throw _ _ c (tick c) e) by by apply getOrCreateCollection_down.
    cbn [fst snd tick down]. split; [done|]. split; [by left|done].
  - rewrite (bind_ok _ _ c _ _ (getOrCreateCollection_up projectId c E)).
    set (c1 := ensure (collectionName projectId) (tick c)).
    pose proof (ensure_collection projectId c) as Hcol. fold c1 in Hcol.
    destruct (collection_upsert_outcome (collectionName projectId)
                (map (fun f => orDefault (fi_content f) []) fs)
                (imap (fun idx f =>
                         {| md_path := fi_path f;
                            md_language := orDefault (fi_language f) (u "text");
                            md_lastModified := now idx |}) fs)
                (map (fun f => fileId projectId (fi_path f)) fs)
                c1 _ Hcol) as (Hdown & Hcases & Hsure).
    rewrite rows_of_files in Hcases, Hsure.
    assert (down c1 = down c) as Hd1
        by apply (ensure_down (collectionName projectId) (tick c)).
    assert (calls c1 = S (calls c)) as Hc1
        by apply (ensure_down (collectionName projectId) (tick c)).
    split; [by rewrite Hdown|]. split.
    + destruct Hcases as [Hsame|[_ Hnew]]; [left|right];
        unfold projectIndex at 1.
      * by rewrite Hsame, Hcol.
      * by rewrite Hnew, lookup_insert_eq.
    + intros _ _ Hup2 Hnd. rewrite Hd1, Hc1 in Hsure.
      destruct (Hsure Hup2 Hnd) as [Hok Hnew]. split; [done|].
      unfold projectIndex at 1. by rewrite Hnew, lookup_insert_eq.
Qed.

Lemma deleteFiles_outcome (projectId : list N) (filePaths : list (list N))
      (c : Chroma) :
  let out := deleteFiles projectId filePaths c in
  let ids := map (fun path => fileId projectId path) filePaths in
  down (snd out) = down c
  /\ (projectIndex projectId (snd out) = projectIndex projectId c
      \/ projectIndex projectId (snd out)
         = deleteAll ids (projectIndex projectId c))
  /\ (down c (calls c) = None -> down c (S (calls c)) = None ->
      fst out = Ok tt
      /\ projectIndex projectId (snd out)
         = deleteAll ids (projectIndex projectId c)).
Proof.
  intros out ids. subst out ids. unfold deleteFiles. rewrite tryCatch_rethrow.
  destruct (down c (calls c)) as [e|] eqn:E.
  - rewrite (bind_throw _ _ c (tick c) e) by by apply getOrCreateCollection_down.
    cbn [fst snd tick down]. split; [done|]. split; [by left|done].
  - rewrite (bind_ok _ _ c _ _ (getOrCreateCollection_up projectId c E)).
    set (c1 := ensure (collectionName projectId) (tick c)).
    pose proof (ensure_collection projectId c) as Hcol. fold c1 in Hcol.
    destruct (collection_delete_outcome (collectionName projectId)
                (map (fun path => fileId projectId path) filePaths) c1 _ Hcol)
      as (Hdown & Hcases & Hsure).
    assert (down c1 = down c) as Hd1
        by apply (ensure_down (collectionName projectId) (tick c)).
    assert (calls c1 = S (calls c)) as Hc1
        by apply (ensure_down (collectionName projectId) (tick c)).
    split; [by rewrite Hdown|]. split.
    + destruct Hcases as [Hsame|[_ Hnew]]; [left|right];
        unfold projectIndex at 1.
      * by rewrite Hsame, Hcol.
      * by rewrite Hnew, lookup_insert_eq.
    + intros _ Hup2. rewrite Hd1, Hc1 in Hsure.
      destruct (Hsure Hup2) as [Hok Hnew]. split; [done|].
      unfold projectIndex at 1. by rewrite Hnew, lookup_insert_eq.
Qed.

(** The index stays keyed by path under every call of [upsertFiles] and of
    [deleteFiles], whatever the batch and whether the store answers or not. *)
Lemma upsertFiles_keyed (now : nat -> N) (projectId : list N)
      (files : list FileInput) (c : Chroma) :
  keyed projectId (projectIndex projectId c) ->
  keyed projectId (projectIndex projectId (snd (upsertFiles now projectId files c))).
Proof.
  intros Hk.
  destruct (upsertFiles_outcome now projectId files c) as (_ & [-> | ->] & _);
    [done|].
  apply upsertAll_keyed; [apply rowsOf_keyed|done].
Qed.

Lemma deleteFiles_keyed (projectId : list N) (filePaths : list (list N))
      (c : Chroma) :
  keyed projectId (projectIndex projectId c) ->
  keyed projectId (projectIndex projectId (snd (deleteFiles projectId filePaths c))).
Proof.
  intros Hk.
  destruct (deleteFiles_outcome projectId filePaths c) as (_ & [-> | ->] & _);
    [done|].
  by apply deleteAll_keyed.
Qed.

(** In a keyed index two entries of the same path are one entry. *)
Lemma keyed_one_entry_per_path (projectId : list N)
      (col : gmap (list N) Entry) (id1 id2 : list N) (e1 e2 : Entry) :
  keyed projectId col ->
  col !! id1 = Some e1 -> col !! id2 = Some e2 ->
  md_path (metadata e1) = md_path (metadata e2) ->
  id1 = id2 /\ e1 = e2.
Proof.
  intros Hk H1 H2 Hp.
  assert (id1 = id2) as <-.
  { rewrite (Hk _ _ H1), (Hk _ _ H2). by rewrite Hp. }
  split; [done|]. congruence.
Qed.

(** C6: in an index that the service wrote, so that every entry sits under
    the identifier of its path, upserting a path twice leaves exactly one
    entry of that path, with the document and the metadata of the second
    upsert; deleting the path then leaves no entry of it; and the index
    stays keyed, so that it never holds two entries of one path. *)
Theorem index_holds_one_entry_per_path (now1 now2 : nat -> N)
        (projectId : list N) (f1 f2 : FileInput) (c : Chroma) :
  alwaysUp c ->
  keyed projectId (projectIndex projectId c) ->
  fi_path f1 = fi_path f2 ->
  let c1 := snd (upsertFiles now1 projectId [f1] c) in
  let c2 := snd (upsertFiles now2 projectId [f2] c1) in
  let c3 := snd (deleteFiles projectId [fi_path f2] c2) in
  (forall id e,
      projectIndex projectId c2 !! id = Some e
      /\ md_path (metadata e) = fi_path f2
      <-> id = fileId projectId (fi_path f2) /\ e = entryOf (now2 0) f2)
  /\ projectIndex projectId c3 !! fileId projectId (fi_path f2) = None
  /\ (forall id e, projectIndex projectId c3 !! id = Some e ->
                   md_path (metadata e) ≠ fi_path f2)
  /\ keyed projectId (projectIndex projectId c2)
  /\ keyed projectId (projectIndex projectId c3)
  /\ (forall id1 id2 e1 e2,
        projectIndex projectId c2 !! id1 = Some e1 ->
        projectIndex projectId c2 !! id2 = Some e2 ->
        md_path (metadata e1) = md_path (metadata e2) ->
        id1 = id2 /\ e1 = e2).
Proof.
  intros Hup Hk Hpath c1 c2 c3.
  assert (NoDup_single : forall f : FileInput,
             NoDup (map (fun f => fileId projectId (fi_path f)) [f])).
  { intros f. apply NoDup_singleton. }
  destruct (upsertFiles_outcome now1 projectId [f1] c) as (Hd1 & _ & H1).
  destruct (H1 ltac:(done) (Hup _) (Hup _) (NoDup_single f1)) as [_ Hi1].
  fold c1 in Hd1, Hi1.
  destruct (upsertFiles_outcome now2 projectId [f2] c1) as (Hd2 & _ & H2).
  rewrite Hd1 in H2.
  destruct (H2 ltac:(done) (Hup _) (Hup _) (NoDup_single f2)) as [_ Hi2].
  fold c2 in Hd2, Hi2.
  destruct (deleteFiles_outcome projectId [fi_path f2] c2) as (Hd3 & _ & H3).
  rewrite Hd2, Hd1 in H3.
  destruct (H3 (Hup _) (Hup _)) as [_ Hi3]. fold c3 in Hi3.
  assert (keyed projectId (projectIndex projectId c2)) as Hk2.
  { by apply upsertFiles_keyed, upsertFiles_keyed. }
  assert (keyed projectId (projectIndex projectId c3)) as Hk3.
  { by apply deleteFiles_keyed. }
  cbn [rowsOf imap upsertAll fold_left fst snd Nat.add] in Hi1, Hi2.
  cbn [map deleteAll fold_left] in Hi3.
  split; [|split; [|split; [|split; [done|split; [done|]]]]].
  4:{ intros id1 id2 e1 e2. by apply (keyed_one_entry_per_path projectId). }
  - intros id e. split.
    + intros [Hl Hp].
      assert (id = fileId projectId (fi_path f2)) as ->
          by (by rewrite (Hk2 _ _ Hl), Hp).
      split; [done|]. rewrite Hi2, lookup_insert_eq in Hl. congruence.
    + intros [-> ->]. by rewrite Hi2, lookup_insert_eq.
  - by rewrite Hi3, lookup_delete_eq.
  - intros id e Hl Hp.
    assert (id = fileId projectId (fi_path f2)) as ->
        by (by rewrite (Hk3 _ _ Hl), Hp).
    by rewrite Hi3, lookup_delete_eq in Hl.
Qed.

Lemma index_holds_one_entry_per_path_witness :
  let f1 := {| fi_path := u "src/a.js"; fi_content := VStr (u "v1");
               fi_language := VStr (u "js") |} in
  let f2 := {| fi_path := u "src/a.js"; fi_content := VStr (u "v2");
               fi_language := VUndefined |} in
  let c2 := snd (upsertFiles (fun _ => 2%N) (u "p1") [f2]
                   (snd (upsertFiles (fun _ => 1%N) (u "p1") [f1] emptyStore))) in
  let c3 := snd (deleteFiles (u "p1") [u "src/a.js"] c2) in
  projectIndex (u "p1") c2 !! u "p1_src_a.js"
  = Some {| document := u "v2";
            metadata := {| md_path := u "src/a.js"; md_language := u "text";
                           md_lastModified := 2 |} |}
  /\ projectIndex (u "p1") c3 !! u "p1_src_a.js" = None.
Proof.
  intros f1 f2 c2 c3.
  destruct (index_holds_one_entry_per_path (fun _ => 1%N) (fun _ => 2%N)
              (u "p1") f1 f2 emptyStore) as (H2 & H3 & _).
  - by intros i.
  - intros id e H. unfold projectIndex in H.
    cbn [emptyStore collections] in H. rewrite lookup_empty in H.
    cbn [default] in H. by rewrite lookup_empty in H.
  - done.
  - split; [|exact H3].
    by apply (H2 (u "p1_src_a.js") (entryOf 2 f2)).
Defined.

(** ** Renaming a file onto itself *)

Lemma connect_up (db : Postgres) :
  pg_down db (pg_calls db) = None ->
  connect db = (Ok (pg_calls db), pg_tick db).
Proof. unfold connect. by intros ->. Qed.

(** A statement that is not rejected goes through. *)
Lemma client_query_up {A} (statement : M Postgres A) (db : Postgres) :
  pg_down db (pg_calls db) = None ->
  client_query (pg_calls db) statement (pg_tick db) = statement (pg_tick db).
Proof. unfold client_query. cbn [pg_tick pg_down]. by intros ->. Qed.

Lemma readFile_found (projectId path : list N) (db : Postgres) (row : FileRow) :
  pg_down db (pg_calls db) = None ->
  rows db !! (projectId, path) = Some row ->
  readFile projectId path db = (Ok row, pg_tick db).
Proof.
  intros Hup Hrow. unfold readFile.
  rewrite (bind_ok _ _ db (pg_tick db) (pg_calls db)) by by apply connect_up.
  rewrite tryCatch_rethrow.
  rewrite (bind_ok _ _ (pg_tick db) (pg_tick db) (Some row)); [done|].
  rewrite client_query_up by done.
  rewrite (bind_ok _ _ (pg_tick db) (pg_tick db) (pg_tick db)) by done.
  cbn [pg_tick rows]. by rewrite Hrow.
Qed.

Lemma saveFile_string (projectId path content : list N) (language : value)
      (db : Postgres) :
  pg_down db (pg_calls db) = None ->
  let row := {| row_project_id := projectId; row_path := path;
                row_content := VStr content;
                row_language := defaultText language |} in
  saveFile projectId path (VStr content) language db
  = (Ok row, withRows (insert (projectId, path) row) (pg_tick db)).
Proof.
  intros Hup row. unfold saveFile.
  rewrite (bind_ok _ _ db (pg_tick db) (pg_calls db)) by by apply connect_up.
  rewrite tryCatch_rethrow, client_query_up by done.
  rewrite (bind_ok _ _ (pg_tick db) (pg_tick db) (pg_tick db)) by done.
  by rewrite (bind_ok _ _ (pg_tick db)
                (withRows (insert (projectId, path) row) (pg_tick db)) tt).
Qed.

Lemma deleteFile_found (projectId path : list N) (db : Postgres) (row : FileRow) :
  pg_down db (pg_calls db) = None ->
  rows db !! (projectId, path) = Some row ->
  deleteFile projectId path db
  = (Ok row, withRows (delete (projectId, path)) (pg_tick db)).
Proof.
  intros Hup Hrow. unfold deleteFile.
  rewrite (bind_ok _ _ db (pg_tick db) (pg_calls db)) by by apply connect_up.
  rewrite tryCatch_rethrow.
  rewrite (bind_ok _ _ (pg_tick db)
             (withRows (delete (projectId, path)) (pg_tick db)) (Some row));
    [done|].
  rewrite client_query_up by done.
  rewrite (bind_ok _ _ (pg_tick db) (pg_tick db) (pg_tick db)) by done.
  cbn [pg_tick rows]. rewrite Hrow.
  by rewrite (bind_ok _ _ (pg_tick db)
                (withRows (delete (projectId, path)) (pg_tick db)) tt).
Qed.

Lemma onPg_run {A} (m : M Postgres A) (db db' : Postgres) (c : Chroma)
      (r : result A) :
  m db = (r, db') ->
  onPg m {| pg := db; chroma := c |} = (r, {| pg := db'; chroma := c |}).
Proof. unfold onPg. cbn [pg chroma]. by intros ->. Qed.

Lemma onChroma_run {A} (m : M Chroma A) (db : Postgres) (c c' : Chroma)
      (r : result A) :
  m c = (r, c') ->
  onChroma m {| pg := db; chroma := c |} = (r, {| pg := db; chroma := c' |}).
Proof. unfold onChroma. cbn [pg chroma]. by intros ->. Qed.

Lemma falsy_string (s : list N) : s ≠ [] -> falsy (VStr s) = false.
Proof. by destruct s. Qed.

(** C9: renaming an existing file onto its own path answers 200 and leaves
    no row of that path in the relational store, the upsert of the copy
    being undone by the delete of the old path, while the vector index holds
    an entry for the path: the two stores differ. *)
Theorem rename_onto_itself_diverges (now : nat -> N)
        (projectId path content : list N) (row : FileRow) (w : World) :
  pgAlwaysUp (pg w) -> alwaysUp (chroma w) ->
  projectId ≠ [] -> path ≠ [] ->
  rows (pg w) !! (projectId, path) = Some row ->
  row_content row = VStr content ->
  let out := rename now (VStr projectId) (VStr path) (VStr path) w in
  (exists file, fst out = Ok {| status := 200; body := Success file |})
  /\ rows (pg (snd out)) !! (projectId, path) = None
  /\ projectIndex projectId (chroma (snd out)) !! fileId projectId path
     = Some (entryOf (now 0) {| fi_path := path;
                                fi_content := row_content row;
                                fi_language := row_language row |}).
Proof.
  intros Hpg Hch Hpid Hpath Hrow Hcontent out. subst out.
  destruct w as [db ch]. cbn [pg chroma] in *.
  set (db1 := pg_tick db).
  set (saved := {| row_project_id := projectId; row_path := path;
                   row_content := VStr content;
                   row_language := defaultText (row_language row) |}).
  set (db2 := withRows (insert (projectId, path) saved) (pg_tick db1)).
  set (db3 := withRows (delete (projectId, path)) (pg_tick db2)).
  destruct (deleteFiles_outcome projectId [path] ch) as (Hd1 & _ & Hdel).
  destruct (Hdel (Hch _) (Hch _)) as [Hok1 Hi1]. clear Hdel.
  destruct (deleteFiles projectId [path] ch) as [r1 ch1] eqn:E1.
  cbn [fst snd] in Hd1, Hok1, Hi1. subst r1.
  set (f := {| fi_path := path; fi_content := row_content row;
               fi_language := row_language row |}).
  destruct (upsertFiles_outcome now projectId [f] ch1) as (Hd2 & _ & Hups).
  rewrite Hd1 in Hups.
  destruct (Hups ltac:(done) (Hch _) (Hch _) (NoDup_singleton _)) as [Hok2 Hi2].
  clear Hups.
  destruct (upsertFiles now projectId [f] ch1) as [r2 ch2] eqn:E2.
  cbn [fst snd] in Hd2, Hok2, Hi2. subst r2.
  assert (rename now (VStr projectId) (VStr path) (VStr path)
                 {| pg := db; chroma := ch |}
          = (Ok {| status := 200; body := Success saved |},
             {| pg := db3; chroma := ch2 |})) as Hrun.
  { unfold rename. rewrite !falsy_string by done. cbn [orb text].
    apply tryCatch_ok.
    rewrite (bind_ok _ _ _ _ _
               (onPg_run _ _ _ ch _ (readFile_found _ _ db row (Hpg _) Hrow))).
    rewrite Hcontent.
    rewrite (bind_ok _ _ _ _ _
               (onPg_run _ _ _ ch _
                  (saveFile_string projectId path content (row_language row)
                     db1 (Hpg _)))).
    rewrite (bind_ok _ _ _ {| pg := db3; chroma := ch |} saved).
    2:{ apply onPg_run. unfold db3, db2, saved.
        apply deleteFile_found; [apply Hpg|].
        cbn [withRows rows]. by rewrite lookup_insert_eq. }
    rewrite (bind_ok _ _ _ _ _ (onChroma_run _ db3 _ _ _ E1)).
    rewrite (bind_ok _ _ {| pg := db3; chroma := ch1 |}
               {| pg := db3; chroma := ch2 |} tt).
    2:{ apply onChroma_run. rewrite <- Hcontent. exact E2. }
    done. }
  rewrite Hrun.
  cbn [fst snd pg chroma]. split; [by eexists|]. split.
  - cbn [db3 withRows rows]. by rewrite lookup_delete_eq.
  - rewrite Hi2. cbn [rowsOf imap upsertAll fold_left fst snd Nat.add].
    by rewrite lookup_insert_eq.
Qed.

Lemma rename_onto_itself_diverges_witness :
  let out := rename (fun _ => 7%N) (VStr (u "p1")) (VStr (u "a.js"))
                    (VStr (u "a.js")) oneFileWorld in
  (exists file, fst out = Ok {| status := 200; body := Success file |})
  /\ rows (pg (snd out)) !! (u "p1", u "a.js") = None
  /\ projectIndex (u "p1") (chroma (snd out)) !! u "p1_a.js"
     = Some {| document := u "let a;";
               metadata := {| md_path := u "a.js";
                              md_language := u "javascript";
                              md_lastModified := 7 |} |}.
Proof.
  apply (rename_onto_itself_diverges (fun _ => 7%N) (u "p1") (u "a.js")
           (u "let a;")
           {| row_project_id := u "p1"; row_path := u "a.js";
              row_content := VStr (u "let a;");
              row_language := VStr (u "javascript") |} oneFileWorld).
  - by intros i.
  - by intros i.
  - done.
  - done.
  - apply lookup_singleton_eq.
  - done.
Defined.

(** * Further properties of the code *)

(** ** What the parser returns *)

Lemma trimStart_head (s : list N) (c : N) :
  head (trimStart s) = Some c -> isWhiteSpace c = false.
Proof.
  induction s as [|x s IH]; [done|]. cbn [trimStart].
  destruct (isWhiteSpace x) eqn:E; [done|]. by intros [= <-].
Qed.

Lemma trimEnd_prefix (s : list N) : trimEnd s `prefix_of` s.
Proof.
  unfold trimEnd. destruct (trimStart_suffix (rev s)) as [k Hk].
  exists (rev k). apply (f_equal (@rev N)) in Hk.
  by rewrite rev_involutive, rev_app_distr in Hk.
Qed.

Lemma trim_tidy (s : list N) : tidy (trim s).
Proof.
  unfold trim. split; intros c Hc.
  - apply (trimStart_head s).
    destruct (trimEnd_prefix (trimStart s)) as [k Hk]. rewrite Hk.
    by destruct (trimEnd (trimStart s)).
  - unfold trimEnd in Hc. rewrite rev_alt in Hc.
    change (rev_append ?l []) with (reverse l) in Hc.
    rewrite last_reverse in Hc. by apply trimStart_head in Hc.
Qed.

(** [trim] returns a segment of its argument. *)
Lemma trim_segment (s : list N) : exists a b, s = a ++ trim s ++ b.
Proof.
  unfold trim. destruct (trimEnd_prefix (trimStart s)) as [b Hb].
  destruct (trimStart_suffix s) as [a Ha].
  exists a, b. by rewrite <- Hb.
Qed.

Lemma trim_Forall (P : N -> Prop) (s : list N) : Forall P s -> Forall P (trim s).
Proof.
  destruct (trim_segment s) as (a & b & Hs). rewrite Hs at 1.
  by intros [_ [H _]%Forall_app]%Forall_app.
Qed.

Lemma leadingNewlines_collapseRuns (s : list N) (seen : nat) :
  seen <= 2 -> leadingNewlines (collapseRuns s seen) + seen <= 2.
Proof.
  revert seen; induction s as [|c s IH]; intros seen Hseen; [simpl; lia|].
  cbn [collapseRuns]. destruct (isNewline c) eqn:E.
  - destruct (Nat.leb_spec 2 seen).
    + by apply IH.
    + cbn [leadingNewlines]. rewrite E. specialize (IH (S seen)). lia.
  - cbn [leadingNewlines]. rewrite E. lia.
Qed.

Lemma startsWith_newlines (s : list N) :
  startsWith [nl; nl; nl] s = true -> 3 <= leadingNewlines s.
Proof.
  destruct s as [|a [|b [|c s]]]; cbn [startsWith]; rewrite ?andb_false_r;
    try done.
  cbn [leadingNewlines].
  unfold isNewline.
  destruct (N.eqb_spec nl a), (N.eqb_spec nl b), (N.eqb_spec nl c); try done.
  subst. cbn. lia.
Qed.

(** What is left of the runs of newlines holds no three newlines in a
    row. *)
Lemma collapseRuns_no_triple (s : list N) (seen : nat) :
  seen <= 2 -> includes [nl; nl; nl] (collapseRuns s seen) = false.
Proof.
  revert seen; induction s as [|c s IH]; intros seen Hseen; [done|].
  cbn [collapseRuns]. destruct (isNewline c) eqn:E.
  - destruct (Nat.leb_spec 2 seen); [by apply IH|].
    rewrite includes_cons, IH by lia. rewrite orb_false_r.
    apply not_true_is_false. intros Hs%startsWith_newlines.
    cbn [leadingNewlines] in Hs. rewrite E in Hs.
    pose proof (leadingNewlines_collapseRuns s (S seen)). lia.
  - rewrite includes_cons, IH by lia. rewrite orb_false_r.
    cbn [startsWith]. unfold isNewline in E.
    rewrite N.eqb_sym in E. by rewrite E.
Qed.

Lemma parseClaudeResponse_message (raw : list N) (r : ParsedResponse) :
  parseClaudeResponse raw = Some r ->
  exists cleanedMessage, message r = cleanMessage cleanedMessage.
Proof.
  unfold parseClaudeResponse. destruct (parseLoop _ _ _ _ _) as [[fs cm]|]; [|done].
  intros [= <-]. by exists cm.
Qed.

(** X1: the message of every parsed response is tidy: it neither starts nor
    ends with white space, and it holds no three newlines in a row. *)
Theorem message_is_tidy (raw : list N) :
  exists r,
    parseClaudeResponse raw = Some r
    /\ tidy (message r)
    /\ includes [nl; nl; nl] (message r) = false.
Proof.
  destruct (parseClaudeResponse_returns raw) as [r Hr]. exists r.
  split; [done|].
  destruct (parseClaudeResponse_message raw r Hr) as [cm ->].
  rewrite cleanMessage_eq. split; [apply trim_tidy|].
  apply not_true_is_false. intros H%trim_includes.
  rewrite collapseRuns_no_triple in H by lia. done.
Qed.

(** The text in front of the first occurrence of [p] holds no [p]. *)
Lemma indexOf_take (p s : list N) (j : nat) :
  p ≠ [] -> indexOf p s = Some j -> includes p (take j s) = false.
Proof.
  intros Hp (Hj & _ & Hbefore)%indexOf_Some.
  apply not_true_is_false. intros (a & b & Hab)%includes_spec.
  assert (length a < j) as Ha.
  { apply (f_equal length) in Hab. rewrite length_take, !length_app in Hab.
    destruct p; [done|]. simpl in Hab. lia. }
  specialize (Hbefore _ Ha).
  rewrite <- (take_drop j s), Hab, <- !app_assoc, drop_app_length in Hbefore.
  by rewrite startsWith_app in Hbefore.
Qed.

(** The three groups of a match of the file pattern: a path and a language
    that are not empty and hold no double quote, and a content that holds
    no closing tag. *)
Lemma matchHere_file_groups (s rest : list N) (caps : list (list N)) :
  matchHere fileRegex s = Some (rest, caps) ->
  exists p l c,
    caps = [p; l; c]
    /\ p ≠ [] /\ Forall (fun x => notQuote x = true) p
    /\ l ≠ [] /\ Forall (fun x => notQuote x = true) l
    /\ includes (u "</file>") c = false.
Proof.
  unfold matchHere, fileRegex. cbn [rmatch]. intros H.
  destruct (startsWith (u "<file") s) eqn:Hopen; [|done].
  apply greedy_suffix in H as (r1 & S1 & L1 & H).
  destruct (startsWith _ r1) eqn:E1; [|done].
  apply greedy_run in H as (p & r2 & Hp & Fp & Lp & H).
  destruct (startsWith _ r2) eqn:E2; [|done].
  apply greedy_suffix in H as (r3 & S3 & L3 & H).
  destruct (startsWith _ r3) eqn:E3; [|done].
  apply greedy_run in H as (l & r4 & Hl & Fl & Ll & H).
  destruct (startsWith _ r4) eqn:E4; [|done].
  rewrite Hp, Hl, !take_consumed in H. cbn [app] in H.
  set (s5 := drop _ r4) in H.
  rewrite (lazy_find (u "</file>")
             (fun rest => (drop (length (u "</file>")) rest,
                           [p; l; take (length s5 - length rest) s5]))) in H.
  destruct (indexOf (u "</file>") s5) as [j|] eqn:Ej; [|done].
  cbn [option_map] in H. injection H as _ <-.
  exists p, l, (take (length s5 - length (drop j s5)) s5).
  assert (p ≠ []) by (intros ->; simpl in Lp; lia).
  assert (l ≠ []) by (intros ->; simpl in Ll; lia).
  do 5 (split; [done|]).
  pose proof Ej as (Hj & _)%indexOf_Some.
  rewrite length_drop. replace (length s5 - (length s5 - j)) with j by lia.
  by apply indexOf_take.
Qed.

Lemma parseClaudeResponse_files (raw : list N) (r : ParsedResponse) :
  parseClaudeResponse raw = Some r ->
  exists ms,
    files r = map fileOfMatch ms
    /\ Forall (fun m => exists li, exec fileRegex raw li = Some m) ms.
Proof.
  unfold parseClaudeResponse.
  destruct (parseLoop _ _ _ _ _) as [[fs cm]|] eqn:E; [|done].
  intros [= <-]. by apply parseLoop_files in E.
Qed.

(** X2: every file of a parsed response has a path and a language without
    double quote and a content without closing tag [</file>], all three
    free of white space at both ends. *)
Theorem generated_files_are_tidy (raw : list N) (r : ParsedResponse)
        (f : GeneratedFile) :
  parseClaudeResponse raw = Some r -> f ∈ files r ->
  (dq ∉ path f) /\ (dq ∉ language f)
  /\ includes (u "</file>") (content f) = false
  /\ tidy (path f) /\ tidy (language f) /\ tidy (content f).
Proof.
  intros (ms & -> & Hms)%parseClaudeResponse_files
         (m & <- & Hm%list_elem_of_In)%list_elem_of_In%in_map_iff.
  rewrite Forall_forall in Hms.
  destruct (Hms m Hm) as (li & (rest & _ & _ & Hmatch & _)%exec_inv).
  apply matchHere_file_groups in Hmatch as (p & l & c & Hg & _ & Fp & _ & Fl & Hc).
  unfold fileOfMatch. rewrite Hg. cbn [path language content nth].
  assert (forall x : list N, Forall (fun y => notQuote y = true) x -> dq ∉ trim x)
    as Hq.
  { intros x Fx Hin. apply trim_Forall in Fx. rewrite Forall_forall in Fx.
    by specialize (Fx _ Hin). }
  split; [by apply Hq|]. split; [by apply Hq|]. split.
  - apply not_true_is_false. intros H%trim_includes. congruence.
  - repeat split; apply trim_tidy.
Qed.

Lemma generated_files_are_tidy_witness :
  (dq ∉ path sampleFile) /\ (dq ∉ language sampleFile)
  /\ includes (u "</file>") (content sampleFile) = false
  /\ tidy (path sampleFile) /\ tidy (language sampleFile)
  /\ tidy (content sampleFile).
Proof.
  apply (generated_files_are_tidy
           (u "Here: " ++ fileTag (u "a.js") (u "js") (u " let a; "))
           {| message := u "Here:"; files := [sampleFile]; thinking := None |}).
  - by vm_compute.
  - apply list_elem_of_singleton. reflexivity.
Defined.

Lemma replaceAll_no_match (r : regex) (rep s : list N) :
  (forall j, matchHere r (drop j s) = None) -> replaceAll r rep s = s.
Proof.
  unfold replaceAll. induction s as [|c s IH]; intros H.
  - rewrite replaceAllFrom_eq. pose proof (H 0) as H0. simpl in H0.
    by rewrite H0.
  - rewrite replaceAllFrom_eq. pose proof (H 0) as H0. simpl in H0.
    rewrite H0. f_equal. apply IH. intros j. apply (H (S j)).
Qed.

Lemma matchHere_thinkingBlock_none (s : list N) :
  startsWith (u "<thinking>") s = false ->
  matchHere thinkingBlockRegex s = None.
Proof.
  unfold matchHere, thinkingBlockRegex. cbn [rmatch]. by intros ->.
Qed.

(** X3: a response that holds neither [<file] nor [<thinking>] is returned as
    the message, trimmed and with two newlines kept of every run of three or
    more; it yields no file and no thinking. *)
Theorem plain_response_is_the_message (raw : list N) :
  includes (u "<file") raw = false ->
  includes (u "<thinking>") raw = false ->
  parseClaudeResponse raw
  = Some {| message := trim (collapseRuns raw 0);
            files := [];
            thinking := None |}.
Proof.
  intros Hfile Hthinking. unfold parseClaudeResponse.
  rewrite parseLoop_no_match.
  2:{ intros j. apply matchHere_file_none. by apply includes_false_drop. }
  rewrite cleanMessage_eq, extractThinking_spec.
  rewrite replaceAll_no_match.
  2:{ intros j. apply matchHere_thinkingBlock_none.
      by apply includes_false_drop. }
  do 2 f_equal. unfold firstThinking.
  unfold includes in Hthinking.
  by destruct (indexOf (u "<thinking>") raw).
Qed.

Lemma plain_response_is_the_message_witness :
  parseClaudeResponse (nl :: u "Use a <div> here." ++ [nl; nl; nl; nl] ++ u "Done. ")
  = Some {| message := u "Use a <div> here." ++ [nl; nl] ++ u "Done.";
            files := [];
            thinking := None |}.
Proof.
  etrans.
  - apply plain_response_is_the_message; by vm_compute.
  - by vm_compute.
Defined.

Lemma firstThinking_no_close (text t : list N) :
  firstThinking text = Some t -> includes (u "</thinking>") t = false.
Proof.
  unfold firstThinking.
  destruct (indexOf (u "<thinking>") text) as [i|]; [|done]. cbv zeta.
  destruct (indexOf (u "</thinking>") _) as [j|] eqn:E; [|done].
  intros [= <-]. by apply indexOf_take.
Qed.

(** X4: the thinking that is extracted holds no closing tag [</thinking>], and
    no white space at either end; there is a thinking exactly when the text
    holds an opening tag with a closing tag somewhere after it. *)
Theorem thinking_is_one_block (text : list N) :
  (forall t, extractThinking text = Some t ->
             includes (u "</thinking>") t = false /\ tidy t)
  /\ (is_Some (extractThinking text) <->
      exists a b c, text = a ++ u "<thinking>" ++ b ++ u "</thinking>" ++ c).
Proof.
  rewrite extractThinking_spec. split.
  - intros t Ht. destruct (firstThinking text) as [t0|] eqn:E; [|done].
    injection Ht as <-. split; [|apply trim_tidy].
    apply not_true_is_false. intros H%trim_includes.
    by rewrite (firstThinking_no_close _ _ E) in H.
  - unfold firstThinking. split.
    + destruct (indexOf (u "<thinking>") text) as [i|] eqn:Ei; [|by intros [? ?]].
      cbv zeta.
      destruct (indexOf (u "</thinking>") _) as [j|] eqn:Ej; [|by intros [? ?]].
      intros _.
      apply indexOf_Some in Ei as (_ & [t Ht]%startsWith_prefix & _).
      apply indexOf_Some in Ej as (_ & [t' Ht']%startsWith_prefix & _).
      exists (take i text),
             (take j (drop (i + length (u "<thinking>")) text)), t'.
      rewrite <- Ht'. rewrite take_drop.
      rewrite <- (take_drop i text) at 1. f_equal.
      rewrite Ht at 1. f_equal.
      rewrite <- drop_drop, Ht. by rewrite drop_app_length.
    + intros (a & b & c & ->).
      destruct (indexOf (u "<thinking>") (a ++ u "<thinking>" ++ b ++ u "</thinking>" ++ c))
        as [i|] eqn:Ei.
      2:{ pose proof (indexOf_None _ _ Ei (length a)) as H.
          by rewrite drop_app_length, startsWith_app in H. }
      cbv zeta.
      destruct (indexOf (u "</thinking>") _) as [j|] eqn:Ej; [done|].
      exfalso.
      pose proof Ei as (_ & _ & Hfirst)%indexOf_Some.
      assert (i <= length a) as Hi.
      { destruct (Nat.le_gt_cases i (length a)) as [|Hlt]; [done|].
        specialize (Hfirst _ Hlt).
        by rewrite drop_app_length, startsWith_app in Hfirst. }
      pose proof (indexOf_None _ _ Ej
                    (length a + length (u "<thinking>") + length b
                     - (i + length (u "<thinking>")))) as H.
      rewrite drop_drop in H.
      replace (i + length (u "<thinking>")
               + (length a + length (u "<thinking>") + length b
                  - (i + length (u "<thinking>"))))
        with (length (a ++ u "<thinking>" ++ b)) in H
        by (rewrite !length_app; lia).
      rewrite !app_assoc, <- (app_assoc _ (u "</thinking>") c) in H.
      rewrite <- !app_assoc in H.
      replace (a ++ u "<thinking>" ++ b ++ u "</thinking>" ++ c)
        with ((a ++ u "<thinking>" ++ b) ++ u "</thinking>" ++ c) in H
        by (by rewrite <- !app_assoc).
      by rewrite drop_app_length, startsWith_app in H.
Qed.

(** ** What the calls of the vector store leave alone *)

Section Preserves.
Context {S : Type} (P : S -> S -> Prop) `{!Reflexive P, !Transitive P}.

Lemma preserves_ret {A} (a : A) : preserves P (ret a).
Proof. intros s. reflexivity. Qed.

Lemma preserves_throw {A} (e : list N) : preserves P (@throw S A e).
Proof. intros s. reflexivity. Qed.

Lemma preserves_bind {A B} (m : M S A) (f : A -> M S B) :
  preserves P m -> (forall a, preserves P (f a)) -> preserves P (bind m f).
Proof.
  intros Hm Hf s. unfold bind. specialize (Hm s).
  destruct (m s) as [[a|e] s']; [|done].
  etrans; [exact Hm|apply Hf].
Qed.

Lemma preserves_tryCatch {A} (m : M S A) (h : list N -> M S A) :
  preserves P m -> (forall e, preserves P (h e)) -> preserves P (tryCatch m h).
Proof.
  intros Hm Hh s. unfold tryCatch. specialize (Hm s).
  destruct (m s) as [[a|e] s']; [done|].
  etrans; [exact Hm|apply Hh].
Qed.
End Preserves.

#[local] Instance sameIndexes_refl : Reflexive sameIndexes.
Proof. by intros c q. Qed.
#[local] Instance sameIndexes_trans : Transitive sameIndexes.
Proof. intros c1 c2 c3 H12 H23 q. by rewrite H23, H12. Qed.
#[local] Instance sameElsewhere_refl name : Reflexive (sameElsewhere name).
Proof. by intros c other _. Qed.
#[local] Instance sameElsewhere_trans name : Transitive (sameElsewhere name).
Proof. intros c1 c2 c3 H12 H23 other Hne. by rewrite H23, H12. Qed.

(** A call of the client, past [reach] and [get]. *)
Lemma client_call {A} (k : Chroma -> M Chroma A) (c : Chroma) :
  (do! reach in let! c' := get in k c') c
  = match down c (calls c) with
    | Some e => (Throw e, tick c)
    | None => k (tick c) (tick c)
    end.
Proof.
  unfold bind at 1. unfold reach. by destruct (down c (calls c)).
Qed.

Lemma collectionName_inj (p q : list N) :
  collectionName p = collectionName q -> p = q.
Proof. unfold collectionName. apply app_inv_head. Qed.

Lemma projectIndex_insert_empty (name : list N) (c : Chroma) :
  collections c !! name = None ->
  sameIndexes c (withCollections (insert name ∅) c).
Proof.
  intros Hnone q. unfold projectIndex. cbn [withCollections collections].
  destruct (decide (name = collectionName q)) as [->|Hne].
  - by rewrite lookup_insert_eq, Hnone.
  - by rewrite lookup_insert_ne.
Qed.

Lemma sameIndexes_getOrCreate (name : list N) :
  preserves sameIndexes (client_getOrCreateCollection name).
Proof.
  intros c. unfold client_getOrCreateCollection. rewrite client_call.
  destruct (down c (calls c)); [done|].
  cbn [tick collections]. destruct (collections c !! name) eqn:E; [done|].
  unfold bind, put, ret. cbn [snd].
  intros q. by rewrite (projectIndex_insert_empty name (tick c)).
Qed.

Lemma sameIndexes_getCollection (name : list N) :
  preserves sameIndexes (client_getCollection name).
Proof.
  intros c. unfold client_getCollection. rewrite client_call.
  destruct (down c (calls c)); [done|].
  cbn [tick collections]. by destruct (collections c !! name).
Qed.

Lemma sameIndexes_query (name query : list N) (nResults : nat) :
  preserves sameIndexes (collection_query name query nResults).
Proof.
  intros c. unfold collection_query. rewrite client_call.
  destruct (down c (calls c)); [done|].
  cbn [tick collections]. by destruct (collections c !! name).
Qed.

Lemma sameIndexes_get (name : list N) :
  preserves sameIndexes (collection_get name).
Proof.
  intros c. unfold collection_get. rewrite client_call.
  destruct (down c (calls c)); [done|].
  cbn [tick collections]. by destruct (collections c !! name).
Qed.

Ltac by_ret := intros; first [apply preserves_ret | apply preserves_throw]; apply _.
Ltac by_bind := apply preserves_bind; [apply _| |].
Ltac by_tryCatch := apply preserves_tryCatch; [apply _| |].

Lemma sameIndexes_getProjectStructure (localeCompare : list N -> list N -> Z)
      (projectId : list N) :
  preserves sameIndexes (getProjectStructure localeCompare projectId).
Proof.
  unfold getProjectStructure.
  by_tryCatch; [|intros ?; by_ret].
  by_bind; [apply sameIndexes_getCollection|]. intros name.
  by_bind; [apply sameIndexes_get|].
  intros [[|md mds]|]; by_ret.
Qed.

(** X5: retrieval reads: whatever the store does, [queryRelevantFiles] and
    [getProjectStructure] change no entry of any index; all they may write
    is the empty collection of a project that had none. *)
Theorem retrieval_writes_no_entry (localeCompare : list N -> list N -> Z)
        (projectId query : list N) (topK : nat) (c : Chroma) (q : list N) :
  projectIndex q (snd (queryRelevantFiles localeCompare projectId query topK c))
  = projectIndex q c
  /\ projectIndex q (snd (getProjectStructure localeCompare projectId c))
     = projectIndex q c.
Proof.
  split; [|apply sameIndexes_getProjectStructure].
  revert q. change (sameIndexes c (snd (queryRelevantFiles localeCompare projectId
                                           query topK c))).
  revert c.
  change (preserves sameIndexes
            (queryRelevantFiles localeCompare projectId query topK)).
  unfold queryRelevantFiles.
  by_tryCatch; [|intros ?; by_ret].
  by_bind.
  { unfold getOrCreateCollection.
    by_tryCatch; [apply sameIndexes_getOrCreate|intros ?; by_ret]. }
  intros name.
  by_bind; [apply sameIndexes_query|]. intros results.
  by_bind; [apply sameIndexes_getProjectStructure|]. intros structure.
  by_ret.
Qed.

Ltac client_elsewhere :=
  intros c; rewrite client_call;
  destruct (down c (calls c)); [done|];
  cbn [tick collections];
  match goal with
  | |- context [collections c !! ?name] => destruct (collections c !! name)
  end;
  try (destruct (bool_decide _));
  unfold bind, put, ret, throw; cbn [snd];
  intros other Hne; cbn [withCollections collections tick];
  rewrite ?lookup_insert_ne, ?lookup_delete_ne by congruence; done.

Lemma sameElsewhere_getOrCreate (name : list N) :
  preserves (sameElsewhere name) (client_getOrCreateCollection name).
Proof. unfold client_getOrCreateCollection. client_elsewhere. Qed.

Lemma sameElsewhere_getCollection (name : list N) :
  preserves (sameElsewhere name) (client_getCollection name).
Proof. unfold client_getCollection. client_elsewhere. Qed.

Lemma sameElsewhere_deleteCollection (name : list N) :
  preserves (sameElsewhere name) (client_deleteCollection name).
Proof. unfold client_deleteCollection. client_elsewhere. Qed.

Lemma sameElsewhere_upsert (name : list N) (documents : list (list N))
      (metadatas : list Metadata) (ids : list (list N)) :
  preserves (sameElsewhere name) (collection_upsert name documents metadatas ids).
Proof. unfold collection_upsert. client_elsewhere. Qed.

Lemma sameElsewhere_delete (name : list N) (ids : list (list N)) :
  preserves (sameElsewhere name) (collection_delete name ids).
Proof. unfold collection_delete. client_elsewhere. Qed.

Lemma sameElsewhere_query (name query : list N) (nResults : nat) :
  preserves (sameElsewhere name) (collection_query name query nResults).
Proof. unfold collection_query. client_elsewhere. Qed.

Lemma sameElsewhere_get (name : list N) :
  preserves (sameElsewhere name) (collection_get name).
Proof. unfold collection_get. client_elsewhere. Qed.

Lemma sameElsewhere_getOrCreateCollection (projectId : list N) :
  preserves (sameElsewhere (collectionName projectId))
            (getOrCreateCollection projectId).
Proof.
  unfold getOrCreateCollection.
  by_tryCatch; [apply sameElsewhere_getOrCreate|intros ?; by_ret].
Qed.

Lemma getOrCreateCollection_name (projectId : list N) (c : Chroma)
      (name : list N) :
  fst (getOrCreateCollection projectId c) = Ok name ->
  name = collectionName projectId.
Proof.
  unfold getOrCreateCollection, client_getOrCreateCollection.
  rewrite tryCatch_rethrow, client_call.
  destruct (down c (calls c)); [done|].
  destruct (collections (tick c) !! collectionName projectId);
    cbn; by intros [= <-].
Qed.

(** [bind] on a computation whose value, when it returns, is known. *)
Lemma preserves_bind_value {S A B} (P : S -> S -> Prop) `{!Transitive P}
      (m : M S A) (f : A -> M S B) (Q : A -> Prop) :
  (forall s a, fst (m s) = Ok a -> Q a) ->
  preserves P m -> (forall a, Q a -> preserves P (f a)) ->
  preserves P (bind m f).
Proof.
  intros HQ Hm Hf s. unfold bind. specialize (Hm s). specialize (HQ s).
  destruct (m s) as [[a|e] s']; [|done].
  etrans; [exact Hm|]. apply Hf. by apply HQ.
Qed.

Lemma sameElsewhere_upsertFiles (now : nat -> N) (projectId : list N)
      (files : list FileInput) :
  preserves (sameElsewhere (collectionName projectId))
            (upsertFiles now projectId files).
Proof.
  unfold upsertFiles. by_tryCatch; [|intros ?; by_ret].
  destruct files as [|f files]; [by_ret|].
  apply (preserves_bind_value _ _ _ (fun name => name = collectionName projectId)).
  - intros s a. apply getOrCreateCollection_name.
  - apply sameElsewhere_getOrCreateCollection.
  - intros name ->. apply sameElsewhere_upsert.
Qed.

Lemma sameElsewhere_deleteFiles (projectId : list N)
      (filePaths : list (list N)) :
  preserves (sameElsewhere (collectionName projectId))
            (deleteFiles projectId filePaths).
Proof.
  unfold deleteFiles. by_tryCatch; [|intros ?; by_ret].
  apply (preserves_bind_value _ _ _ (fun name => name = collectionName projectId)).
  - intros s a. apply getOrCreateCollection_name.
  - apply sameElsewhere_getOrCreateCollection.
  - intros name ->. apply sameElsewhere_delete.
Qed.

Lemma sameElsewhere_deleteProject (projectId : list N) :
  preserves (sameElsewhere (collectionName projectId)) (deleteProject projectId).
Proof.
  unfold deleteProject.
  by_tryCatch; [apply sameElsewhere_deleteCollection|intros ?; by_ret].
Qed.

Lemma client_getCollection_name (name : list N) (c : Chroma) (a : list N) :
  fst (client_getCollection name c) = Ok a -> a = name.
Proof.
  unfold client_getCollection. rewrite client_call.
  destruct (down c (calls c)); [done|].
  destruct (collections (tick c) !! name); cbn; [by intros [= <-]|done].
Qed.

Lemma sameElsewhere_getProjectStructure
      (localeCompare : list N -> list N -> Z) (projectId : list N) :
  preserves (sameElsewhere (collectionName projectId))
            (getProjectStructure localeCompare projectId).
Proof.
  unfold getProjectStructure. by_tryCatch; [|intros ?; by_ret].
  apply (preserves_bind_value _ _ _ (fun name => name = collectionName projectId)).
  - intros s a. apply client_getCollection_name.
  - apply sameElsewhere_getCollection.
  - intros name ->. by_bind; [apply sameElsewhere_get|].
    intros [[|md mds]|]; by_ret.
Qed.

Lemma sameElsewhere_queryRelevantFiles
      (localeCompare : list N -> list N -> Z) (projectId query : list N)
      (topK : nat) :
  preserves (sameElsewhere (collectionName projectId))
            (queryRelevantFiles localeCompare projectId query topK).
Proof.
  unfold queryRelevantFiles. by_tryCatch; [|intros ?; by_ret].
  apply (preserves_bind_value _ _ _ (fun name => name = collectionName projectId)).
  - intros s a. apply getOrCreateCollection_name.
  - apply sameElsewhere_getOrCreateCollection.
  - intros name ->. by_bind; [apply sameElsewhere_query|]. intros results.
    by_bind; [apply sameElsewhere_getProjectStructure|]. intros structure.
    by_ret.
Qed.

(** X6: projects do not interfere: whatever [upsertFiles], [deleteFiles],
    [deleteProject] and [queryRelevantFiles] do for one project, and whether
    the store answers or not, the collection of every other project is left
    as it was. *)
Theorem projects_do_not_interfere (now : nat -> N)
        (localeCompare : list N -> list N -> Z) (p q : list N)
        (files : list FileInput) (filePaths : list (list N))
        (query : list N) (topK : nat) (c : Chroma) :
  p ≠ q ->
  let kept (c' : Chroma) :=
    collections c' !! collectionName q = collections c !! collectionName q in
  kept (snd (upsertFiles now p files c))
  /\ kept (snd (deleteFiles p filePaths c))
  /\ kept (snd (deleteProject p c))
  /\ kept (snd (queryRelevantFiles localeCompare p query topK c)).
Proof.
  intros Hpq kept. subst kept. cbv beta.
  assert (collectionName q ≠ collectionName p) as Hne
      by (by intros ?%collectionName_inj).
  split; [by apply sameElsewhere_upsertFiles|].
  split; [by apply sameElsewhere_deleteFiles|].
  split; [by apply sameElsewhere_deleteProject|].
  by apply sameElsewhere_queryRelevantFiles.
Qed.

Lemma projects_do_not_interfere_witness :
  let kept (c' : Chroma) :=
    collections c' !! collectionName (u "p2")
    = collections sampleStore !! collectionName (u "p2") in
  kept (snd (upsertFiles (fun _ => 7%N) (u "p1")
               [ {| fi_path := u "a.js"; fi_content := VStr (u "x");
                    fi_language := VUndefined |} ] sampleStore))
  /\ kept (snd (deleteFiles (u "p1") [u "a.js"] sampleStore))
  /\ kept (snd (deleteProject (u "p1") sampleStore))
  /\ kept (snd (queryRelevantFiles compareUnits (u "p1") (u "a") 5 sampleStore)).
Proof.
  apply (projects_do_not_interfere (fun _ => 7%N) compareUnits (u "p1") (u "p2")).
  by vm_compute.
Defined.

(** ** Deleting a project *)

(** X7: [deleteProject] never throws.  When the store answers, the collection
    of the project is gone afterwards; when the store cannot be reached, or
    the project has no collection, the collections are what they were. *)
Theorem deleteProject_swallows_errors (projectId : list N) (c : Chroma) :
  let out := deleteProject projectId c in
  fst out = Ok tt
  /\ calls (snd out) = S (calls c)
  /\ collections (snd out)
     = match down c (calls c) with
       | None => delete (collectionName projectId) (collections c)
       | Some _ => collections c
       end.
Proof.
  cbv zeta. unfold deleteProject, client_deleteCollection, tryCatch.
  rewrite client_call. destruct (down c (calls c)) as [e|]; [done|].
  cbn [tick collections].
  destruct (collections c !! collectionName projectId) as [col|] eqn:E; [done|].
  cbn. split; [done|]. split; [done|]. by rewrite delete_id.
Qed.

(** ** Indexing a batch *)

Lemma upsertAll_other (rows : list (list N * Entry)) (col : gmap (list N) Entry)
      (id : list N) :
  id ∉ map fst rows -> upsertAll rows col !! id = col !! id.
Proof.
  unfold upsertAll. revert col.
  induction rows as [|[id' e] rows IH]; intros col Hid; [done|].
  cbn [fold_left fst snd map] in *.
  apply not_elem_of_cons in Hid as [Hne Hid].
  rewrite IH by done. by rewrite lookup_insert_ne.
Qed.

Lemma upsertAll_row (rows : list (list N * Entry)) (col : gmap (list N) Entry)
      (i : nat) (id : list N) (e : Entry) :
  NoDup (map fst rows) -> rows !! i = Some (id, e) ->
  upsertAll rows col !! id = Some e.
Proof.
  revert col i. induction rows as [|[id' e'] rows IH]; intros col i Hnd Hi; [done|].
  cbn [map fst] in Hnd. apply NoDup_cons in Hnd as [Hfresh Hnd].
  destruct i as [|i].
  - injection Hi as -> ->.
    change (upsertAll rows (<[id := e]> col) !! id = Some e).
    rewrite upsertAll_other by done. by rewrite lookup_insert_eq.
  - by apply (IH _ i).
Qed.

Lemma rowsOf_ids (now : nat -> N) (projectId : list N) (start : nat)
      (files : list FileInput) :
  map fst (rowsOf now projectId start files)
  = map (fun f => fileId projectId (fi_path f)) files.
Proof.
  unfold rowsOf. revert start. induction files as [|f files IH]; intros start;
    [done|].
  cbn [imap map fst]. f_equal.
  rewrite <- (IH (S start)). f_equal. apply imap_ext. intros i x _. cbn.
  do 3 f_equal. lia.
Qed.

Lemma rowsOf_lookup (now : nat -> N) (projectId : list N) (start : nat)
      (files : list FileInput) (idx : nat) (f : FileInput) :
  files !! idx = Some f ->
  rowsOf now projectId start files !! idx
  = Some (fileId projectId (fi_path f), entryOf (now (start + idx)) f).
Proof.
  intros Hf. unfold rowsOf. by rewrite list_lookup_imap, Hf.
Qed.

(** The entry [upsertFiles] writes is the entry of the file: its content
    and its language, each with its default. *)
Lemma entryOf_indexed (now : N) (f : FileInput) : entryOf now f = indexed now f.
Proof.
  unfold entryOf, indexed.
  by destruct (fi_content f) as [| |[|c s]], (fi_language f) as [| |[|d l]].
Qed.

(** X8: when the store answers and the batch names no identifier twice,
    [upsertFiles] succeeds; afterwards the index holds, under the identifier
    of every file of the batch, the entry of that file: its content as
    document, the empty string for a file without content, its path, its
    language, [text] for a file without language, and the time of the call;
    every other entry of the index is what it was. *)
Theorem upsertFiles_indexes_the_batch (now : nat -> N) (projectId : list N)
        (files : list FileInput) (c : Chroma) :
  files ≠ [] ->
  down c (calls c) = None -> down c (S (calls c)) = None ->
  NoDup (map (fun f => fileId projectId (fi_path f)) files) ->
  let out := upsertFiles now projectId files c in
  fst out = Ok tt
  /\ (forall idx f, files !! idx = Some f ->
        projectIndex projectId (snd out) !! fileId projectId (fi_path f)
        = Some (indexed (now idx) f))
  /\ (forall id, id ∉ map (fun f => fileId projectId (fi_path f)) files ->
        projectIndex projectId (snd out) !! id
        = projectIndex projectId c !! id).
Proof.
  intros Hne Hup1 Hup2 Hnd out.
  destruct (upsertFiles_outcome now projectId files c) as (_ & _ & Hsure).
  destruct (Hsure Hne Hup1 Hup2 Hnd) as [Hok Hidx]. fold out in Hok, Hidx.
  split; [done|]. rewrite Hidx. split.
  - intros idx f Hf. rewrite <- entryOf_indexed. apply (upsertAll_row _ _ idx).
    + by rewrite rowsOf_ids.
    + by rewrite (rowsOf_lookup _ _ _ _ _ _ Hf).
  - intros id Hid. apply upsertAll_other. by rewrite rowsOf_ids.
Qed.

Lemma upsertFiles_indexes_the_batch_witness :
  let files := [ {| fi_path := u "src/a.js"; fi_content := VStr (u "let a;");
                    fi_language := VStr (u "js") |};
                 {| fi_path := u "README"; fi_content := VNull;
                    fi_language := VUndefined |} ] in
  let out := upsertFiles (fun idx => N.of_nat (7 + idx)) (u "p2") files
                         sampleStore in
  fst out = Ok tt
  /\ projectIndex (u "p2") (snd out) !! u "p2_src_a.js"
     = Some {| document := u "let a;";
               metadata := {| md_path := u "src/a.js"; md_language := u "js";
                              md_lastModified := 7 |} |}
  /\ projectIndex (u "p2") (snd out) !! u "p2_README"
     = Some {| document := [];
               metadata := {| md_path := u "README"; md_language := u "text";
                              md_lastModified := 8 |} |}
  /\ projectIndex (u "p2") (snd out) !! u "p2_a.js"
     = Some {| document := u "let a;";
               metadata := {| md_path := u "a.js"; md_language := u "js";
                              md_lastModified := 0 |} |}.
Proof.
  intros files out.
  destruct (upsertFiles_indexes_the_batch
              (fun idx => N.of_nat (7 + idx)) (u "p2") files sampleStore)
    as (Hok & Hin & Hout); [done|done|done| |].
  { apply (bool_decide_unpack _). by vm_compute. }
  split; [exact Hok|]. split; [exact (Hin 0 _ eq_refl)|].
  split; [exact (Hin 1 _ eq_refl)|].
  etrans; [apply Hout|].
  - apply (bool_decide_unpack _). by vm_compute.
  - by vm_compute.
Defined.

(** An empty batch: [upsertFiles] returns at once, without a call of the
    store, so that it succeeds even when the store cannot be reached and
    creates no collection; [deleteFiles] asks for the collection first, so
    that it throws when the store cannot be reached and otherwise creates
    the collection of a project that had none, empty. *)
Lemma empty_batches (now : nat -> N) (projectId : list N) (c : Chroma) :
  upsertFiles now projectId [] c = (Ok tt, c)
  /\ (forall e, down c (calls c) = Some e ->
        fst (deleteFiles projectId [] c) = Throw e)
  /\ (down c (calls c) = None -> down c (S (calls c)) = None ->
      fst (deleteFiles projectId [] c) = Ok tt
      /\ calls (snd (deleteFiles projectId [] c)) = S (S (calls c))
      /\ collections (snd (deleteFiles projectId [] c))
         = <[collectionName projectId := projectIndex projectId c]>
             (collections c)).
Proof.
  split; [done|]. unfold deleteFiles. rewrite tryCatch_rethrow. split.
  - intros e He.
    by rewrite (bind_throw _ _ c (tick c) e)
      by by apply getOrCreateCollection_down.
  - intros Hup1 Hup2.
    rewrite (bind_ok _ _ c _ _ (getOrCreateCollection_up projectId c Hup1)).
    set (c1 := ensure (collectionName projectId) (tick c)).
    pose proof (ensure_collection projectId c) as Hcol. fold c1 in Hcol.
    destruct (ensure_down (collectionName projectId) (tick c))
      as (Hd1 & Hc1 & _). fold c1 in Hd1, Hc1.
    unfold collection_delete. rewrite client_call.
    rewrite Hd1, Hc1. cbn [tick down calls]. rewrite Hup2.
    change (collections (tick c1)) with (collections c1). rewrite Hcol.
    cbn [put fst snd withCollections calls collections tick map deleteAll
         fold_left].
    split; [done|]. split; [by rewrite Hc1|].
    unfold c1, ensure. cbn [tick collections].
    destruct (collections c !! collectionName projectId) as [col|] eqn:E.
    + cbn [collections]. unfold projectIndex. by rewrite E.
    + cbn [withCollections collections]. unfold projectIndex. rewrite E. cbn.
      by rewrite insert_insert_eq.
Qed.

Lemma lookup_map {A B} (f : A -> B) (l : list A) (i : nat) :
  map f l !! i = option_map f (l !! i).
Proof. revert i; induction l as [|x l IH]; intros [|i]; simpl; auto. Qed.

Lemma reconstruct_fold (hits : list (Entry * float)) :
  forall (rest seen : list (Entry * float)) (acc : list ContextFile),
    hits = seen ++ rest ->
    fold_left
      (fun (files0 : list ContextFile) '(idx, doc) =>
         match map (fun h : Entry * float => Some (metadata h.1)) hits !! idx with
         | Some (Some md) =>
             files0 ++
             [{| cf_path := md_path md;
                 cf_language := VStr (md_language md);
                 cf_content := doc;
                 cf_score :=
                   orZero (Some [map snd hits]
                           ≫= fun ds : list (list float) =>
                                ds !! 0 ≫= fun row0 : list float => row0 !! idx) |}]
         | _ => files0
         end)
      (imap (fun i d => (length seen + i, d))
            (map (fun h : Entry * float => document h.1) rest)) acc
    = acc ++ map contextFileOf rest.
Proof.
  induction rest as [|h rest IH]; intros seen acc Hhits.
  - cbn. by rewrite app_nil_r.
  - cbn [map imap fold_left].
    assert (hits !! (length seen + 0) = Some h) as Hh.
    { rewrite Hhits, Nat.add_0_r. by rewrite list_lookup_middle. }
    rewrite !lookup_map, Hh. cbn [option_map].
    cbn [mbind option_bind lookup list_lookup].
    rewrite !lookup_map, Hh. cbn [option_map].
    rewrite (imap_ext _ (fun i d => (length (seen ++ [h]) + i, d))).
    2:{ intros i x _. cbn. f_equal. rewrite length_app. simpl. lia. }
    rewrite (IH (seen ++ [h])) by (by rewrite <- app_assoc).
    by rewrite <- app_assoc.
Qed.

(** What [queryRelevantFiles] makes of the answer of the store: one file
    per entry found, in the order of the answer. *)
Lemma reconstruct_queryResults (hits : list (Entry * float)) :
  reconstruct (queryResults hits) = map contextFileOf hits.
Proof.
  unfold reconstruct, queryResults.
  cbn [qr_documents qr_metadatas qr_distances].
  apply (reconstruct_fold hits hits [] []). done.
Qed.

Lemma getProjectStructure_returns (localeCompare : list N -> list N -> Z)
      (projectId : list N) (c : Chroma) :
  exists v, fst (getProjectStructure localeCompare projectId c) = Ok v.
Proof.
  unfold getProjectStructure, tryCatch.
  destruct (bind _ _ c) as [[v|e] c']; cbn [fst ret]; eauto.
Qed.

Lemma hitsOf_indexed (col : gmap (list N) Entry)
      (ranked : list (list N * float)) (nResults : nat) (hit : Entry * float) :
  hit ∈ hitsOf col ranked nResults ->
  exists id, col !! id = Some (fst hit).
Proof.
  unfold hitsOf. intros (i & Hin%list_elem_of_lookup_2 & _)%elem_of_take.
  apply list_elem_of_omap in Hin as ([id d] & _ & Hhit). cbn [fst snd] in Hhit.
  destruct (col !! id) as [e|] eqn:E; [|done]. injection Hhit as <-. eauto.
Qed.

(** X9: when the store answers, [queryRelevantFiles] returns at most [topK]
    files, and every one of them is an entry of the index of the project:
    its path, its language and, as content, its document. *)
Theorem retrieval_returns_indexed_files (localeCompare : list N -> list N -> Z)
        (projectId query : list N) (topK : nat) (c : Chroma) :
  down c (calls c) = None -> down c (S (calls c)) = None ->
  exists v,
    fst (queryRelevantFiles localeCompare projectId query topK c) = Ok v
    /\ length (r_files v) <= topK
    /\ forall f, f ∈ r_files v ->
         exists id e d, projectIndex projectId c !! id = Some e
                        /\ f = contextFileOf (e, d).
Proof.
  intros Hup1 Hup2. unfold queryRelevantFiles.
  set (c1 := ensure (collectionName projectId) (tick c)).
  pose proof (ensure_collection projectId c) as Hcol. fold c1 in Hcol.
  destruct (ensure_down (collectionName projectId) (tick c)) as (Hd1 & Hc1 & _).
  fold c1 in Hd1, Hc1.
  assert (down c1 (calls c1) = None) as Hup1' by (by rewrite Hd1, Hc1).
  set (hits := hitsOf (projectIndex projectId c)
                 (nearest c1 query (projectIndex projectId c)) topK).
  destruct (getProjectStructure_returns localeCompare projectId (tick c1))
    as [structure Hs].
  exists {| r_files := map contextFileOf hits; r_structure := structure |}.
  split.
  - unfold tryCatch.
    rewrite (bind_ok _ _ c _ _ (getOrCreateCollection_up projectId c Hup1)).
    fold c1.
    rewrite (bind_ok _ _ c1 _ _ (collection_query_up _ query topK c1 _ Hup1' Hcol)).
    fold hits. rewrite reconstruct_queryResults.
    unfold bind at 1.
    destruct (getProjectStructure localeCompare projectId (tick c1))
      as [[v|e] c2]; [|done].
    cbn [fst] in Hs. injection Hs as ->. done.
  - cbn [r_files]. split.
    + rewrite length_map. unfold hits, hitsOf. rewrite length_take. lia.
    + intros f (hit & <- & Hin%list_elem_of_In)%list_elem_of_In%in_map_iff.
      destruct (hitsOf_indexed _ _ _ _ Hin) as [id Hid].
      exists id, (fst hit), (snd hit). split; [done|]. by destruct hit.
Qed.

Lemma retrieval_returns_indexed_files_witness :
  exists v,
    fst (queryRelevantFiles compareUnits (u "p2") (u "a") 5 sampleStore) = Ok v
    /\ length (r_files v) <= 5
    /\ forall f, f ∈ r_files v ->
         exists id e d, projectIndex (u "p2") sampleStore !! id = Some e
                        /\ f = contextFileOf (e, d).
Proof. by apply retrieval_returns_indexed_files. Defined.

(** ** The relational store *)

Lemma saveFile_no_string (projectId path : list N) (content language : value)
      (db : Postgres) :
  (forall s, content ≠ VStr s) ->
  exists e, fst (saveFile projectId path content language db) = Throw e
            /\ rows (snd (saveFile projectId path content language db)) = rows db.
Proof.
  intros Hc. unfold saveFile, bind, connect, tryCatch.
  destruct content as [| |s]; [| |by destruct (Hc s)];
    destruct (pg_down db (pg_calls db)) as [[e|e]|]; by eexists.
Qed.

(** A connection that fails, or a statement that is rejected, makes the
    call throw the message of the database, and leaves the table as it
    was. *)
Lemma saveFile_down (projectId path content : list N) (language : value)
      (db : Postgres) (error : PgError) :
  pg_down db (pg_calls db) = Some error ->
  saveFile projectId path (VStr content) language db
  = (Throw (pgMessage error), pg_tick db).
Proof.
  intros H. unfold saveFile, bind, connect, tryCatch, client_query.
  rewrite H. destruct error as [e|e]; [done|].
  cbn [pg_tick pg_down]. by rewrite H.
Qed.

Lemma readFile_missing (projectId path : list N) (db : Postgres) :
  pg_down db (pg_calls db) = None ->
  rows db !! (projectId, path) = None ->
  readFile projectId path db = (Throw (fileNotFound path), pg_tick db).
Proof.
  intros Hup Hrow. unfold readFile, bind, connect, tryCatch, client_query, get.
  rewrite Hup. cbn [pg_tick pg_down rows]. by rewrite Hup, Hrow.
Qed.

Lemma readFile_down (projectId path : list N) (db : Postgres)
      (error : PgError) :
  pg_down db (pg_calls db) = Some error ->
  readFile projectId path db = (Throw (pgMessage error), pg_tick db).
Proof.
  intros H. unfold readFile, bind, connect, tryCatch, client_query.
  rewrite H. destruct error as [e|e]; [done|].
  cbn [pg_tick pg_down]. by rewrite H.
Qed.

Lemma deleteFile_missing (projectId path : list N) (db : Postgres) :
  pg_down db (pg_calls db) = None ->
  rows db !! (projectId, path) = None ->
  deleteFile projectId path db = (Throw (fileNotFound path), pg_tick db).
Proof.
  intros Hup Hrow. unfold deleteFile, bind, connect, tryCatch, client_query, get.
  rewrite Hup. cbn [pg_tick pg_down rows]. by rewrite Hup, Hrow.
Qed.

Lemma deleteFile_down (projectId path : list N) (db : Postgres)
      (error : PgError) :
  pg_down db (pg_calls db) = Some error ->
  deleteFile projectId path db = (Throw (pgMessage error), pg_tick db).
Proof.
  intros H. unfold deleteFile, bind, connect, tryCatch, client_query.
  rewrite H. destruct error as [e|e]; [done|].
  cbn [pg_tick pg_down]. by rewrite H.
Qed.

(** X10: what was saved is read back.  For a project id that is a UUID and a
    path, a content and a language that the table keeps as they are: when
    the database takes the [INSERT], [saveFile] returns the row it wrote,
    with the language [text] when none was given; a [readFile] of the same
    path right after, when the database takes it, returns that row; and the
    rows of all other paths are what they were.  When the database fails or
    rejects the [INSERT], [saveFile] throws its message and the table is
    what it was. *)
Theorem saved_file_is_read_back (projectId path content : list N)
        (language : value) (db : Postgres) :
  isUuid projectId = true -> storable path (VStr content) language ->
  let row := {| row_project_id := projectId; row_path := path;
                row_content := VStr content;
                row_language := match language with
                                | VUndefined => VStr (u "text")
                                | _ => language
                                end |} in
  let saved := saveFile projectId path (VStr content) language db in
  (pg_down db (pg_calls db) = None ->
   fst saved = Ok row
   /\ (pg_down db (S (pg_calls db)) = None ->
       fst (readFile projectId path (snd saved)) = Ok row)
   /\ forall key, key ≠ (projectId, path) ->
        rows (snd saved) !! key = rows db !! key)
  /\ (forall error, pg_down db (pg_calls db) = Some error ->
        fst saved = Throw (pgMessage error) /\ rows (snd saved) = rows db).
Proof.
  intros _ _ row saved. subst saved. split.
  - intros Hup1. rewrite (saveFile_string _ _ _ _ _ Hup1). cbn [fst snd].
    assert ({| row_project_id := projectId; row_path := path;
               row_content := VStr content;
               row_language := defaultText language |} = row) as ->
        by by destruct language.
    split; [done|]. split.
    + intros Hup2. rewrite (readFile_found _ _ _ row); [done|done|].
      cbn [withRows rows pg_tick]. by rewrite lookup_insert_eq.
    + intros key Hkey. cbn [withRows rows pg_tick].
      by rewrite lookup_insert_ne.
  - intros error Hdown. by rewrite (saveFile_down _ _ _ _ _ _ Hdown).
Qed.

Lemma saved_file_is_read_back_witness :
  let row := {| row_project_id := sampleProject; row_path := u "src/b.js";
                row_content := VStr (u "let b;");
                row_language := VStr (u "text") |} in
  let saved := saveFile sampleProject (u "src/b.js") (VStr (u "let b;"))
                        VUndefined (pg sampleWorld) in
  fst saved = Ok row
  /\ fst (readFile sampleProject (u "src/b.js") (snd saved)) = Ok row
  /\ rows (snd saved) !! (sampleProject, u "a.js") = Some sampleRow.
Proof.
  intros row saved.
  destruct (saved_file_is_read_back sampleProject (u "src/b.js") (u "let b;")
              VUndefined (pg sampleWorld)) as [Hsaved _].
  - by vm_compute.
  - split; [by vm_compute|]. split; [by intros s [= <-]|done].
  - destruct (Hsaved eq_refl) as (Hrow & Hread & Hrest).
    split; [exact Hrow|]. split; [exact (Hread eq_refl)|].
    rewrite Hrest; [by vm_compute|]. by intros [= ?].
Defined.

Lemma rowOf_defaultText (projectId : list N) (f : FileInput) :
  {| row_project_id := projectId; row_path := fi_path f;
     row_content := fi_content f;
     row_language := defaultText (fi_language f) |} = rowOf projectId f.
Proof. unfold rowOf. by destruct (fi_language f). Qed.

Lemma saveFilesFrom_ok (projectId : list N) (files : list FileInput) :
  forall (db : Postgres) (savedFiles : list FileRow),
    pgAlwaysUp db -> Forall hasText files ->
    saveFilesFrom projectId files savedFiles db
    = (Ok (savedFiles ++ map (rowOf projectId) files),
       {| pg_calls := length files + pg_calls db;
          pg_down := pg_down db;
          rows := savedRows projectId files (rows db) |}).
Proof.
  induction files as [|f files IH]; intros db savedFiles Hup Hfiles.
  - cbn. rewrite app_nil_r. by destruct db.
  - apply Forall_cons in Hfiles as [[s Hs] Hfiles].
    cbn [saveFilesFrom]. unfold bind.
    rewrite Hs, (saveFile_string _ _ _ _ _ (Hup _)).
    rewrite IH; [|done|done].
    cbn [withRows pg_tick rows pg_calls pg_down map length savedRows fold_left].
    rewrite <- (rowOf_defaultText projectId f), Hs.
    rewrite <- app_assoc. cbn [app]. unfold savedRows.
    by replace (S (length files) + pg_calls db)
      with (length files + S (pg_calls db)) by lia.
Qed.

Lemma saveFilesFrom_app (projectId : list N) (files more : list FileInput) :
  forall (savedFiles : list FileRow) (db : Postgres),
    saveFilesFrom projectId (files ++ more) savedFiles db
    = bind (saveFilesFrom projectId files savedFiles)
           (fun savedFiles' => saveFilesFrom projectId more savedFiles') db.
Proof.
  induction files as [|f files IH]; intros savedFiles db; [done|].
  cbn [app saveFilesFrom]. unfold bind.
  destruct (saveFile _ _ _ _ db) as [[saved|e] db1]; [|done].
  rewrite IH. done.
Qed.

Lemma savedRows_last (projectId : list N) (files after : list FileInput)
      (f : FileInput) (table : gmap (list N * list N) FileRow) :
  fi_path f ∉ map fi_path after ->
  savedRows projectId (files ++ f :: after) table !! (projectId, fi_path f)
  = Some (rowOf projectId f).
Proof.
  intros Hlast. unfold savedRows. rewrite fold_left_app. cbn [fold_left].
  set (t := <[_ := _]> _).
  assert (t !! (projectId, fi_path f) = Some (rowOf projectId f)) as Ht
      by apply lookup_insert_eq.
  clearbody t. revert t Ht.
  induction after as [|g after IH]; intros t Ht; [done|].
  cbn [map] in Hlast. apply not_elem_of_cons in Hlast as [Hne Hlast].
  cbn [fold_left]. apply IH; [done|].
  rewrite lookup_insert_ne; [done|]. intros [= ?]. congruence.
Qed.

(** X11: a batch of a project whose id is a UUID, with files that the table
    keeps as they are and whose contents are strings, on a database that
    takes every statement, is saved file by file in the order of the batch:
    [saveFiles] returns the row of every file, in order, after as many
    connections as the batch has files; of two files of one path, the later
    one is what the table holds afterwards. *)
Theorem saveFiles_saves_in_order (projectId : list N) (files : list FileInput)
        (db : Postgres) :
  isUuid projectId = true -> Forall storableFile files ->
  pgAlwaysUp db -> Forall hasText files ->
  let out := saveFiles projectId files db in
  fst out = Ok (map (rowOf projectId) files)
  /\ pg_calls (snd out) = length files + pg_calls db
  /\ rows (snd out) = savedRows projectId files (rows db)
  /\ forall before f after,
       files = before ++ f :: after -> fi_path f ∉ map fi_path after ->
       rows (snd out) !! (projectId, fi_path f) = Some (rowOf projectId f).
Proof.
  intros _ _ Hup Hfiles out. subst out. unfold saveFiles.
  rewrite saveFilesFrom_ok by done. cbn [fst snd rows pg_calls app].
  split; [done|]. split; [done|]. split; [done|].
  intros before f after -> Hlast. by apply savedRows_last.
Qed.

Lemma saveFiles_saves_in_order_witness :
  let files := [ {| fi_path := u "a.js"; fi_content := VStr (u "let a = 1;");
                    fi_language := VStr (u "js") |};
                 {| fi_path := u "a.js"; fi_content := VStr (u "let a = 2;");
                    fi_language := VUndefined |} ] in
  let out := saveFiles sampleProject files (pg sampleWorld) in
  fst out
  = Ok [ {| row_project_id := sampleProject; row_path := u "a.js";
            row_content := VStr (u "let a = 1;");
            row_language := VStr (u "js") |};
         {| row_project_id := sampleProject; row_path := u "a.js";
            row_content := VStr (u "let a = 2;");
            row_language := VStr (u "text") |} ]
  /\ pg_calls (snd out) = 2
  /\ rows (snd out) !! (sampleProject, u "a.js")
     = Some {| row_project_id := sampleProject; row_path := u "a.js";
               row_content := VStr (u "let a = 2;");
               row_language := VStr (u "text") |}.
Proof.
  intros files out.
  destruct (saveFiles_saves_in_order sampleProject files (pg sampleWorld))
    as (Hrows & Hcalls & _ & Hlast).
  - by vm_compute.
  - repeat constructor; by intros s [= <-].
  - done.
  - repeat constructor; by eexists.
  - split; [exact Hrows|]. split; [exact Hcalls|].
    apply (Hlast [ {| fi_path := u "a.js"; fi_content := VStr (u "let a = 1;");
                      fi_language := VStr (u "js") |} ]
                 {| fi_path := u "a.js"; fi_content := VStr (u "let a = 2;");
                    fi_language := VUndefined |} []); [done|].
    apply not_elem_of_nil.
Defined.

(** X12: [saveFiles] is not atomic: when a file of the batch has a content that
    is no string, the call throws, and the files in front of it, which the
    database took, stay saved. *)
Theorem saveFiles_keeps_what_it_saved (projectId : list N)
        (good rest : list FileInput) (bad : FileInput) (db : Postgres) :
  isUuid projectId = true -> Forall storableFile good ->
  pgAlwaysUp db -> Forall hasText good ->
  (forall s, fi_content bad ≠ VStr s) ->
  let out := saveFiles projectId (good ++ bad :: rest) db in
  (exists e, fst out = Throw e)
  /\ rows (snd out) = savedRows projectId good (rows db).
Proof.
  intros _ _ Hup Hgood Hbad out.
  assert (exists e db2, out = (Throw e, db2)
                        /\ rows db2 = savedRows projectId good (rows db))
    as (e & db2 & -> & Hrows).
  { subst out. unfold saveFiles. rewrite saveFilesFrom_app. unfold bind at 1.
    rewrite saveFilesFrom_ok by done. cbn [app saveFilesFrom]. unfold bind.
    set (db1 := {| pg_calls := _ |}).
    destruct (saveFile_no_string projectId (fi_path bad) (fi_content bad)
                (fi_language bad) db1 Hbad) as (e & He & Hrows).
    destruct (saveFile _ _ _ _ db1) as [[saved|e'] db2]; [done|].
    by exists e', db2. }
  split; [by exists e|done].
Qed.

Lemma saveFiles_keeps_what_it_saved_witness :
  let good := [ {| fi_path := u "b.js"; fi_content := VStr (u "let b;");
                   fi_language := VUndefined |} ] in
  let bad := {| fi_path := u "c.js"; fi_content := VNull;
                fi_language := VUndefined |} in
  let out := saveFiles sampleProject (good ++ bad :: []) (pg sampleWorld) in
  (exists e, fst out = Throw e)
  /\ rows (snd out)
     = <[ (sampleProject, u "b.js") :=
            {| row_project_id := sampleProject; row_path := u "b.js";
               row_content := VStr (u "let b;");
               row_language := VStr (u "text") |} ]>
         (rows (pg sampleWorld)).
Proof.
  apply (saveFiles_keeps_what_it_saved sampleProject
           [ {| fi_path := u "b.js"; fi_content := VStr (u "let b;");
                fi_language := VUndefined |} ] []
           {| fi_path := u "c.js"; fi_content := VNull;
              fi_language := VUndefined |} (pg sampleWorld)).
  - by vm_compute.
  - repeat constructor; by intros s [= <-].
  - done.
  - repeat constructor; by eexists.
  - done.
Defined.

(** X13: [deleteProjectFiles] for a project id that is a UUID: when the database
    takes the statement, the call removes every row of the project and no
    row of another project, and a project without files is no error; when
    the database fails or rejects it, the call throws and every row
    stays. *)
Theorem deleteProjectFiles_removes_the_project (projectId : list N)
        (db : Postgres) :
  isUuid projectId = true ->
  let out := deleteProjectFiles projectId db in
  match pg_down db (pg_calls db) with
  | None =>
      fst out = Ok tt
      /\ forall q path,
           rows (snd out) !! (q, path)
           = if decide (q = projectId) then None else rows db !! (q, path)
  | Some error =>
      fst out = Throw (pgMessage error) /\ rows (snd out) = rows db
  end.
Proof.
  intros _ out. subst out.
  unfold deleteProjectFiles, bind, connect, tryCatch, client_query, get, put.
  destruct (pg_down db (pg_calls db)) as [[e|e]|] eqn:Hdown;
    cbn [pg_tick pg_down]; rewrite ?Hdown; [done|done|].
  cbn [fst snd withRows rows pg_tick]. split; [done|].
  intros q path. destruct (decide (q = projectId)) as [->|Hne].
  - apply map_lookup_filter_None. right. intros row _. cbn. by intros [].
  - destruct (rows db !! (q, path)) as [row|] eqn:E.
    + by apply map_lookup_filter_Some.
    + apply map_lookup_filter_None. by left.
Qed.

Lemma deleteProjectFiles_removes_the_project_witness :
  let out := deleteProjectFiles sampleProject (pg sampleWorld) in
  fst out = Ok tt
  /\ rows (snd out) !! (sampleProject, u "a.js") = None.
Proof.
  intros out.
  destruct (deleteProjectFiles_removes_the_project sampleProject
              (pg sampleWorld)) as [Hok Hrows]; [by vm_compute|].
  split; [exact Hok|]. rewrite Hrows. by rewrite decide_True.
Defined.

(** ** The routes of [routes/files.js] *)

(** The message of the services for a missing file is one the routes take
    for [not found]. *)
Lemma saysNotFound_fileNotFound (path : list N) :
  saysNotFound (fileNotFound path) = true.
Proof.
  unfold saysNotFound, fileNotFound. apply includes_spec.
  exists (u "File "), (u ": " ++ path). done.
Qed.

(** X14: what [GET /:projectId/*] answers for a path that is not empty (the
    router hands a request without path to the route [/:projectId], which is
    registered first), a project id that is a UUID and a path that the
    database compares as it is: 200 and the row when the file exists; 404
    when it does not, the message of [readFile] holding [not found]; and
    when the database fails or rejects the statement 500, unless the
    message of the database holds [not found], which makes it a 404 as
    well.  The table is left as it was. *)
Theorem get_file_answers (projectId filePath : list N) (w : World) :
  filePath ≠ [] -> isUuid projectId = true -> isText filePath = true ->
  let out := get_file projectId filePath w in
  fst out
  = Ok match pg_down (pg w) (pg_calls (pg w)) with
       | Some error =>
           if saysNotFound (pgMessage error) then
             {| status := 404;
                body := Failure (u "File not found") (Some (pgMessage error)) |}
           else
             {| status := 500;
                body := Failure (u "Failed to read file")
                                (Some (pgMessage error)) |}
       | None =>
           match rows (pg w) !! (projectId, filePath) with
           | Some file => {| status := 200; body := Success file |}
           | None =>
               {| status := 404;
                  body := Failure (u "File not found")
                                  (Some (u "File not found: " ++ filePath)) |}
           end
       end
  /\ rows (pg (snd out)) = rows (pg w)
  /\ chroma (snd out) = chroma w.
Proof.
  intros Hpath _ _ out. subst out.
  destruct w as [db c]. unfold get_file. cbn [pg chroma].
  destruct filePath as [|x filePath]; [done|].
  set (path := x :: filePath). unfold tryCatch, bind.
  destruct (pg_down db (pg_calls db)) as [error|] eqn:Hdown.
  - rewrite (onPg_run _ _ _ c _ (readFile_down projectId path db error Hdown)).
    by destruct (saysNotFound (pgMessage error)).
  - destruct (rows db !! (projectId, path)) as [file|] eqn:Hrow.
    + by rewrite (onPg_run _ _ _ c _ (readFile_found _ _ db file Hdown Hrow)).
    + rewrite (onPg_run _ _ _ c _ (readFile_missing _ _ db Hdown Hrow)).
      by rewrite saysNotFound_fileNotFound.
Qed.

Lemma get_file_answers_witness :
  fst (get_file sampleProject (u "a.js") sampleWorld)
  = Ok {| status := 200; body := Success sampleRow |}
  /\ fst (get_file sampleProject (u "src/b.js") sampleWorld)
     = Ok {| status := 404;
             body := Failure (u "File not found")
                             (Some (u "File not found: src/b.js")) |}
  /\ fst (get_file sampleProject (u "a.js")
            {| pg := {| pg_calls := 0;
                        pg_down := fun _ => Some (Rejected (u "deadlock detected"));
                        rows := rows (pg sampleWorld) |};
               chroma := emptyStore |})
     = Ok {| status := 500;
             body := Failure (u "Failed to read file")
                             (Some (u "deadlock detected")) |}.
Proof.
  split; [|split].
  - by destruct (get_file_answers sampleProject (u "a.js") sampleWorld)
      as [-> _]; [..|vm_compute].
  - by destruct (get_file_answers sampleProject (u "src/b.js") sampleWorld)
      as [-> _]; [..|vm_compute].
  - by destruct (get_file_answers sampleProject (u "a.js")
                   {| pg := {| pg_calls := 0;
                               pg_down := fun _ => Some (Rejected (u "deadlock detected"));
                               rows := rows (pg sampleWorld) |};
                      chroma := emptyStore |})
      as [-> _]; [..|vm_compute].
Defined.

Lemma upsertFiles_down (now : nat -> N) (projectId : list N)
      (files : list FileInput) (c : Chroma) (e : list N) :
  files ≠ [] -> down c (calls c) = Some e ->
  upsertFiles now projectId files c = (Throw e, tick c).
Proof.
  intros Hne Hdown. unfold upsertFiles. rewrite tryCatch_rethrow.
  destruct files as [|f files]; [done|].
  by rewrite (bind_throw _ _ c (tick c) e)
    by by apply getOrCreateCollection_down.
Qed.

Lemma deleteFiles_down (projectId : list N) (filePaths : list (list N))
      (c : Chroma) (e : list N) :
  down c (calls c) = Some e ->
  deleteFiles projectId filePaths c = (Throw e, tick c).
Proof.
  intros Hdown. unfold deleteFiles. rewrite tryCatch_rethrow.
  by rewrite (bind_throw _ _ c (tick c) e)
    by by apply getOrCreateCollection_down.
Qed.

(** The index after [upsertFiles] of one file, when the store answers. *)
Lemma upsertFiles_one (now : nat -> N) (projectId : list N) (f : FileInput)
      (c : Chroma) :
  down c (calls c) = None -> down c (S (calls c)) = None ->
  exists c',
    upsertFiles now projectId [f] c = (Ok tt, c')
    /\ down c' = down c
    /\ projectIndex projectId c'
       = <[fileId projectId (fi_path f) := entryOf (now 0) f]>
           (projectIndex projectId c).
Proof.
  intros Hup1 Hup2.
  destruct (upsertFiles_outcome now projectId [f] c) as (Hd & _ & Hsure).
  destruct (Hsure ltac:(done) Hup1 Hup2 (NoDup_singleton _)) as [Hok Hidx].
  destruct (upsertFiles now projectId [f] c) as [r c'].
  cbn [fst snd] in *. subst r. by exists c'.
Qed.

(** The index after [deleteFiles] of one path, when the store answers. *)
Lemma deleteFiles_one (projectId path : list N) (c : Chroma) :
  down c (calls c) = None -> down c (S (calls c)) = None ->
  exists c',
    deleteFiles projectId [path] c = (Ok tt, c')
    /\ down c' = down c
    /\ projectIndex projectId c'
       = delete (fileId projectId path) (projectIndex projectId c).
Proof.
  intros Hup1 Hup2.
  destruct (deleteFiles_outcome projectId [path] c) as (Hd & _ & Hsure).
  destruct (Hsure Hup1 Hup2) as [Hok Hidx].
  destruct (deleteFiles projectId [path] c) as [r c'].
  cbn [fst snd] in *. subst r. by exists c'.
Qed.

(** X15: [POST /update] with a string content, a project id that is a UUID and
    values that the table keeps as they are, on a database that takes the
    statement and a vector store that answers: the answer is 200 with the
    row saved; the table holds that row under the path and the index holds
    the entry of the file under its identifier.  The empty string is a
    content like any other. *)
Theorem post_update_saves_and_indexes (now : nat -> N)
        (projectId path content : list N) (language : value) (w : World) :
  projectId ≠ [] -> path ≠ [] ->
  isUuid projectId = true -> storable path (VStr content) language ->
  pg_down (pg w) (pg_calls (pg w)) = None ->
  down (chroma w) (calls (chroma w)) = None ->
  down (chroma w) (S (calls (chroma w))) = None ->
  let file := {| fi_path := path; fi_content := VStr content;
                 fi_language := language |} in
  let out := post_update now (VStr projectId) (VStr path) (VStr content)
                         language w in
  fst out = Ok {| status := 200; body := Success (rowOf projectId file) |}
  /\ rows (pg (snd out)) !! (projectId, path) = Some (rowOf projectId file)
  /\ projectIndex projectId (chroma (snd out)) !! fileId projectId path
     = Some (indexed (now 0) file).
Proof.
  intros Hpid Hpath _ _ Hpg Hup1 Hup2 file out. subst out.
  destruct w as [db c]. cbn [pg chroma] in *.
  destruct (upsertFiles_one now projectId file c Hup1 Hup2)
    as (c' & Hups & _ & Hidx).
  unfold post_update. rewrite !falsy_string by done. cbn [orb text].
  rewrite bool_decide_false by done.
  unfold tryCatch, bind.
  rewrite (onPg_run _ _ _ c _ (saveFile_string _ _ _ _ db Hpg)).
  rewrite (onChroma_run _ _ _ _ _ Hups).
  rewrite <- (rowOf_defaultText projectId file), <- entryOf_indexed.
  cbn [fst snd pg chroma withRows rows ret]. split; [done|]. split.
  - by rewrite lookup_insert_eq.
  - rewrite Hidx. by rewrite lookup_insert_eq.
Qed.

Lemma post_update_saves_and_indexes_witness :
  let out := post_update (fun _ => 7%N) (VStr sampleProject)
                         (VStr (u "src/b.js")) (VStr (u "let b;"))
                         (VStr (u "js")) sampleWorld in
  let row := {| row_project_id := sampleProject; row_path := u "src/b.js";
                row_content := VStr (u "let b;");
                row_language := VStr (u "js") |} in
  fst out = Ok {| status := 200; body := Success row |}
  /\ rows (pg (snd out)) !! (sampleProject, u "src/b.js") = Some row
  /\ projectIndex sampleProject (chroma (snd out))
       !! (sampleProject ++ u "_src_b.js")
     = Some {| document := u "let b;";
               metadata := {| md_path := u "src/b.js"; md_language := u "js";
                              md_lastModified := 7 |} |}.
Proof.
  apply (post_update_saves_and_indexes (fun _ => 7%N) sampleProject
           (u "src/b.js") (u "let b;") (VStr (u "js")) sampleWorld);
    try done.
  split; [by vm_compute|]. split; intros s [= <-]; by vm_compute.
Defined.

(** X16: [POST /update] is not atomic: for a project id that is a UUID and
    values that the table keeps as they are, when the database takes the
    statement and the vector store cannot be reached, the answer is 500
    with the message of that failure, and yet the file has been saved; the
    index is what it was. *)
Theorem post_update_is_not_atomic (now : nat -> N)
        (projectId path content e : list N) (language : value) (w : World) :
  projectId ≠ [] -> path ≠ [] ->
  isUuid projectId = true -> storable path (VStr content) language ->
  pg_down (pg w) (pg_calls (pg w)) = None ->
  down (chroma w) (calls (chroma w)) = Some e ->
  let file := {| fi_path := path; fi_content := VStr content;
                 fi_language := language |} in
  let out := post_update now (VStr projectId) (VStr path) (VStr content)
                         language w in
  fst out = Ok {| status := 500;
                  body := Failure (u "Failed to update file") (Some e) |}
  /\ rows (pg (snd out)) !! (projectId, path) = Some (rowOf projectId file)
  /\ collections (chroma (snd out)) = collections (chroma w).
Proof.
  intros Hpid Hpath _ _ Hpg Hdown file out. subst out.
  destruct w as [db c]. cbn [pg chroma] in *.
  unfold post_update. rewrite !falsy_string by done. cbn [orb text].
  rewrite bool_decide_false by done.
  unfold tryCatch, bind.
  rewrite (onPg_run _ _ _ c _ (saveFile_string _ _ _ _ db Hpg)).
  rewrite (onChroma_run _ _ _ _ _
             (upsertFiles_down now projectId [file] c e ltac:(done) Hdown)).
  rewrite <- (rowOf_defaultText projectId file).
  cbn [fst snd pg chroma withRows rows tick collections ret].
  split; [done|]. split; [|done]. by rewrite lookup_insert_eq.
Qed.

Lemma post_update_is_not_atomic_witness :
  let w := {| pg := pg sampleWorld; chroma := unreachableStore |} in
  let out := post_update (fun _ => 7%N) (VStr sampleProject)
                         (VStr (u "src/b.js")) (VStr (u "let b;"))
                         VUndefined w in
  fst out = Ok {| status := 500;
                  body := Failure (u "Failed to update file")
                                  (Some (u "ECONNREFUSED")) |}
  /\ rows (pg (snd out)) !! (sampleProject, u "src/b.js")
     = Some {| row_project_id := sampleProject; row_path := u "src/b.js";
               row_content := VStr (u "let b;");
               row_language := VStr (u "text") |}
  /\ collections (chroma (snd out)) = collections (chroma w).
Proof.
  apply (post_update_is_not_atomic (fun _ => 7%N) sampleProject (u "src/b.js")
           (u "let b;") (u "ECONNREFUSED") VUndefined
           {| pg := pg sampleWorld; chroma := unreachableStore |});
    try done.
  split; [by vm_compute|]. split; [intros s [= <-]; by vm_compute|done].
Defined.

(** X17: [POST /update] asks for a content that is not [undefined]: without one
    the answer is 400 and no store is touched.  The content [null] passes
    that check and fails in [saveFile]: the answer is 500 and nothing is
    written to the table or to the index. *)
Theorem post_update_needs_a_content (now : nat -> N)
        (projectId path : list N) (language : value) (w : World) :
  projectId ≠ [] -> path ≠ [] ->
  post_update now (VStr projectId) (VStr path) VUndefined language w
  = (Ok {| status := 400;
           body := Failure
             (u "Missing required fields: projectId, path, content") None |},
     w)
  /\ let out := post_update now (VStr projectId) (VStr path) VNull language w in
     (exists e, fst out
                = Ok {| status := 500;
                        body := Failure (u "Failed to update file") (Some e) |})
     /\ rows (pg (snd out)) = rows (pg w)
     /\ chroma (snd out) = chroma w.
Proof.
  intros Hpid Hpath. unfold post_update. rewrite !falsy_string by done.
  cbn [orb text]. split; [done|]. cbv zeta.
  rewrite bool_decide_false by done.
  destruct w as [db c]. unfold tryCatch, bind, onPg. cbn [pg chroma].
  destruct (saveFile_no_string projectId path VNull language db ltac:(done))
    as (e & He & Hrows).
  destruct (saveFile projectId path VNull language db) as [[row|e'] db'];
    [done|].
  cbn [fst snd pg chroma ret] in *. split; [by exists e'|done].
Qed.

Lemma post_update_needs_a_content_witness :
  post_update (fun _ => 7%N) (VStr (u "p1")) (VStr (u "b.js")) VUndefined
              VUndefined oneFileWorld
  = (Ok {| status := 400;
           body := Failure
             (u "Missing required fields: projectId, path, content") None |},
     oneFileWorld)
  /\ let out := post_update (fun _ => 7%N) (VStr (u "p1")) (VStr (u "b.js"))
                            VNull VUndefined oneFileWorld in
     (exists e, fst out
                = Ok {| status := 500;
                        body := Failure (u "Failed to update file") (Some e) |})
     /\ rows (pg (snd out)) = rows (pg oneFileWorld)
     /\ chroma (snd out) = chroma oneFileWorld.
Proof. by apply post_update_needs_a_content. Defined.

(** X18: [DELETE /:projectId/*] for a path that is not empty, a project id
    that is a UUID and a path that the database compares as it is, on a
    database that takes the statement and a vector store that answers.  A
    file that exists is deleted from the table and from the index, and the
    answer is 200 with its row.  A file that the table does not hold is
    answered 404 before the index is looked at: an entry the index may hold
    for the path stays. *)
Theorem delete_file_answers (projectId filePath : list N) (w : World) :
  filePath ≠ [] -> isUuid projectId = true -> isText filePath = true ->
  pg_down (pg w) (pg_calls (pg w)) = None ->
  down (chroma w) (calls (chroma w)) = None ->
  down (chroma w) (S (calls (chroma w))) = None ->
  let out := delete_file projectId filePath w in
  match rows (pg w) !! (projectId, filePath) with
  | Some file =>
      fst out = Ok {| status := 200; body := Success file |}
      /\ rows (pg (snd out)) = delete (projectId, filePath) (rows (pg w))
      /\ projectIndex projectId (chroma (snd out))
         = delete (fileId projectId filePath)
                  (projectIndex projectId (chroma w))
  | None =>
      fst out = Ok {| status := 404;
                      body := Failure (u "File not found")
                                      (Some (u "File not found: " ++ filePath)) |}
      /\ rows (pg (snd out)) = rows (pg w)
      /\ chroma (snd out) = chroma w
  end.
Proof.
  intros Hpath _ _ Hpg Hup1 Hup2 out. subst out.
  destruct w as [db c]. cbn [pg chroma] in *.
  unfold delete_file. destruct filePath as [|x filePath]; [done|].
  set (path := x :: filePath). unfold tryCatch, bind.
  destruct (rows db !! (projectId, path)) as [file|] eqn:Hrow.
  - destruct (deleteFiles_one projectId path c Hup1 Hup2)
      as (c' & Hdel & _ & Hidx).
    rewrite (onPg_run _ _ _ c _ (deleteFile_found _ _ db file Hpg Hrow)).
    rewrite (onChroma_run _ _ _ _ _ Hdel).
    by cbn [fst snd pg chroma withRows rows pg_tick ret].
  - rewrite (onPg_run _ _ _ c _ (deleteFile_missing _ _ db Hpg Hrow)).
    by rewrite saysNotFound_fileNotFound.
Qed.

Lemma delete_file_answers_witness :
  let out := delete_file sampleProject (u "a.js") sampleWorld in
  fst out = Ok {| status := 200; body := Success sampleRow |}
  /\ rows (pg (snd out)) !! (sampleProject, u "a.js") = None
  /\ fst (delete_file sampleProject (u "src/b.js") sampleWorld)
     = Ok {| status := 404;
             body := Failure (u "File not found")
                             (Some (u "File not found: src/b.js")) |}.
Proof.
  intros out. split; [|split].
  - by destruct (delete_file_answers sampleProject (u "a.js") sampleWorld)
      as (Hok & _); [..|exact Hok].
  - destruct (delete_file_answers sampleProject (u "a.js") sampleWorld)
      as (_ & Hrows & _); [done..|].
    fold out in Hrows. rewrite Hrows. apply lookup_delete_eq.
  - by destruct (delete_file_answers sampleProject (u "src/b.js") sampleWorld)
      as (Hok & _); [..|exact Hok].
Defined.

(** X19: [DELETE /:projectId/*] is not atomic: when the vector store cannot be
    reached, the answer is 500, the row is gone from the table, and the
    index keeps what it held. *)
Theorem delete_file_is_not_atomic (projectId filePath e : list N)
        (file : FileRow) (w : World) :
  filePath ≠ [] ->
  pg_down (pg w) (pg_calls (pg w)) = None ->
  rows (pg w) !! (projectId, filePath) = Some file ->
  down (chroma w) (calls (chroma w)) = Some e ->
  let out := delete_file projectId filePath w in
  fst out = Ok {| status := if saysNotFound e then 404 else 500;
                  body := Failure (if saysNotFound e then u "File not found"
                                   else u "Failed to delete file") (Some e) |}
  /\ rows (pg (snd out)) !! (projectId, filePath) = None
  /\ collections (chroma (snd out)) = collections (chroma w).
Proof.
  intros Hpath Hpg Hrow Hdown out. subst out.
  destruct w as [db c]. cbn [pg chroma] in *.
  unfold delete_file. destruct filePath as [|x filePath]; [done|].
  set (path := x :: filePath) in *. unfold tryCatch, bind.
  rewrite (onPg_run _ _ _ c _ (deleteFile_found _ _ db file Hpg Hrow)).
  rewrite (onChroma_run _ _ _ _ _ (deleteFiles_down projectId [path] c e Hdown)).
  destruct (saysNotFound e);
    cbn [fst snd pg chroma withRows rows pg_tick ret tick collections];
    by rewrite lookup_delete_eq.
Qed.

Lemma delete_file_is_not_atomic_witness :
  let w := {| pg := pg oneFileWorld; chroma := unreachableStore |} in
  let out := delete_file (u "p1") (u "a.js") w in
  fst out = Ok {| status := 500;
                  body := Failure (u "Failed to delete file")
                                  (Some (u "ECONNREFUSED")) |}
  /\ rows (pg (snd out)) !! (u "p1", u "a.js") = None
  /\ collections (chroma (snd out)) = collections (chroma w).
Proof.
  apply (delete_file_is_not_atomic (u "p1") (u "a.js") (u "ECONNREFUSED")
           {| row_project_id := u "p1"; row_path := u "a.js";
              row_content := VStr (u "let a;");
              row_language := VStr (u "javascript") |}
           {| pg := pg oneFileWorld; chroma := unreachableStore |});
    done.
Defined.

(** X20: [POST /search] never answers 500: it answers 400 when the project or
    the query is missing, and otherwise 200, also when the vector store
    cannot be reached, the results being empty then; the table is never
    touched. *)
Theorem post_search_never_fails (localeCompare : list N -> list N -> Z)
        (projectId query : value) (limit : option nat) (w : World) :
  let out := post_search localeCompare projectId query limit w in
  (exists answer,
     fst out = Ok answer
     /\ ans_status answer
        = if falsy projectId || falsy query then 400 else 200)
  /\ pg (snd out) = pg w
  /\ (falsy projectId || falsy query = false ->
      forall e, down (chroma w) (calls (chroma w)) = Some e ->
      fst out = Ok {| ans_status := 200;
                      ans_body := Sent {| r_files := []; r_structure := [] |} |}).
Proof.
  cbv zeta. destruct w as [db c]. unfold post_search. cbn [pg chroma].
  destruct (falsy projectId || falsy query) eqn:Hf.
  - split; [by eexists|]. split; [done|]. done.
  - unfold tryCatch, bind, onChroma. cbn [pg chroma].
    destruct (queryRelevantFiles_returns localeCompare (text projectId)
                (text query) (default 5 limit) c) as [v Hv].
    destruct (queryRelevantFiles _ _ _ _ c) as [[v'|e'] c'] eqn:E;
      cbn [fst] in Hv; [|done]. injection Hv as ->.
    cbn [fst snd ret pg]. split; [by eexists|]. split; [done|].
    intros _ e Hdown. revert E. unfold queryRelevantFiles, tryCatch.
    rewrite (bind_throw _ _ c (tick c) e)
      by by apply getOrCreateCollection_down.
    by intros [= <- <-].
Qed.

Lemma upsertFiles_indexes_batch (now : nat -> N) (projectId : list N)
      (files : list FileInput) (c : Chroma) :
  files ≠ [] ->
  down c (calls c) = None -> down c (S (calls c)) = None ->
  NoDup (map (fun f => fileId projectId (fi_path f)) files) ->
  exists c',
    upsertFiles now projectId files c = (Ok tt, c')
    /\ forall idx f, files !! idx = Some f ->
         projectIndex projectId c' !! fileId projectId (fi_path f)
         = Some (indexed (now idx) f).
Proof.
  intros Hne Hup1 Hup2 Hnd.
  destruct (upsertFiles_outcome now projectId files c) as (_ & _ & Hsure).
  destruct (Hsure Hne Hup1 Hup2 Hnd) as [Hok Hidx].
  destruct (upsertFiles now projectId files c) as [r c'].
  cbn [fst snd] in *. subst r. exists c'. split; [done|].
  intros idx f Hf. rewrite Hidx, <- entryOf_indexed.
  apply (upsertAll_row _ _ idx).
  - by rewrite rowsOf_ids.
  - by rewrite (rowsOf_lookup _ _ _ _ _ _ Hf).
Qed.

(** X21: [POST /batch] for a project id that is a UUID, with files that the
    table keeps as they are, whose contents are strings and whose
    identifiers differ, on a database that takes every statement and a
    vector store that answers: the answer is 200 with the rows saved, in the
    order of the batch, and their number; afterwards the table holds the row
    of every file and the index the entry of every file. *)
Theorem post_batch_saves_and_indexes (now : nat -> N) (projectId : list N)
        (files : list FileInput) (w : World) :
  projectId ≠ [] -> files ≠ [] ->
  isUuid projectId = true -> Forall storableFile files ->
  pgAlwaysUp (pg w) ->
  down (chroma w) (calls (chroma w)) = None ->
  down (chroma w) (S (calls (chroma w))) = None ->
  Forall hasText files ->
  NoDup (map (fun f => fileId projectId (fi_path f)) files) ->
  let out := post_batch now (VStr projectId) (Some files) w in
  fst out = Ok {| ans_status := 200;
                  ans_body := Sent {| batch_files := map (rowOf projectId) files;
                                      batch_count := length files |} |}
  /\ forall idx f, files !! idx = Some f ->
       rows (pg (snd out)) !! (projectId, fi_path f) = Some (rowOf projectId f)
       /\ projectIndex projectId (chroma (snd out)) !! fileId projectId (fi_path f)
          = Some (indexed (now idx) f).
Proof.
  intros Hpid Hne _ _ Hpg Hup1 Hup2 Htext Hnd out. subst out.
  destruct w as [db c]. cbn [pg chroma] in *.
  destruct (upsertFiles_indexes_batch now projectId files c Hne Hup1 Hup2 Hnd)
    as (c' & Hups & Hidx).
  pose proof (saveFilesFrom_ok projectId files db [] Hpg Htext) as Hsave.
  fold (saveFiles projectId files) in Hsave. cbn [app] in Hsave.
  unfold post_batch. rewrite falsy_string by done. cbn [text].
  unfold tryCatch, bind.
  rewrite (onPg_run _ _ _ c _ Hsave).
  rewrite (onChroma_run _ _ _ _ _ Hups).
  cbn [fst snd pg chroma ret]. rewrite length_map. split; [done|].
  intros idx f Hf. split; [|by apply Hidx].
  apply list_elem_of_split_length in Hf as (before & after & -> & _).
  apply savedRows_last. intros Hin.
  rewrite map_app in Hnd. cbn [map] in Hnd.
  apply NoDup_app in Hnd as (_ & _ & Hnd). apply NoDup_cons in Hnd as [Hfresh _].
  apply Hfresh. apply list_elem_of_In, in_map_iff.
  apply list_elem_of_In, in_map_iff in Hin as (g & Hg & Hin).
  exists g. split; [by rewrite Hg|done].
Qed.

Lemma post_batch_saves_and_indexes_witness :
  let files := [ {| fi_path := u "src/b.js"; fi_content := VStr (u "let b;");
                    fi_language := VStr (u "js") |};
                 {| fi_path := u "NOTES"; fi_content := VStr [];
                    fi_language := VUndefined |} ] in
  let out := post_batch (fun i => N.of_nat (7 + i)) (VStr sampleProject)
                        (Some files) sampleWorld in
  let b := {| row_project_id := sampleProject; row_path := u "src/b.js";
              row_content := VStr (u "let b;");
              row_language := VStr (u "js") |} in
  let notes := {| row_project_id := sampleProject; row_path := u "NOTES";
                  row_content := VStr []; row_language := VStr (u "text") |} in
  fst out = Ok {| ans_status := 200;
                  ans_body := Sent {| batch_files := [b; notes];
                                      batch_count := 2 |} |}
  /\ rows (pg (snd out)) !! (sampleProject, u "src/b.js") = Some b
  /\ rows (pg (snd out)) !! (sampleProject, u "NOTES") = Some notes
  /\ projectIndex sampleProject (chroma (snd out))
       !! (sampleProject ++ u "_src_b.js")
     = Some {| document := u "let b;";
               metadata := {| md_path := u "src/b.js"; md_language := u "js";
                              md_lastModified := 7 |} |}
  /\ projectIndex sampleProject (chroma (snd out))
       !! (sampleProject ++ u "_NOTES")
     = Some {| document := [];
               metadata := {| md_path := u "NOTES"; md_language := u "text";
                              md_lastModified := 8 |} |}.
Proof.
  intros files out b notes.
  destruct (post_batch_saves_and_indexes (fun i => N.of_nat (7 + i))
              sampleProject files sampleWorld) as (Hok & Hall);
    [done|done|by vm_compute| |done|done|done| | |].
  - repeat constructor; try (by vm_compute); by intros s [= <-].
  - repeat constructor; by eexists.
  - apply (bool_decide_unpack _). by vm_compute.
  - destruct (Hall 0 _ eq_refl) as [Hrow0 Hidx0].
    destruct (Hall 1 _ eq_refl) as [Hrow1 Hidx1].
    split; [exact Hok|]. split; [exact Hrow0|]. split; [exact Hrow1|].
    split; [exact Hidx0|exact Hidx1].
Defined.

(** ** Renaming *)

(** X22: [POST /rename] of a file of the table to another path, one that the
    table keeps as it is, on stores that answer: the answer is 200; the
    table holds the content and the language of the old row under the new
    path, whatever it held there before, and nothing under the old path; the
    index holds the entry of the file under the identifier of the new path,
    and none under the identifier of the old path when the two differ. *)
Theorem rename_moves_the_file (now : nat -> N)
        (projectId oldPath newPath content : list N) (row : FileRow)
        (w : World) :
  pgAlwaysUp (pg w) -> alwaysUp (chroma w) ->
  projectId ≠ [] -> oldPath ≠ [] -> newPath ≠ [] -> oldPath ≠ newPath ->
  isUuid projectId = true -> fits 500 newPath = true ->
  rows (pg w) !! (projectId, oldPath) = Some row ->
  row_content row = VStr content ->
  let file := {| fi_path := newPath; fi_content := VStr content;
                 fi_language := row_language row |} in
  let out := rename now (VStr projectId) (VStr oldPath) (VStr newPath) w in
  fst out = Ok {| status := 200; body := Success (rowOf projectId file) |}
  /\ rows (pg (snd out)) !! (projectId, newPath) = Some (rowOf projectId file)
  /\ rows (pg (snd out)) !! (projectId, oldPath) = None
  /\ projectIndex projectId (chroma (snd out)) !! fileId projectId newPath
     = Some (indexed (now 0) file)
  /\ (fileId projectId oldPath ≠ fileId projectId newPath ->
      projectIndex projectId (chroma (snd out)) !! fileId projectId oldPath
      = None).
Proof.
  intros Hpg Hch Hpid Hold Hnew Hne _ _ Hrow Hcontent file out. subst out.
  destruct w as [db c]. cbn [pg chroma] in *.
  destruct (deleteFiles_one projectId oldPath c (Hch _) (Hch _))
    as (c1 & Hdel & Hd1 & Hidx1).
  assert (alwaysUp c1) as Hch1 by (intros i; by rewrite Hd1).
  destruct (upsertFiles_one now projectId file c1 (Hch1 _) (Hch1 _))
    as (c2 & Hups & _ & Hidx2).
  pose (db2 := withRows (insert (projectId, newPath) (rowOf projectId file))
                        (pg_tick (pg_tick db))).
  assert (rows db2 !! (projectId, oldPath) = Some row) as Hrow2.
  { cbn [db2 withRows rows pg_tick].
    rewrite lookup_insert_ne; [done|]. by intros [= ?]. }
  unfold rename. rewrite !falsy_string by done. cbn [orb text].
  unfold tryCatch, bind.
  rewrite (onPg_run _ _ _ c _ (readFile_found _ _ db row (Hpg _) Hrow)).
  rewrite Hcontent.
  rewrite (onPg_run _ _ _ c _
             (saveFile_string projectId newPath content (row_language row)
                (pg_tick db) (Hpg _))).
  pose proof (rowOf_defaultText projectId file) as Hsaved.
  unfold file at 1 2 3 in Hsaved.
  cbn [fi_path fi_content fi_language] in Hsaved. rewrite Hsaved.
  change (withRows _ (pg_tick (pg_tick db))) with db2.
  rewrite (onPg_run _ _ _ c _
             (deleteFile_found projectId oldPath db2 row (Hpg _) Hrow2)).
  rewrite (onChroma_run _ _ _ _ _ Hdel).
  rewrite (onChroma_run _ _ _ _ _ Hups).
  cbn [fst snd pg chroma ret withRows rows pg_tick].
  split; [done|]. split.
  { rewrite lookup_delete_ne by (by intros [= ?]).
    cbn [db2 withRows rows]. by rewrite lookup_insert_eq. }
  split; [by rewrite lookup_delete_eq|].
  rewrite Hidx2, Hidx1, entryOf_indexed. cbn [file fi_path]. split.
  - by rewrite lookup_insert_eq.
  - intros Hids. rewrite lookup_insert_ne by done. by rewrite lookup_delete_eq.
Qed.

Lemma rename_moves_the_file_witness :
  let out := rename (fun _ => 7%N) (VStr sampleProject) (VStr (u "a.js"))
                    (VStr (u "src/b.js")) sampleWorld in
  let row := {| row_project_id := sampleProject; row_path := u "src/b.js";
                row_content := VStr (u "let a;");
                row_language := VStr (u "javascript") |} in
  fst out = Ok {| status := 200; body := Success row |}
  /\ rows (pg (snd out)) !! (sampleProject, u "src/b.js") = Some row
  /\ rows (pg (snd out)) !! (sampleProject, u "a.js") = None
  /\ projectIndex sampleProject (chroma (snd out))
       !! (sampleProject ++ u "_src_b.js")
     = Some {| document := u "let a;";
               metadata := {| md_path := u "src/b.js";
                              md_language := u "javascript";
                              md_lastModified := 7 |} |}
  /\ projectIndex sampleProject (chroma (snd out))
       !! (sampleProject ++ u "_a.js")
     = None.
Proof.
  intros out row.
  destruct (rename_moves_the_file (fun _ => 7%N) sampleProject (u "a.js")
              (u "src/b.js") (u "let a;") sampleRow sampleWorld)
    as (Hok & Hnew & Hold & Hidx & Hgone);
    [done|done|done|done|done|done|by vm_compute|by vm_compute|done|done|].
  split; [exact Hok|]. split; [exact Hnew|]. split; [exact Hold|].
  split; [exact Hidx|]. apply Hgone. by vm_compute.
Defined.

(** X23: [POST /rename] of a file the table does not hold, for a project id
    that is a UUID and an old path that the database compares as it is, on
    a database that takes the statement, is answered 500, not 404, with the
    message of [readFile] as details; no row and no entry is written. *)
Theorem rename_of_a_missing_file (now : nat -> N)
        (projectId oldPath newPath : list N) (w : World) :
  projectId ≠ [] -> oldPath ≠ [] -> newPath ≠ [] ->
  isUuid projectId = true -> isText oldPath = true ->
  pg_down (pg w) (pg_calls (pg w)) = None ->
  rows (pg w) !! (projectId, oldPath) = None ->
  let out := rename now (VStr projectId) (VStr oldPath) (VStr newPath) w in
  fst out = Ok {| status := 500;
                  body := Failure (u "Failed to rename file")
                                  (Some (u "File not found: " ++ oldPath)) |}
  /\ rows (pg (snd out)) = rows (pg w)
  /\ chroma (snd out) = chroma w.
Proof.
  intros Hpid Hold Hnew _ _ Hpg Hrow out. subst out.
  destruct w as [db c]. cbn [pg chroma] in *.
  unfold rename. rewrite !falsy_string by done. cbn [orb text].
  unfold tryCatch, bind.
  by rewrite (onPg_run _ _ _ c _ (readFile_missing _ _ db Hpg Hrow)).
Qed.

Lemma rename_of_a_missing_file_witness :
  let out := rename (fun _ => 7%N) (VStr sampleProject) (VStr (u "src/b.js"))
                    (VStr (u "c.js")) sampleWorld in
  fst out = Ok {| status := 500;
                  body := Failure (u "Failed to rename file")
                                  (Some (u "File not found: src/b.js")) |}
  /\ rows (pg (snd out)) = rows (pg sampleWorld)
  /\ chroma (snd out) = chroma sampleWorld.
Proof.
  by apply (rename_of_a_missing_file (fun _ => 7%N) sampleProject
              (u "src/b.js") (u "c.js") sampleWorld).
Defined.

(** ** Paths and their parts *)

Lemma splitOn_cons (sep : N) (s : list N) :
  exists w ws, splitOn sep s = w :: ws.
Proof.
  induction s as [|c s (w & ws & IH)]; [by eexists _, _|].
  cbn [splitOn]. destruct (c =? sep)%N; [by eexists _, _|].
  rewrite IH. by eexists _, _.
Qed.

Lemma splitOn_app (sep : N) (a b : list N) :
  splitOn sep (a ++ sep :: b) = splitOn sep a ++ splitOn sep b.
Proof.
  induction a as [|c a IH].
  - cbn [app splitOn]. by rewrite N.eqb_refl.
  - cbn [app splitOn]. destruct (c =? sep)%N; [by rewrite IH|].
    rewrite IH. by destruct (splitOn_cons sep a) as (w & ws & ->).
Qed.

Lemma splitOn_plain (sep : N) (s : list N) : sep ∉ s -> splitOn sep s = [s].
Proof.
  induction s as [|c s IH]; [done|]. intros [Hc Hs]%not_elem_of_cons.
  cbn [splitOn]. destruct (N.eqb_spec c sep) as [->|_]; [done|].
  by rewrite IH.
Qed.

Lemma splitOn_parts (sep : N) (s : list N) :
  Forall (fun part => sep ∉ part) (splitOn sep s).
Proof.
  induction s as [|c s IH].
  - constructor; [|done]. by intros ?%elem_of_nil.
  - cbn [splitOn]. destruct (N.eqb_spec c sep) as [->|Hne].
    + constructor; [|done]. by intros ?%elem_of_nil.
    + destruct (splitOn sep s) as [|w ws]; [|apply Forall_cons in IH as [Hw Hws]].
      * constructor; [|done].
        intros [?|?%elem_of_nil]%elem_of_cons; [congruence|done].
      * constructor; [|done].
        intros [?|?]%elem_of_cons; [congruence|done].
Qed.

Lemma pathParts_app (a b : list N) :
  pathParts (a ++ u "/" ++ b) = pathParts a ++ pathParts b.
Proof.
  unfold pathParts. change (u "/" ++ b) with (47%N :: b).
  by rewrite splitOn_app, filter_app.
Qed.

Lemma pathParts_plain (name : list N) : plainName name -> pathParts name = [name].
Proof.
  intros [Hne Hplain]. unfold pathParts. rewrite splitOn_plain by done.
  rewrite filter_cons. by rewrite decide_True.
Qed.

Lemma pathParts_plainNames (path : list N) : Forall plainName (pathParts path).
Proof.
  unfold pathParts. pose proof (splitOn_parts 47 path) as H.
  induction H as [|part parts Hpart _ IH]; [done|].
  rewrite filter_cons. destruct (decide (part ≠ [])); [|done].
  by constructor.
Qed.

(** X24: a slash separates and does nothing else: the parts of a path are those
    in front of a slash followed by those behind it, each of them not empty
    and without slash; so a slash at the start or at the end of a path, or
    one that follows another, does not change the tree of
    [buildFileTree]. *)
Theorem slashes_only_separate (a b : list N) (paths : list (list N)) :
  pathParts (a ++ u "/" ++ b) = pathParts a ++ pathParts b
  /\ Forall plainName (pathParts a)
  /\ buildFileTree (paths ++ [u "/" ++ a ++ u "//" ++ b ++ u "/"])
     = buildFileTree (paths ++ [a ++ u "/" ++ b]).
Proof.
  assert (pathParts (u "/" ++ a ++ u "//" ++ b ++ u "/")
          = pathParts a ++ pathParts b) as Hparts.
  { change (pathParts (u "/" ++ a ++ u "//" ++ b ++ u "/"))
      with (pathParts ([] ++ u "/" ++ (a ++ u "/" ++ ([] ++ u "/"
                                       ++ (b ++ u "/" ++ []))))).
    rewrite !pathParts_app.
    change (pathParts []) with (@nil (list N)). by rewrite app_nil_r. }
  split; [apply pathParts_app|]. split; [apply pathParts_plainNames|].
  unfold buildFileTree. rewrite !fold_left_app. cbn [fold_left].
  by rewrite Hparts, pathParts_app.
Qed.

(** ** The tree of [buildFileTree] *)

Lemma getOwn_setOwn_eq {V} (k : list N) (v : V) (ps : list (list N * V)) :
  getOwn k (setOwn k v ps) = Some v.
Proof.
  induction ps as [|[k' v'] ps IH]; cbn [setOwn getOwn].
  - by rewrite bool_decide_true.
  - destruct (decide (k' = k)) as [->|Hne].
    + rewrite bool_decide_true by done. cbn [getOwn].
      by rewrite bool_decide_true.
    + rewrite bool_decide_false by done. cbn [getOwn].
      by rewrite bool_decide_false.
Qed.

Lemma getOwn_setOwn_ne {V} (k k0 : list N) (v : V) (ps : list (list N * V)) :
  k0 ≠ k -> getOwn k0 (setOwn k v ps) = getOwn k0 ps.
Proof.
  intros Hne. induction ps as [|[k' v'] ps IH]; cbn [setOwn getOwn].
  - by rewrite bool_decide_false.
  - destruct (decide (k' = k)) as [->|Hne'].
    + rewrite bool_decide_true by done. cbn [getOwn].
      by rewrite !bool_decide_false by done.
    + rewrite bool_decide_false by done. cbn [getOwn]. by rewrite IH.
Qed.

Lemma getOwn_elem {V} (k : list N) (v : V) (ps : list (list N * V)) :
  getOwn k ps = Some v -> (k, v) ∈ ps.
Proof.
  induction ps as [|[k' v'] ps IH]; [done|]. cbn [getOwn].
  destruct (decide (k' = k)) as [->|Hne].
  - rewrite bool_decide_true by done. intros [= ->]. apply elem_of_cons. by left.
  - rewrite bool_decide_false by done. intros H. apply elem_of_cons. right. auto.
Qed.

(** Once walked, a path is in the tree. *)
Lemma walk_hasPath (parts : list (list N)) :
  forall tree, Forall (fun part => inherited part = false) parts ->
               hasPath parts (walk parts tree).
Proof.
  induction parts as [|part rest IH]; intros [ps] Hparts; [done|].
  apply Forall_cons in Hparts as [Hpart Hrest].
  cbn [walk props hasPath]. rewrite Hpart.
  destruct (getOwn part ps) as [[sub|]|];
    destruct rest as [|part' rest'];
    cbn [props]; rewrite getOwn_setOwn_eq; try done; by apply IH.
Qed.

(** The walk of another path takes no path out of the tree. *)
Lemma walk_keeps_path (parts : list (list N)) :
  forall (other : list (list N)) (tree : jsobj),
    hasPath parts tree -> hasPath parts (walk other tree).
Proof.
  induction parts as [|part rest IH]; intros other [ps] Hp; [done|].
  destruct other as [|part' rest']; [done|].
  cbn [hasPath props] in Hp. cbn [walk props].
  destruct (decide (part = part')) as [<-|Hne].
  - destruct (getOwn part ps) as [[sub|]|] eqn:E; [| |done].
    + cbn [hasPath props]. rewrite getOwn_setOwn_eq. by apply IH.
    + subst rest. destruct rest'; cbn [hasPath props];
        by rewrite getOwn_setOwn_eq.
  - assert (forall v, getOwn part (setOwn part' v ps) = getOwn part ps) as Hsame
        by (intros v; by apply getOwn_setOwn_ne).
    destruct (getOwn part' ps) as [[sub'|]|];
      try destruct (inherited part'); try destruct rest';
      cbn [hasPath props]; rewrite ?Hsame; done.
Qed.

Lemma buildFileTree_hasPath (paths : list (list N)) (path : list N) :
  path ∈ paths ->
  Forall (fun part => inherited part = false) (pathParts path) ->
  hasPath (pathParts path) (buildFileTree paths).
Proof.
  intros (before & after & ->)%list_elem_of_split Hparts.
  unfold buildFileTree. rewrite fold_left_app. cbn [fold_left].
  set (tree := walk _ (fold_left _ before _)).
  assert (hasPath (pathParts path) tree) as Htree by by apply walk_hasPath.
  clearbody tree. revert tree Htree.
  induction after as [|other after IH]; intros tree Htree; [done|].
  cbn [fold_left]. apply IH. by apply walk_keeps_path.
Qed.

Lemma includes_app_l (p a b : list N) :
  includes p a = true -> includes p (a ++ b) = true.
Proof.
  intros (x & y & ->)%includes_spec. apply includes_spec.
  exists x, (y ++ b). by rewrite <- !app_assoc.
Qed.

Lemma includes_app_r (p a b : list N) :
  includes p b = true -> includes p (a ++ b) = true.
Proof.
  intros (x & y & ->)%includes_spec. apply includes_spec.
  exists (a ++ x), y. by rewrite <- !app_assoc.
Qed.

Lemma includes_concat (p : list N) (l : list (list N)) (s : list N) :
  s ∈ l -> includes p s = true -> includes p (concat l) = true.
Proof.
  intros (before & after & ->)%list_elem_of_split Hs.
  rewrite concat_app. cbn [concat].
  by apply includes_app_r, includes_app_l.
Qed.

(** A path of the tree has its line in the outline: the name of its last
    part behind the icon of a file or of a directory, two spaces deeper for
    every part in front of it. *)
Lemma hasPath_outlined (localeCompare : list N -> list N -> Z)
      (init : list (list N)) (name : list N) :
  forall (tree : jsobj) (indent : list N),
    hasPath (init ++ [name]) tree ->
    exists icon,
      (icon = fileIcon \/ icon = folderIcon)
      /\ includes (outlineLine indent (length init) icon name)
                  (treeToString localeCompare tree indent) = true.
Proof.
  induction init as [|part init IH]; intros [ps] indent Hp.
  - cbn [app hasPath props] in Hp.
    destruct (getOwn name ps) as [v|] eqn:E; [|done].
    exists (if isFile v then fileIcon else folderIcon).
    split; [destruct (isFile v); auto|].
    rewrite treeToString_eq. cbn [props].
    apply (includes_concat _ _ (entryLines localeCompare indent (name, v))).
    + apply list_elem_of_In, in_map. apply list_elem_of_In.
      unfold sortedEntries. rewrite sortBy_perm, entries_perm.
      by apply getOwn_elem.
    + unfold entryLines, outlineLine. cbn [fst snd replicate concat app length].
      apply includes_spec. exists [].
      eexists. cbn [app]. by rewrite <- !app_assoc.
  - cbn [app hasPath props] in Hp.
    destruct (getOwn part ps) as [[sub|]|] eqn:E; [| |done].
    2:{ by destruct init. }
    destruct (IH sub (indent ++ u "  ") Hp) as (icon & Hicon & Hin).
    exists icon. split; [done|].
    rewrite treeToString_eq. cbn [props].
    apply (includes_concat _ _ (entryLines localeCompare indent (part, Some sub))).
    + apply list_elem_of_In, in_map. apply list_elem_of_In.
      unfold sortedEntries. rewrite sortBy_perm, entries_perm.
      by apply getOwn_elem.
    + unfold entryLines. cbn [fst snd isFile].
      rewrite !app_assoc. apply includes_app_r.
      unfold outlineLine in *. cbn [length replicate concat].
      by rewrite <- !app_assoc in *.
Qed.

(** *** The tree and [Object.prototype] *)

(** A walk that steps on no inherited name stays in the tree, and is the
    walk of [walk]. *)
Lemma walkIn_ordinary (polluted : list N -> bool) (parts : list (list N)) :
  forall tree,
    Forall (fun part => inherited part || polluted part = false) parts ->
    walkIn polluted parts tree = Some (walk parts tree).
Proof.
  induction parts as [|part rest IH]; intros [ps] Hparts; [done|].
  apply Forall_cons in Hparts as [Hpart Hrest].
  pose proof Hpart as [Hin _]%orb_false_iff.
  cbn [walkIn walk props]. rewrite Hpart, Hin.
  destruct (getOwn part ps) as [[sub|]|];
    destruct rest as [|part' rest']; try done; by rewrite IH.
Qed.

Lemma ordinaryIn_ordinary (polluted : list N -> bool) (path : list N) :
  ordinaryIn polluted path -> ordinary path.
Proof.
  unfold ordinaryIn, ordinary. intros H. apply (Forall_impl _ _ _ H).
  by intros part [? _]%orb_false_iff.
Qed.

Lemma buildFileTreeIn_ordinary (polluted : list N -> bool)
      (paths : list (list N)) :
  Forall (ordinaryIn polluted) paths ->
  buildFileTreeIn polluted paths = Some (buildFileTree paths).
Proof.
  unfold buildFileTreeIn, buildFileTree. generalize (Obj []).
  induction paths as [|path paths IH]; intros tree Hpaths; [done|].
  apply Forall_cons in Hpaths as [Hpath Hpaths]. cbn [fold_left].
  rewrite walkIn_ordinary by done. by apply IH.
Qed.

(** A walk that steps on an inherited name leaves the tree: the walk of
    [__proto__/lib/a.js] does, and so does, once it has put [lib] into
    [Object.prototype], the walk of [lib/b.js] of any later call. *)
Lemma walkIn_leaves_the_tree :
  walkIn (fun _ => false) (pathParts (u "__proto__/lib/a.js")) (Obj []) = None
  /\ walkIn (fun name => bool_decide (name = u "lib"))
            (pathParts (u "lib/b.js")) (Obj []) = None
  /\ walkIn (fun _ => false) (pathParts (u "lib/b.js")) (Obj [])
     = Some (Obj [(u "lib", Some (Obj [(u "b.js", None)]))]).
Proof. by vm_compute. Qed.

(** X25: every path that is indexed is shown, as long as no part of an indexed
    path is a name that objects inherit, from [Object.prototype] as the
    language has it or from what the process has added to it: then
    [buildFileTree] stays in the tree and the outline holds, for every
    indexed path, the line of its last part, at the depth of the path. *)
Theorem every_path_is_outlined (localeCompare : list N -> list N -> Z)
        (polluted : list N -> bool)
        (paths : list (list N)) (path : list N) (init : list (list N))
        (name : list N) :
  Forall (ordinaryIn polluted) paths ->
  path ∈ paths ->
  pathParts path = init ++ [name] ->
  exists tree icon,
    buildFileTreeIn polluted paths = Some tree
    /\ (icon = fileIcon \/ icon = folderIcon)
    /\ includes (outlineLine [] (length init) icon name)
                (treeToString localeCompare tree []) = true.
Proof.
  intros Hpaths Hin Hsplit.
  destruct (hasPath_outlined localeCompare init name (buildFileTree paths) [])
    as (icon & Hicon & Hline).
  { rewrite <- Hsplit. apply buildFileTree_hasPath; [done|].
    rewrite Forall_forall in Hpaths.
    by apply (ordinaryIn_ordinary polluted), Hpaths. }
  exists (buildFileTree paths), icon.
  split; [by apply buildFileTreeIn_ordinary|done].
Qed.

Lemma every_path_is_outlined_witness :
  exists tree icon,
    buildFileTreeIn (fun name => bool_decide (name = u "lib"))
                    [u "README"; u "src/core/a.js"; u "src/b.js"]
    = Some tree
    /\ (icon = fileIcon \/ icon = folderIcon)
    /\ includes (u "    " ++ icon ++ u " a.js" ++ [nl])
                (treeToString compareUnits tree []) = true.
Proof.
  apply (every_path_is_outlined compareUnits
           (fun name => bool_decide (name = u "lib")) _ (u "src/core/a.js")
           [u "src"; u "core"] (u "a.js")).
  - repeat constructor; by vm_compute.
  - apply (bool_decide_unpack _). by vm_compute.
  - by vm_compute.
Defined.

(** ** The order of the paths *)

Lemma walked_ext (parts : list (list N)) :
  forall (f g : list (list N) -> option Kind) (path : list (list N)),
    (forall x, f x = g x) -> walked parts f path = walked parts g path.
Proof.
  induction parts as [|part rest IH]; intros f g path Hfg.
  - destruct path; cbn [walked]; by rewrite Hfg.
  - destruct path as [|k path]; [done|]. cbn [walked].
    destruct (decide (k = part)); [|done]. apply IH. intros x. apply Hfg.
Qed.

(** Behind a first part, [walked] only asks what is held at paths that are
    not empty. *)
Lemma walked_ext_cons (part : list N) (rest : list (list N))
      (f g : list (list N) -> option Kind) (path : list (list N)) :
  (forall k x, f (k :: x) = g (k :: x)) ->
  walked (part :: rest) f path = walked (part :: rest) g path.
Proof.
  intros Hfg. destruct path as [|k path]; [done|]. cbn [walked].
  destruct (decide (k = part)); [|done]. apply walked_ext. intros x. apply Hfg.
Qed.

(** Two walks commute in what the tree holds afterwards. *)
Lemma walked_comm (p : list (list N)) :
  forall (q : list (list N)) (f : list (list N) -> option Kind)
         (path : list (list N)),
    walked p (walked q f) path = walked q (walked p f) path.
Proof.
  induction p as [|a p IH]; intros q f path.
  - destruct q as [|b q]; [done|].
    destruct path as [|k path]; [done|].
    symmetry. by apply walked_ext_cons.
  - destruct q as [|b q].
    + destruct path as [|k path]; [done|]. by apply walked_ext_cons.
    + destruct path as [|k path]; [done|].
      change (walked (a :: p) (walked (b :: q) f) (k :: path))
        with (if decide (k = a)
              then walked p (fun x => walked (b :: q) f (a :: x)) path
              else walked (b :: q) f (k :: path)).
      change (walked (b :: q) (walked (a :: p) f) (k :: path))
        with (if decide (k = b)
              then walked q (fun x => walked (a :: p) f (b :: x)) path
              else walked (a :: p) f (k :: path)).
      destruct (decide (k = a)) as [Hka|Hka], (decide (k = b)) as [Hkb|Hkb].
      * subst a b.
        rewrite (walked_ext p _ (walked q (fun x => f (k :: x)))).
        2:{ intros x. cbn [walked]. by rewrite decide_True. }
        rewrite (walked_ext q (fun x => walked (k :: p) f (k :: x))
                   (walked p (fun x => f (k :: x)))).
        2:{ intros x. cbn [walked]. by rewrite decide_True. }
        apply IH.
      * subst a. cbn [walked]. rewrite decide_True by done.
        apply walked_ext. intros x. cbn [walked]. by rewrite decide_False.
      * subst b. cbn [walked]. rewrite decide_True by done.
        apply walked_ext. intros x. cbn [walked].
        rewrite decide_False; [done|]. by intros ->.
      * cbn [walked]. by rewrite !decide_False by done.
Qed.

(** What the tree holds once a path was walked. *)
Lemma kindAt_walk (parts : list (list N)) :
  forall (tree : jsobj) (path : list (list N)),
    Forall (fun part => inherited part = false) parts ->
    kindAt (walk parts tree) path = walked parts (kindAt tree) path.
Proof.
  induction parts as [|part rest IH]; intros [ps] path Hparts.
  - by destruct path.
  - apply Forall_cons in Hparts as [Hpart Hrest].
    destruct path as [|k path]; [done|].
    cbn [walked walk props]. rewrite Hpart.
    destruct (decide (k = part)) as [->|Hne].
    + destruct (getOwn part ps) as [[sub|]|] eqn:E.
      * cbn [kindAt props]. rewrite getOwn_setOwn_eq, IH by done.
        apply walked_ext. intros x. cbn [kindAt props]. by rewrite E.
      * destruct rest as [|r rest'].
        -- cbn [kindAt props walked]. rewrite getOwn_setOwn_eq, E.
           by destruct path.
        -- cbn [kindAt props]. rewrite getOwn_setOwn_eq, IH by done.
           apply walked_ext_cons. intros k x. cbn [kindAt props getOwn].
           by rewrite E.
      * destruct rest as [|r rest'].
        -- cbn [kindAt props walked]. rewrite getOwn_setOwn_eq, E.
           by destruct path.
        -- cbn [kindAt props]. rewrite getOwn_setOwn_eq, IH by done.
           apply walked_ext_cons. intros k x. cbn [kindAt props getOwn].
           by rewrite E.
    + assert (forall v, kindAt (Obj (setOwn part v ps)) (k :: path)
                        = kindAt (Obj ps) (k :: path)) as Hsame.
      { intros v. cbn [kindAt props]. by rewrite getOwn_setOwn_ne. }
      destruct (getOwn part ps) as [[sub|]|]; [apply Hsame| |];
        destruct rest; apply Hsame.
Qed.

Lemma wellKeyed_Obj (ps : list (list N * option jsobj)) :
  wellKeyed (Obj ps)
  <-> NoDup (map fst ps)
      /\ Forall (fun e => forall sub, snd e = Some sub -> wellKeyed sub) ps.
Proof.
  cbn [wellKeyed].
  assert ((fix all (l : list (list N * option jsobj)) : Prop :=
             match l with
             | [] => True
             | (_, Some sub) :: l' => wellKeyed sub /\ all l'
             | (_, None) :: l' => all l'
             end) ps
          <-> Forall (fun e => forall sub, snd e = Some sub -> wellKeyed sub) ps)
    as ->; [|done].
  induction ps as [|[k [sub|]] ps IH].
  - by split.
  - rewrite Forall_cons, <- IH. cbn [snd]. split.
    + intros [Hsub Hall]. split; [by intros ? [= <-]|done].
    + intros [Hsub Hall]. split; [by apply Hsub|done].
  - rewrite Forall_cons, <- IH. cbn [snd]. split; [|by intros [_ ?]].
    intros Hall. split; [by intros ? [=]|done].
Qed.

Lemma setOwn_keys {V} (k : list N) (v : V) (ps : list (list N * V))
      (x : list N) :
  x ∈ map fst (setOwn k v ps) -> x = k \/ x ∈ map fst ps.
Proof.
  induction ps as [|[k' v'] ps IH]; cbn [setOwn map fst].
  - intros [->|?%elem_of_nil]%elem_of_cons; [by left|done].
  - destruct (bool_decide (k' = k)) eqn:E.
    + apply bool_decide_eq_true in E as ->. cbn [map fst].
      intros [->|?]%elem_of_cons; [by left|]. right. apply elem_of_cons. by right.
    + cbn [map fst]. intros [->|[->|?]%IH]%elem_of_cons.
      * right. apply elem_of_cons. by left.
      * by left.
      * right. apply elem_of_cons. by right.
Qed.

Lemma setOwn_NoDup {V} (k : list N) (v : V) (ps : list (list N * V)) :
  NoDup (map fst ps) -> NoDup (map fst (setOwn k v ps)).
Proof.
  induction ps as [|[k' v'] ps IH]; cbn [setOwn map fst].
  - intros _. apply NoDup_singleton.
  - intros [Hfresh Hnd]%NoDup_cons.
    destruct (bool_decide (k' = k)) eqn:E.
    + apply bool_decide_eq_true in E as ->. cbn [map fst]. by apply NoDup_cons.
    + apply bool_decide_eq_false in E. cbn [map fst]. apply NoDup_cons.
      split; [|by apply IH]. intros [->|?]%setOwn_keys; done.
Qed.

Lemma setOwn_Forall {V} (Q : list N * V -> Prop) (k : list N) (v : V)
      (ps : list (list N * V)) :
  Q (k, v) -> Forall Q ps -> Forall Q (setOwn k v ps).
Proof.
  intros Hv Hps. induction Hps as [|[k' v'] ps Hq Hps IH]; cbn [setOwn].
  - by constructor.
  - destruct (bool_decide (k' = k)); by constructor.
Qed.

Lemma getOwn_Forall {V} (Q : list N * V -> Prop) (k : list N) (v : V)
      (ps : list (list N * V)) :
  Forall Q ps -> getOwn k ps = Some v -> Q (k, v).
Proof.
  intros Hps Hk%getOwn_elem. rewrite Forall_forall in Hps. by apply Hps.
Qed.

(** A walk keeps the names of every object distinct. *)
Lemma walk_wellKeyed (parts : list (list N)) :
  forall tree, wellKeyed tree -> wellKeyed (walk parts tree).
Proof.
  induction parts as [|part rest IH]; intros [ps] Ht; [done|].
  pose proof Ht as [Hnd Hall]%wellKeyed_Obj.
  assert (forall v, (forall sub, v = Some sub -> wellKeyed sub) ->
                    wellKeyed (Obj (setOwn part v ps))) as Hset.
  { intros v Hv. apply wellKeyed_Obj. split; [by apply setOwn_NoDup|].
    by apply setOwn_Forall. }
  assert (wellKeyed (walk rest (Obj []))) as Hnew.
  { apply IH, wellKeyed_Obj. split; [apply NoDup_nil_2|done]. }
  cbn [walk props].
  destruct (getOwn part ps) as [[sub|]|] eqn:E.
  - apply Hset. intros ? [= <-]. apply IH.
    by apply (getOwn_Forall _ _ _ _ Hall E sub).
  - destruct rest; apply Hset; [done|]. by intros ? [= <-].
  - destruct (inherited part); [done|].
    destruct rest; apply Hset; [done|]. by intros ? [= <-].
Qed.

Lemma namedIn_Obj (names : list (list N)) (ps : list (list N * option jsobj)) :
  namedIn names (Obj ps)
  <-> Forall (fun e => fst e ∈ names
                       /\ forall sub, snd e = Some sub -> namedIn names sub) ps.
Proof.
  cbn [namedIn]. induction ps as [|[k [sub|]] ps IH].
  - by split.
  - rewrite Forall_cons, <- IH. cbn [fst snd]. split.
    + intros (Hk & Hsub & Hall). split; [|done]. split; [done|].
      by intros ? [= <-].
    + intros [[Hk Hsub] Hall]. split; [done|]. split; [by apply Hsub|done].
  - rewrite Forall_cons, <- IH. cbn [fst snd]. split.
    + intros [Hk Hall]. split; [|done]. split; [done|]. by intros ? [=].
    + by intros [[Hk _] Hall].
Qed.

(** A walk puts no name into the tree but the parts of its path. *)
Lemma walk_namedIn (names : list (list N)) (parts : list (list N)) :
  forall tree,
    Forall (fun part => part ∈ names) parts ->
    namedIn names tree -> namedIn names (walk parts tree).
Proof.
  induction parts as [|part rest IH]; intros [ps] Hparts Ht; [done|].
  apply Forall_cons in Hparts as [Hpart Hrest].
  pose proof Ht as Hall%namedIn_Obj.
  assert (forall v, (forall sub, v = Some sub -> namedIn names sub) ->
                    namedIn names (Obj (setOwn part v ps))) as Hset.
  { intros v Hv. apply namedIn_Obj. by apply setOwn_Forall. }
  assert (namedIn names (walk rest (Obj []))) as Hnew.
  { apply IH; [done|]. by apply namedIn_Obj. }
  cbn [walk props].
  destruct (getOwn part ps) as [[sub|]|] eqn:E.
  - apply Hset. intros ? [= <-]. apply IH; [done|].
    by apply (getOwn_Forall _ _ _ _ Hall E).
  - destruct rest; apply Hset; [done|]. by intros ? [= <-].
  - destruct (inherited part); [done|].
    destruct rest; apply Hset; [done|]. by intros ? [= <-].
Qed.

Lemma buildFileTree_namedIn (paths : list (list N)) :
  namedIn (namesOf paths) (buildFileTree paths).
Proof.
  unfold buildFileTree.
  assert (forall names tree,
            Forall (fun path => Forall (fun part => part ∈ names)
                                       (pathParts path)) paths ->
            namedIn names tree ->
            namedIn names (fold_left (fun tree path => walk (pathParts path) tree)
                                     paths tree)) as H.
  { intros names. induction paths as [|path paths IH]; intros tree Hp Ht; [done|].
    apply Forall_cons in Hp as [Hpath Hp]. cbn [fold_left].
    apply IH; [done|]. by apply walk_namedIn. }
  apply H; [|by apply namedIn_Obj].
  apply Forall_forall. intros path Hpath. apply Forall_forall. intros part Hpart.
  unfold namesOf. apply list_elem_of_In, in_concat. exists (pathParts path).
  split; [apply in_map|]; by apply list_elem_of_In.
Qed.

(** Induction on a tree: on the objects its properties hold. *)
Lemma jsobj_induction (P : jsobj -> Prop) :
  (forall ps, Forall (fun e => forall sub, snd e = Some sub -> P sub) ps ->
              P (Obj ps)) ->
  forall tree, P tree.
Proof.
  intros H. fix IH 1. intros [ps]. apply H.
  induction ps as [|[k [sub|]] ps IHps].
  - apply Forall_nil_2.
  - apply Forall_cons_2; [|exact IHps]. intros ? [= <-]. apply IH.
  - apply Forall_cons_2; [|exact IHps]. intros ? [=].
Qed.

(** A sorted list is the only sorted arrangement of its elements, when no
    two of them are each in front of the other. *)
Lemma sorted_unique {A} (R : A -> A -> Prop) (l1 : list A) :
  forall l2,
    (forall a b, a ∈ l1 -> b ∈ l1 -> R a b -> R b a -> a = b) ->
    StronglySorted R l1 -> StronglySorted R l2 -> Permutation l1 l2 ->
    l1 = l2.
Proof.
  induction l1 as [|a l1 IH]; intros l2 Hanti H1 H2 Hperm.
  - by apply Permutation_nil in Hperm.
  - destruct l2 as [|b l2].
    { symmetry in Hperm. by apply Permutation_nil in Hperm. }
    apply StronglySorted_inv in H1 as [H1 Ha].
    apply StronglySorted_inv in H2 as [H2 Hb].
    rewrite Forall_forall in Ha, Hb.
    assert (a = b) as <-.
    { assert (b ∈ a :: l1) as [->|Hb1]%elem_of_cons
          by (rewrite Hperm; apply elem_of_cons; by left); [done|].
      assert (a ∈ b :: l2) as [->|Ha2]%elem_of_cons
          by (rewrite <- Hperm; apply elem_of_cons; by left); [done|].
      apply Hanti; [apply elem_of_cons; by left|apply elem_of_cons; by right| |].
      - by apply Ha.
      - by apply Hb. }
    f_equal. apply IH; [|done|done|by apply Permutation_cons_inv in Hperm].
    intros x y Hx Hy. apply Hanti; apply elem_of_cons; by right.
Qed.

Lemma elem_getOwn {V} (k : list N) (v : V) (ps : list (list N * V)) :
  NoDup (map fst ps) -> (k, v) ∈ ps -> getOwn k ps = Some v.
Proof.
  induction ps as [|[k' v'] ps IH]; [by intros _ ?%elem_of_nil|].
  cbn [map fst getOwn]. intros [Hfresh Hnd]%NoDup_cons [[= <- <-]|Hin]%elem_of_cons.
  - by rewrite bool_decide_true.
  - rewrite bool_decide_false; [by apply IH|].
    intros ->. apply Hfresh. apply list_elem_of_In, in_map_iff.
    exists (k, v). split; [done|]. by apply list_elem_of_In.
Qed.

Lemma treeToString_rendered (localeCompare : list N -> list N -> Z)
      (ps : list (list N * option jsobj)) (indent : list N) :
  treeToString localeCompare (Obj ps) indent
  = concat (map (fun r => snd (snd r))
                (sortedEntries localeCompare fst
                   (map (rendered localeCompare indent) ps))).
Proof.
  rewrite treeToString_eq. cbn [props]. unfold sortedEntries.
  rewrite (entries_map (rendered localeCompare indent)) by done.
  rewrite (sortBy_map (rendered localeCompare indent)
             (compareEntries localeCompare isFile)
             (compareEntries localeCompare fst)) by done.
  by rewrite map_map.
Qed.

Lemma same_key_same_entry {V} (l : list (list N * V)) (a b : list N * V) :
  NoDup (map fst l) -> a ∈ l -> b ∈ l -> fst a = fst b -> a = b.
Proof.
  intros Hnd Ha Hb Hk. destruct a as [k v], b as [k' v']. cbn [fst] in Hk.
  subst k'. f_equal.
  apply (elem_getOwn _ _ _ Hnd) in Ha, Hb. congruence.
Qed.

Section OutlineOfWhatIsHeld.
Variable localeCompare : list N -> list N -> Z.
Hypothesis total :
  forall a b, (0 < localeCompare a b)%Z -> (localeCompare b a <= 0)%Z.
Hypothesis trans :
  forall a b c, (localeCompare a b <= 0)%Z -> (localeCompare b c <= 0)%Z ->
                (localeCompare a c <= 0)%Z.
(** No two names of the tree collate as equal. *)
Variable names : list (list N).
Hypothesis antisym :
  forall a b, a ∈ names -> b ∈ names ->
              (localeCompare a b <= 0)%Z -> (localeCompare b a <= 0)%Z -> a = b.

Lemma compareEntries_antisym {V} (isNull : V -> bool) (a b : list N * V) :
  fst a ∈ names -> fst b ∈ names ->
  (compareEntries localeCompare isNull a b <= 0)%Z ->
  (compareEntries localeCompare isNull b a <= 0)%Z ->
  fst a = fst b.
Proof.
  intros Ha Hb. unfold compareEntries.
  destruct (isNull (snd a)), (isNull (snd b)); cbn [andb negb];
    try lia; by apply antisym.
Qed.

(** The entries of one object, sorted: there is one way to sort them. *)
Lemma sortedEntries_unique {V} (isNull : V -> bool) (ps qs : list (list N * V)) :
  Forall (fun e => fst e ∈ names) ps ->
  NoDup (map fst ps) -> Permutation ps qs ->
  sortedEntries localeCompare isNull ps = sortedEntries localeCompare isNull qs.
Proof.
  intros Hnames Hnd Hperm. rewrite Forall_forall in Hnames.
  assert (forall l, Permutation (sortedEntries localeCompare isNull l) l) as Hs.
  { intros l. unfold sortedEntries. by rewrite sortBy_perm, entries_perm. }
  apply (sorted_unique (fun a b => (compareEntries localeCompare isNull a b <= 0)%Z)).
  - intros a b Ha Hb Hab Hba. rewrite Hs in Ha, Hb.
    apply (same_key_same_entry ps); [done|done|done|].
    apply (compareEntries_antisym isNull); [by apply Hnames|by apply Hnames|..];
      done.
  - apply sortBy_sorted;
      [apply compareEntries_total, total|apply compareEntries_trans, trans].
  - apply sortBy_sorted;
      [apply compareEntries_total, total|apply compareEntries_trans, trans].
  - by rewrite !Hs.
Qed.

(** What [kindAt] tells of the property [k] of an object. *)
Lemma kindAt_property (ps qs : list (list N * option jsobj)) (k : list N) :
  (forall path, kindAt (Obj ps) path = kindAt (Obj qs) path) ->
  match getOwn k ps with
  | Some (Some sub) =>
      exists sub', getOwn k qs = Some (Some sub')
                   /\ forall path, kindAt sub path = kindAt sub' path
  | Some None => getOwn k qs = Some None
  | None => getOwn k qs = None
  end.
Proof.
  intros Hsame. pose proof (Hsame [k]) as H1. cbn [kindAt props] in H1.
  destruct (getOwn k ps) as [[sub|]|] eqn:Eps,
           (getOwn k qs) as [[sub'|]|] eqn:Eqs; try done.
  exists sub'. split; [done|]. intros path.
  pose proof (Hsame (k :: path)) as H. cbn [kindAt props] in H.
  by rewrite Eps, Eqs in H.
Qed.

(** The outline is a matter of what the tree holds, not of the order in
    which its objects hold it. *)
Lemma outline_of_what_is_held (tree : jsobj) :
  forall tree',
    wellKeyed tree -> wellKeyed tree' -> namedIn names tree ->
    (forall path, kindAt tree path = kindAt tree' path) ->
    forall indent,
      treeToString localeCompare tree indent
      = treeToString localeCompare tree' indent.
Proof.
  induction tree as [ps IH] using jsobj_induction.
  intros [qs] [Hnd Hps]%wellKeyed_Obj [Hnd' Hqs]%wellKeyed_Obj
         Hnames%namedIn_Obj Hsame indent.
  rewrite !treeToString_rendered. f_equal. f_equal.
  rewrite Forall_forall in IH, Hps, Hqs, Hnames.
  assert (Hkeys : forall l : list (list N * option jsobj),
             map fst (map (rendered localeCompare indent) l) = map fst l)
    by (intros l; by rewrite map_map).
  assert (Hone : forall l : list (list N * option jsobj),
             NoDup (map fst l) ->
             NoDup (map (rendered localeCompare indent) l)).
  { intros l Hl. rewrite <- Hkeys in Hl.
    by apply (NoDup_fmap_1 fst) in Hl. }
  apply sortedEntries_unique; [|by rewrite Hkeys|].
  { apply Forall_forall.
    intros r (e & <- & He%list_elem_of_In)%list_elem_of_In%in_map_iff.
    by apply Hnames. }
  apply NoDup_Permutation; [by apply Hone|by apply Hone|].
  assert (Hsym : forall path, kindAt (Obj qs) path = kindAt (Obj ps) path)
    by (intros path; by rewrite Hsame).
  intros r. split.
  - intros ([k v] & <- & Hin%list_elem_of_In)%list_elem_of_In%in_map_iff.
    apply list_elem_of_In, in_map_iff.
    pose proof (kindAt_property ps qs k Hsame) as Hk.
    rewrite (elem_getOwn _ _ _ Hnd Hin) in Hk.
    destruct v as [sub|].
    + destruct Hk as (sub' & Hk%getOwn_elem & Hsub).
      exists (k, Some sub'). split; [|by apply list_elem_of_In].
      unfold rendered, entryLines. cbn [fst snd isFile].
      rewrite (IH _ Hin sub eq_refl sub'); [done| | | |done].
      * by apply (Hps _ Hin).
      * by apply (Hqs _ Hk).
      * by apply (Hnames _ Hin).
    + apply getOwn_elem in Hk. exists (k, None).
      split; [done|by apply list_elem_of_In].
  - intros ([k v] & <- & Hin%list_elem_of_In)%list_elem_of_In%in_map_iff.
    apply list_elem_of_In, in_map_iff.
    pose proof (kindAt_property qs ps k Hsym) as Hk.
    rewrite (elem_getOwn _ _ _ Hnd' Hin) in Hk.
    destruct v as [sub'|].
    + destruct Hk as (sub & Hk%getOwn_elem & Hsub).
      exists (k, Some sub). split; [|by apply list_elem_of_In].
      unfold rendered, entryLines. cbn [fst snd isFile].
      rewrite (IH _ Hk sub eq_refl sub'); [done| | | |done].
      * by apply (Hps _ Hk).
      * by apply (Hqs _ Hin).
      * by apply (Hnames _ Hk).
    + apply getOwn_elem in Hk. exists (k, None).
      split; [done|by apply list_elem_of_In].
Qed.
End OutlineOfWhatIsHeld.

Lemma buildFileTree_wellKeyed (paths : list (list N)) :
  wellKeyed (buildFileTree paths).
Proof.
  unfold buildFileTree.
  assert (forall tree, wellKeyed tree ->
            wellKeyed (fold_left (fun tree path => walk (pathParts path) tree)
                                 paths tree)) as H.
  { induction paths as [|path paths IH]; intros tree Ht; [done|].
    cbn [fold_left]. by apply IH, walk_wellKeyed. }
  apply H, wellKeyed_Obj. split; [apply NoDup_nil_2|done].
Qed.

(** Walking the same paths from trees that hold the same leads to trees
    that hold the same. *)
Lemma kindAt_fold (paths : list (list N)) :
  forall tree tree',
    Forall ordinary paths ->
    (forall path, kindAt tree path = kindAt tree' path) ->
    forall path,
      kindAt (fold_left (fun tree path => walk (pathParts path) tree) paths tree)
             path
      = kindAt (fold_left (fun tree path => walk (pathParts path) tree) paths
                          tree')
               path.
Proof.
  induction paths as [|p paths IH]; intros tree tree' Hpaths Hsame; [done|].
  apply Forall_cons in Hpaths as [Hp Hpaths]. cbn [fold_left].
  apply IH; [done|]. intros path. rewrite !kindAt_walk by done.
  by apply walked_ext.
Qed.

Lemma kindAt_permutation (paths paths' : list (list N)) :
  Permutation paths paths' ->
  Forall ordinary paths ->
  forall tree path,
    kindAt (fold_left (fun tree path => walk (pathParts path) tree) paths tree)
           path
    = kindAt (fold_left (fun tree path => walk (pathParts path) tree) paths'
                        tree)
             path.
Proof.
  induction 1 as [|x l l' Hperm IH|x y l|l l' l'' H1 IH1 H2 IH2];
    intros Hpaths tree path.
  - done.
  - apply Forall_cons in Hpaths as [Hx Hl]. cbn [fold_left]. by apply IH.
  - apply Forall_cons in Hpaths as [Hy [Hx Hl]%Forall_cons]. cbn [fold_left].
    apply kindAt_fold; [done|]. intros q.
    rewrite !kindAt_walk by done.
    rewrite (walked_ext _ _ (walked (pathParts y) (kindAt tree)))
      by (intros z; by rewrite kindAt_walk).
    rewrite (walked_ext (pathParts y) _ (walked (pathParts x) (kindAt tree)))
      by (intros z; by rewrite kindAt_walk).
    apply walked_comm.
  - rewrite IH1 by done. apply IH2. by rewrite <- H1.
Qed.

(** X26: the outline does not depend on the order in which the paths are
    listed, when [localeCompare] is a total preorder in which no two names
    of the paths collate as equal, and no part of a path is a name that
    objects inherit, from [Object.prototype] as the language has it or from
    what the process has added to it: in whatever order the vector store
    returns the entries of the index, [buildFileTree] stays in the tree and
    [treeToString] draws the same outline. *)
Theorem outline_ignores_the_order (localeCompare : list N -> list N -> Z)
        (polluted : list N -> bool)
        (paths paths' : list (list N)) (indent : list N) :
  (forall a b, (0 < localeCompare a b)%Z -> (localeCompare b a <= 0)%Z) ->
  (forall a b c, (localeCompare a b <= 0)%Z -> (localeCompare b c <= 0)%Z ->
                 (localeCompare a c <= 0)%Z) ->
  (forall a b, a ∈ namesOf paths -> b ∈ namesOf paths ->
               (localeCompare a b <= 0)%Z -> (localeCompare b a <= 0)%Z ->
               a = b) ->
  Forall (ordinaryIn polluted) paths -> Permutation paths paths' ->
  exists tree tree',
    buildFileTreeIn polluted paths = Some tree
    /\ buildFileTreeIn polluted paths' = Some tree'
    /\ treeToString localeCompare tree indent
       = treeToString localeCompare tree' indent.
Proof.
  intros total trans antisym Hpaths Hperm.
  assert (Forall (ordinaryIn polluted) paths') as Hpaths'
      by by rewrite <- Hperm.
  exists (buildFileTree paths), (buildFileTree paths').
  split; [by apply buildFileTreeIn_ordinary|].
  split; [by apply buildFileTreeIn_ordinary|].
  apply (outline_of_what_is_held localeCompare total trans (namesOf paths));
    try done; try apply buildFileTree_wellKeyed.
  - apply buildFileTree_namedIn.
  - intros path. apply kindAt_permutation; [done|].
    apply (Forall_impl _ _ _ Hpaths). apply ordinaryIn_ordinary.
Qed.

Lemma compareUnits_antisym (a b : list N) :
  (compareUnits a b <= 0)%Z -> (compareUnits b a <= 0)%Z -> a = b.
Proof.
  revert b; induction a as [|x a IH]; intros [|y b]; cbn [compareUnits];
    try done; try lia.
  destruct (N.ltb_spec x y), (N.ltb_spec y x); try lia.
  intros Hab Hba. assert (x = y) as -> by lia. f_equal. by apply IH.
Qed.

Lemma outline_ignores_the_order_witness :
  exists tree tree',
    buildFileTreeIn (fun _ => false)
                    [u "src/a.js"; u "README"; u "src/core/b.js"; u "src"]
    = Some tree
    /\ buildFileTreeIn (fun _ => false)
                       [u "src"; u "src/core/b.js"; u "src/a.js"; u "README"]
       = Some tree'
    /\ treeToString compareUnits tree [] = treeToString compareUnits tree' [].
Proof.
  apply (outline_ignores_the_order compareUnits).
  - apply compareUnits_total.
  - apply compareUnits_trans.
  - intros a b _ _. apply compareUnits_antisym.
  - repeat constructor; by vm_compute.
  - apply (bool_decide_unpack _). by vm_compute.
Defined.

(** ** The tree of [buildTree] *)

Lemma wellShaped_directory (name : list N) (cs : list TreeNode) :
  wellShaped (Node name TDirectory (Some cs) None)
  <-> NoDup (map n_name cs) /\ Forall wellShaped cs.
Proof.
  cbn [wellShaped].
  assert ((fix all (l : list TreeNode) : Prop :=
             match l with
             | [] => True
             | c :: l' => wellShaped c /\ all l'
             end) cs <-> Forall wellShaped cs) as ->.
  { induction cs as [|c cs IH]; [by split|].
    rewrite Forall_cons, <- IH. done. }
  split; [by intros (_ & _ & ? & ?)|by intros [? ?]].
Qed.

Lemma wellShaped_children (n : TreeNode) (cs : list TreeNode) :
  wellShaped n -> n_children n = Some cs ->
  n_type n = TDirectory /\ n_fileOf n = None
  /\ NoDup (map n_name cs) /\ Forall wellShaped cs.
Proof.
  destruct n as [name type children fileOf]. cbn [n_children n_type n_fileOf].
  intros Hn ->. pose proof Hn as (-> & -> & _).
  split; [done|]. split; [done|].
  by apply (wellShaped_directory name).
Qed.

Lemma findChild_Some (part : list N) (cs : list TreeNode) (child : TreeNode) :
  findChild part cs = Some child -> child ∈ cs /\ n_name child = part.
Proof.
  unfold findChild. intros [Hin Hname]%find_some.
  split; [by apply list_elem_of_In|]. by apply bool_decide_eq_true in Hname.
Qed.

Lemma findChild_None (part : list N) (cs : list TreeNode) :
  findChild part cs = None -> part ∉ map n_name cs.
Proof.
  unfold findChild. intros Hnone Hin.
  apply list_elem_of_In, in_map_iff in Hin as (c & Hname & Hc).
  pose proof (find_none _ _ Hnone c Hc) as H. cbn in H.
  by rewrite bool_decide_true in H.
Qed.

Lemma setChildren_names (part : list N) (sub cs : list TreeNode) :
  map n_name (setChildren part sub cs) = map n_name cs.
Proof.
  induction cs as [|c cs IH]; [done|]. cbn [setChildren].
  destruct (bool_decide (n_name c = part)); cbn [map n_name]; by rewrite ?IH.
Qed.

Lemma setChildren_wellShaped (part : list N) (sub cs : list TreeNode)
      (child : TreeNode) (old : list TreeNode) :
  findChild part cs = Some child -> n_children child = Some old ->
  NoDup (map n_name sub) -> Forall wellShaped sub ->
  Forall wellShaped cs -> Forall wellShaped (setChildren part sub cs).
Proof.
  intros Hfind Hold Hnd Hsub Hcs. unfold findChild in Hfind.
  induction Hcs as [|c cs Hc Hcs IH]; [done|].
  cbn [setChildren find] in *.
  destruct (bool_decide (n_name c = part)).
  - injection Hfind as ->. constructor; [|done].
    destruct (wellShaped_children _ _ Hc Hold) as (-> & -> & _).
    by apply wellShaped_directory.
  - constructor; [done|]. by apply IH.
Qed.

(** [place] keeps the children of a directory well shaped. *)
Lemma place_wellShaped (file : FileInfo) (parts : list (list N)) :
  forall cs,
    NoDup (map n_name cs) -> Forall wellShaped cs ->
    NoDup (map n_name (place file parts cs))
    /\ Forall wellShaped (place file parts cs).
Proof.
  induction parts as [|part rest IH]; intros cs Hnd Hcs; [done|].
  cbn [place]. destruct (findChild part cs) as [child|] eqn:Hfind.
  - destruct (n_children child) as [sub|] eqn:Hsub; [|by apply IH].
    destruct (findChild_Some _ _ _ Hfind) as [Hin _].
    rewrite Forall_forall in Hcs. pose proof (Hcs _ Hin) as Hchild.
    rewrite <- Forall_forall in Hcs.
    destruct (wellShaped_children _ _ Hchild Hsub) as (_ & _ & Hnd' & Hsub').
    destruct (IH sub Hnd' Hsub') as [Hnd'' Hsub''].
    split; [by rewrite setChildren_names|].
    by apply (setChildren_wellShaped _ _ _ child sub).
  - apply findChild_None in Hfind.
    assert (forall new, n_name new = part -> wellShaped new ->
              NoDup (map n_name (cs ++ [new]))
              /\ Forall wellShaped (cs ++ [new])) as Hpush.
    { intros new Hname Hnew. split.
      - rewrite map_app. cbn [map]. rewrite Hname.
        apply NoDup_app. split; [done|]. split; [|apply NoDup_singleton].
        intros x Hx ->%list_elem_of_singleton. done.
      - apply Forall_app. split; [done|]. by constructor. }
    destruct rest as [|part' rest'].
    + apply Hpush; [done|]. cbn. split; [done|]. by eexists.
    + apply Hpush; [done|]. apply wellShaped_directory.
      apply IH; [apply NoDup_nil_2|done].
Qed.

(** X27: the tree of [buildTree] is well shaped, whatever the files: every node
    is a file without children or a directory with children, and no
    directory, the root included, has two children of one name. *)
Theorem buildTree_is_well_shaped (files : list FileInfo) :
  wellShaped (buildTree files)
  /\ n_name (buildTree files) = u "/"
  /\ n_type (buildTree files) = TDirectory.
Proof.
  split; [|done]. unfold buildTree. apply wellShaped_directory.
  assert (forall cs,
            NoDup (map n_name cs) /\ Forall wellShaped cs ->
            NoDup (map n_name
                     (fold_left (fun children file =>
                                   place file (pathParts (f_path file)) children)
                                files cs))
            /\ Forall wellShaped
                 (fold_left (fun children file =>
                               place file (pathParts (f_path file)) children)
                            files cs)) as H.
  { induction files as [|file files IH]; intros cs [Hnd Hcs]; [done|].
    cbn [fold_left]. apply IH. by apply place_wellShaped. }
  apply H. split; [apply NoDup_nil_2|done].
Qed.

(** X28: a file in the way is not entered: when the table holds a file [a] and
    a file [a/b], the tree has [b] beside [a] at the top, not below it; and
    the file [a/a] is left out of the tree. *)
Theorem buildTree_file_in_the_way (a b : list N) (fa fb : FileInfo) :
  plainName a -> plainName b ->
  f_path fa = a -> f_path fb = a ++ u "/" ++ b ->
  buildTree [fa; fb]
  = Node (u "/") TDirectory
         (Some (if decide (a = b) then [fileNode a fa]
                else [fileNode a fa; fileNode b fb]))
         None.
Proof.
  intros Ha Hb Hfa Hfb. unfold buildTree. cbn [fold_left].
  rewrite Hfa, Hfb, pathParts_app, !pathParts_plain by done.
  cbn [app place findChild find n_name]. unfold fileNode.
  rewrite bool_decide_true by done. cbn [n_children place findChild find n_name].
  destruct (decide (a = b)) as [->|Hne].
  - rewrite bool_decide_true by done. done.
  - rewrite bool_decide_false by done. done.
Qed.

Lemma buildTree_file_in_the_way_witness :
  let fa := {| f_id := u "1"; f_path := u "docs"; f_language := VNull;
               f_size := 3 |} in
  let fb := {| f_id := u "2"; f_path := u "docs/intro.md";
               f_language := VStr (u "markdown"); f_size := 9 |} in
  buildTree [fa; fb]
  = Node (u "/") TDirectory
         (Some [fileNode (u "docs") fa; fileNode (u "intro.md") fb]) None.
Proof.
  apply (buildTree_file_in_the_way (u "docs") (u "intro.md")); try done.
  - split; [done|]. apply (bool_decide_unpack _). by vm_compute.
  - split; [done|]. apply (bool_decide_unpack _). by vm_compute.
Defined.

(** ** Sending a message *)

Lemma orDefault_textOr (x : value) (d : list N) : orDefault x d = textOr d x.
Proof. by destruct x as [| |[|c s]]. Qed.

(** X29: when the vector store cannot be reached, [sendMessage] still sends the
    message: the prompt holds the instructions and the request, and no
    context, and the mode sent is that of the options, [chat] when they
    name none; and it returns the text of the answer, parsed, the empty
    text when the answer has none. *)
Theorem sendMessage_without_the_store
        (localeCompare : list N -> list N -> Z) (baseURL apiKey : list N)
        (fetch : Request -> result HttpResponse)
        (projectId message e : list N) (options : Options) (c : Chroma)
        (response : HttpResponse) (data : Data) :
  down c (calls c) = Some e ->
  fetch (chatRequest baseURL apiKey projectId
           (buildEnrichedPrompt message {| ctx_files := []; ctx_structure := [] |}
                                (opt_mode options))
           (opt_mode options)) = Ok response ->
  ok response = true -> bodyJson response = Ok data ->
  exists parsed,
    parseClaudeResponse (textOr [] (textResponse data)) = Some parsed
    /\ fst (sendMessage localeCompare baseURL apiKey fetch projectId message
                        options c)
       = Ok (Some (replyOf parsed data)).
Proof.
  intros Hdown Hfetch Hok Hjson.
  destruct (parseClaudeResponse_returns (textOr [] (textResponse data)))
    as [parsed Hparsed].
  exists parsed. split; [done|].
  unfold sendMessage. rewrite tryCatch_rethrow. unfold bind at 1.
  assert (queryRelevantFiles localeCompare projectId message
            (orFive (opt_contextSize options)) c
          = (Ok {| r_files := []; r_structure := [] |}, tick c)) as ->.
  { unfold queryRelevantFiles, tryCatch.
    by rewrite (bind_throw _ _ c (tick c) e)
      by by apply getOrCreateCollection_down. }
  cbn [r_files r_structure]. unfold chatRequest in Hfetch.
  rewrite orDefault_textOr.
  unfold bind, await. rewrite Hfetch, Hok. cbn [negb].
  by rewrite Hjson, orDefault_textOr, Hparsed.
Qed.

Lemma sendMessage_without_the_store_witness :
  fst (sendMessage compareUnits (u "http://localhost:3001") (u "key")
                   sampleEndpoint (u "p1") (u "Add a file")
                   {| opt_contextSize := None; opt_mode := VStr (u "refactor") |}
                   unreachableStore)
  = Ok (Some {| reply_message := u "Done.";
                generatedFiles :=
                  [ {| path := u "a.js"; language := u "js";
                       content := u "let a;" |} ];
                reply_thinking := None;
                rawResponse := sampleData |}).
Proof.
  destruct (sendMessage_without_the_store compareUnits
              (u "http://localhost:3001") (u "key") sampleEndpoint
              (u "p1") (u "Add a file") (u "ECONNREFUSED")
              {| opt_contextSize := None; opt_mode := VStr (u "refactor") |}
              unreachableStore sampleAnswer sampleData)
    as (parsed & Hparsed & Hsent); [done|by vm_compute|done|done|].
  rewrite Hsent. vm_compute in Hparsed. by injection Hparsed as <-.
Defined.

(** X30: when the endpoint answers with a status that is not a success,
    [sendMessage] throws, whatever the vector store did, and the message of
    the error holds the status and the text of the answer. *)
Theorem sendMessage_reports_the_status
        (localeCompare : list N -> list N -> Z) (baseURL apiKey : list N)
        (fetch : Request -> result HttpResponse)
        (projectId message errorText : list N) (options : Options)
        (c : Chroma) (response : HttpResponse) :
  (forall request, fetch request = Ok response) ->
  ok response = false -> bodyText response = Ok errorText ->
  fst (sendMessage localeCompare baseURL apiKey fetch projectId message
                   options c)
  = Throw (u "AnythingLLM API error: " ++ decimalOf (httpStatus response)
           ++ u " - " ++ errorText).
Proof.
  intros Hfetch Hok Htext.
  unfold sendMessage. rewrite tryCatch_rethrow. unfold bind at 1.
  destruct (queryRelevantFiles_returns localeCompare projectId message
              (orFive (opt_contextSize options)) c) as [v Hv].
  destruct (queryRelevantFiles _ _ _ _ c) as [[v'|e'] c'];
    cbn [fst] in Hv; [|done].
  unfold bind, await. rewrite Hfetch, Hok. cbn [negb]. by rewrite Htext.
Qed.

Lemma sendMessage_reports_the_status_witness :
  fst (sendMessage compareUnits (u "http://localhost:3001") (u "key")
                   (fun _ => Ok sampleRefusal) (u "p1") (u "Add a file")
                   {| opt_contextSize := Some 10; opt_mode := VStr (u "test") |}
                   emptyStore)
  = Throw (u "AnythingLLM API error: 503 - busy").
Proof.
  by apply (sendMessage_reports_the_status compareUnits
              (u "http://localhost:3001") (u "key") (fun _ => Ok sampleRefusal)
              (u "p1") (u "Add a file") (u "busy")
              {| opt_contextSize := Some 10; opt_mode := VStr (u "test") |}
              emptyStore sampleRefusal).
Defined.

